(** * A verified model of [ladybug_geometry_polyskel.polygon_directed_graph]

    The development embeds the directed graph of
    [polygon_directed_graph.py] and proves properties of it.

    Modelling conventions.
    - Python floats are exact rationals ([Q]); there is no infinity and no
      NaN.  The library function [math.log10], the builtins [round] and
      [str], and the functions imported from [ladybug_geometry], are
      parameters of the development: what is proved holds for the values
      that they have on floats.
    - A [_Node] object lives in the dictionary [_directed_graph] under its
      key; the constructor stores the key in the slot [key] and nothing
      reassigns it, so a reference to a node object is the key of the node,
      and [node.key] is that reference.  An adjacency list holds references.
    - A method that mutates [self] is a computation in the monad [M]: it
      takes the graph and returns a value or an exception together with the
      graph as the call left it. *)

From stdpp Require Import gmap strings list fin_maps sorting pretty.
From Stdlib Require Import QArith Qround.

#[local] Open Scope Z_scope.

(** A lemma of a section depends on the section variables of its statement,
    and on the section hypotheses about them, only. *)
#[local] Set Default Proof Using "Type*".

(** ** Exceptions and results *)

Inductive exn : Type :=
  | ValueError
  | IndexError
  | AttributeError
  | RecursionError.

Inductive result (A : Type) : Type :=
  | Return (a : A)
  | Raise (e : exn).

Arguments Return {A} a.
Arguments Raise {A} e.

(** ** The builtin [int] on a float

    [int(x)] drops the fraction of [x]: it truncates toward zero. *)

Definition int (x : Q) : Z :=
  if Qle_bool 0 x then Qfloor x else Qceiling x.

(** ** Points and vectors of [ladybug_geometry.geometry2d] *)

Module Vector2D.
Record t : Type := mk { x : Q; y : Q }.

(** [a - b] *)
Definition sub (a b : t) : t := mk (x a - x b)%Q (y a - y b)%Q.

(** [a * s] *)
Definition scale (a : t) (s : Q) : t := mk (x a * s)%Q (y a * s)%Q.
End Vector2D.

Abbreviation Point2D := Vector2D.t.

Module LineSegment2D.
Record t : Type := mk { p : Point2D; v : Vector2D.t }.

Definition from_end_points (p1 p2 : Point2D) : t :=
  mk p1 (Vector2D.sub p2 p1).
End LineSegment2D.

(** ** Nodes and the graph *)

Record _Node : Type := mk_Node {
  pt : Point2D;
  _order : nat;
  adj_lst : list string;
  exterior : option bool
}.

Record PolygonDirectedGraph : Type := mkGraph {
  _directed_graph : gmap string _Node;
  _root : option string;
  _tol : Q;
  num_nodes : nat
}.

Definition set_adj_lst (l : list string) (n : _Node) : _Node :=
  mk_Node (pt n) (_order n) l (exterior n).

Definition set_exterior (e : option bool) (n : _Node) : _Node :=
  mk_Node (pt n) (_order n) (adj_lst n) e.

(** [n] after [n.adj_lst.append(k)]. *)
Definition with_adjacent (k : string) (n : _Node) : _Node :=
  set_adj_lst (adj_lst n ++ [k]) n.

(** [n] after [if exterior is not None: n.exterior = exterior]. *)
Definition with_exterior (e : option bool) (n : _Node) : _Node :=
  match e with
  | Some _ => set_exterior e n
  | None => n
  end.

Definition set_directed_graph (m : gmap string _Node)
    (g : PolygonDirectedGraph) : PolygonDirectedGraph :=
  mkGraph m (_root g) (_tol g) (num_nodes g).

Definition set_num_nodes (c : nat) (g : PolygonDirectedGraph)
    : PolygonDirectedGraph :=
  mkGraph (_directed_graph g) (_root g) (_tol g) c.

Definition set_root (r : option string) (g : PolygonDirectedGraph)
    : PolygonDirectedGraph :=
  mkGraph (_directed_graph g) r (_tol g) (num_nodes g).

(** [PolygonDirectedGraph.__init__] *)
Definition __init__ (tol : Q) : PolygonDirectedGraph :=
  mkGraph ∅ None tol 0%nat.

(** The default of [__init__]'s [tol], [1e-5]. *)
Definition default_tol : Q := (1 # 100000)%Q.

(** ** The monad of graph methods *)

Definition M (A : Type) : Type :=
  PolygonDirectedGraph → result A * PolygonDirectedGraph.

Definition ret {A} (a : A) : M A := λ g, (Return a, g).

Definition raise {A} (e : exn) : M A := λ g, (Raise e, g).

Definition bind {A B} (c : M A) (k : A → M B) : M B :=
  λ g, match c g with
       | (Return a, g') => k a g'
       | (Raise e, g') => (Raise e, g')
       end.

Definition get : M PolygonDirectedGraph := λ g, (Return g, g).

Definition modify (f : PolygonDirectedGraph → PolygonDirectedGraph)
    : M unit :=
  λ g, (Return tt, f g).

#[global] Instance M_ret : MRet M := @ret.
#[global] Instance M_bind : MBind M := λ A B k c, bind c k.

(** Code that reads the graph without changing it returns a [result]. *)
#[global] Instance result_ret : MRet result := @Return.
#[global] Instance result_bind : MBind result :=
  λ A B k r, match r with Return a => k a | Raise e => Raise e end.

(** The value and the final graph of a computation. *)
Definition eval {A} (c : M A) (g : PolygonDirectedGraph) : result A :=
  fst (c g).

Definition exec {A} (c : M A) (g : PolygonDirectedGraph)
    : PolygonDirectedGraph :=
  snd (c g).

(** Reading an attribute of a node through a reference: the reference
    [self.node(key)] of an absent key is [None], and an attribute of [None]
    raises [AttributeError]. *)
Definition deref (node : string) : M _Node :=
  λ g, match _directed_graph g !! node with
       | Some n => (Return n, g)
       | None => (Raise AttributeError, g)
       end.

(** ** Stable sorting, as [list.sort] and [sorted] with a [key] *)

Section sorting.
Context {A : Type} (le : A → A → bool).

Fixpoint insert_sorted (a : A) (l : list A) : list A :=
  match l with
  | [] => [a]
  | b :: l' => if le a b then a :: l else b :: insert_sorted a l'
  end.

Definition sorted (l : list A) : list A := foldr insert_sorted [] l.
End sorting.

(** ** An exact instance of the builtins and of the geometry

    Used for the examples: a [log10] that is the exponent on a power of
    ten, [round] to [n] decimals with ties to even, a [str] that prints
    reduced fractions, and the operations of [ladybug_geometry] in rational
    arithmetic. *)

Module Exact.
Fixpoint ilog10_fuel (fuel : nat) (n : Z) : Z :=
  match fuel with
  | O => 0
  | S f => if n <? 10 then 0 else 1 + ilog10_fuel f (n / 10)
  end.

(** The largest [k] with [10 ^ k <= n], for [1 <= n]. *)
Definition ilog10 (n : Z) : Z := ilog10_fuel (Z.to_nat (Z.log2 n)) n.

(** The largest [k] with [10 ^ k <= q], for [0 < q]. *)
Definition floor_log10 (q : Q) : Z :=
  if Qle_bool 1 q then ilog10 (Qfloor q)
  else
    let i := ilog10 (Qfloor (/ q)) in
    if Qeq_bool (q * inject_Z (10 ^ i)) 1 then - i else - (i + 1).

(** [log10] raises [ValueError] ([None]) unless its argument is positive.
    At [10 ^ k] it is [k]; between [10 ^ k] and [10 ^ (k + 1)] the instance
    takes the chord of the logarithm, a value between [k] and [k + 1]. *)
Definition log10 (q : Q) : option Q :=
  if Qle_bool q 0 then None
  else
    let k := floor_log10 q in
    Some (Qred (inject_Z k + (q / Qpower (10 # 1) k - 1) / (9 # 1))).

Definition round_half_even (q : Q) : Z :=
  let f := Qfloor q in
  match (q - inject_Z f ?= 1 # 2)%Q with
  | Lt => f
  | Gt => f + 1
  | Eq => if Z.even f then f else f + 1
  end.

Definition round (x : Q) (n : Z) : Q :=
  Qred (inject_Z (round_half_even (x * Qpower (10 # 1) n)) / Qpower (10 # 1) n).

Definition show (q : Q) : string :=
  pretty (Qnum (Qred q)) +:+ "/" +:+ pretty (Zpos (Qden (Qred q))).

Definition str (c : Q * Q) : string :=
  "(" +:+ show c.1 +:+ ", " +:+ show c.2 +:+ ")".

(** [Vector2D.__nonzero__] *)
Definition point_bool (p : Point2D) : bool :=
  negb (Qeq_bool (Vector2D.x p) 0) || negb (Qeq_bool (Vector2D.y p) 0).

(** [LineSegment2D._u_in] *)
Definition _u_in (u : Q) : bool := Qle_bool 0 u && Qle_bool u 1.

(** [intersect_line2d_infinite]: [line_a] is a segment, [line_b] is
    extended to a line. *)
Definition intersect_line2d_infinite (line_a line_b : LineSegment2D.t)
    : option Point2D :=
  let pa := LineSegment2D.p line_a in
  let va := LineSegment2D.v line_a in
  let pb := LineSegment2D.p line_b in
  let vb := LineSegment2D.v line_b in
  let d := (Vector2D.y vb * Vector2D.x va - Vector2D.x vb * Vector2D.y va)%Q in
  if Qeq_bool d 0 then None
  else
    let dy := (Vector2D.y pa - Vector2D.y pb)%Q in
    let dx := (Vector2D.x pa - Vector2D.x pb)%Q in
    let ua := ((Vector2D.x vb * dy - Vector2D.y vb * dx) / d)%Q in
    if _u_in ua then
      Some (Vector2D.mk (Qred (Vector2D.x pa + ua * Vector2D.x va))
              (Qred (Vector2D.y pa + ua * Vector2D.y va)))
    else None.

(** The square of [LineSegment2D.length], which orders segments as the
    length does. *)
Definition segment_length (s : LineSegment2D.t) : Q :=
  let v := LineSegment2D.v s in
  Qred (Vector2D.x v * Vector2D.x v + Vector2D.y v * Vector2D.y v).

(** A rational measure in [0, 4) of the direction [(a, b)], growing with
    its counter-clockwise angle from the x axis. *)
Definition diamond (a b : Q) : Q :=
  if Qle_bool 0 b then
    if Qle_bool 0 a then (b / (a + b))%Q else (1 + - a / (- a + b))%Q
  else
    if Qle_bool a 0 then (2 + - b / (- a - b))%Q else (3 + a / (a - b))%Q.

(** In place of [Vector2D.angle_clockwise]: the measure of the clockwise
    turn from [v1] to [v2]. *)
Definition angle_clockwise (v1 v2 : Vector2D.t) : Q :=
  let dot := (Vector2D.x v1 * Vector2D.x v2 + Vector2D.y v1 * Vector2D.y v2)%Q in
  let cross := (Vector2D.x v1 * Vector2D.y v2 - Vector2D.y v1 * Vector2D.x v2)%Q in
  Qred (diamond dot (- cross)).
End Exact.

Section Graph.

(** [math.log10] on a float; [None] is its [ValueError], the math domain
    error. *)
Variable log10 : Q → option Q.

(** The builtins [round] and [str] (of a pair of floats). *)
Variable round : Q → Z → Q.
Variable str : Q * Q → string.

(** From [ladybug_geometry]: [Vector2D.angle_clockwise], the truth value of
    a [Point2D] (as [if int_pt:] takes it),
    [intersection2d.intersect_line2d_infinite] and the property
    [LineSegment2D.length]. *)
Variable angle_clockwise : Vector2D.t → Vector2D.t → Q.
Variable point_bool : Point2D → bool.
Variable intersect_line2d_infinite :
  LineSegment2D.t → LineSegment2D.t → option Point2D.
Variable segment_length : LineSegment2D.t → Q.

(** Propositional reasoning that leaves the section variables out of it. *)
Ltac ptauto :=
  try clear segment_length; try clear intersect_line2d_infinite;
  try clear point_bool; try clear angle_clockwise; try clear str;
  try clear round; try clear log10; tauto.

(** ** [_vector2hash] *)

(** The local [rtol]: [int(log10(tol)) * -1], and 0 when [log10] raises
    [ValueError]. *)
Definition rtol_of (tol : Q) : Z :=
  match log10 tol with
  | Some l => int l * -1
  | None => 0
  end.

Definition _vector2hash (vector : Vector2D.t) (tol : Q) : string :=
  let rtol := rtol_of tol in
  str (round (Vector2D.x vector) rtol, round (Vector2D.y vector) rtol).

(** ** The graph store *)

(** [node_exists] *)
Definition node_exists (key : string) (g : PolygonDirectedGraph) : bool :=
  bool_decide (key ∈ dom (_directed_graph g)).

(** [node]: the reference of the node of [key], [None] when there is none. *)
Definition node (key : string) (g : PolygonDirectedGraph) : option string :=
  match _directed_graph g !! key with
  | Some _ => Some key
  | None => None
  end.

Definition _check_and_make_node (key : string) (val : Point2D)
    (exterior : option bool) : M string :=
  g ← get;
  (if node_exists key g then mret tt
   else
     modify (set_num_nodes (num_nodes g + 1)) ;;
     g1 ← get;
     modify (set_directed_graph
               (<[key := mk_Node val (num_nodes g1 - 1) [] exterior]>
                  (_directed_graph g1)))) ;;
  mret key.

(** [node.adj_lst.append(self.node(adj_key))] *)
Definition append_adj (node adj_key : string) : M unit :=
  modify (λ g, set_directed_graph
                 (alter (with_adjacent adj_key) node (_directed_graph g)) g).

Fixpoint add_adj_loop (node : string) (adj_keys : gset string)
    (adj_val_lst : list Point2D) : M unit :=
  match adj_val_lst with
  | [] => mret tt
  | adj_val :: rest =>
      g ← get;
      let adj_key := _vector2hash adj_val (_tol g) in
      if bool_decide (adj_key ∈ adj_keys) then
        add_adj_loop node adj_keys rest
      else
        _check_and_make_node adj_key adj_val None ;;
        append_adj node adj_key ;;
        add_adj_loop node ({[adj_key]} ∪ adj_keys) rest
  end.

Definition add_adj (node : string) (adj_val_lst : list Point2D) : M unit :=
  n ← deref node;
  let adj_keys : gset string := {[node]} ∪ list_to_set (adj_lst n) in
  add_adj_loop node adj_keys adj_val_lst.

Definition remove_adj (node : string) (adj_key_lst : list string) : M unit :=
  n ← deref node;
  let keep := filter (λ k, k ∉ (list_to_set adj_key_lst : gset string))
                (adj_lst n) in
  modify (λ g, set_directed_graph
                 (alter (set_adj_lst keep) node (_directed_graph g)) g).

Definition add_node (val : Point2D) (adj_lst : list Point2D)
    (exterior : option bool) : M string :=
  g ← get;
  let key := _vector2hash val (_tol g) in
  node ← _check_and_make_node key val exterior;
  add_adj node adj_lst ;;
  (match exterior with
   | Some _ =>
       modify (λ g, set_directed_graph
                      (alter (set_exterior exterior) node
                         (_directed_graph g)) g)
   | None => mret tt
   end) ;;
  mret node.

Definition insert_node (node : string) (new_val : Point2D)
    (next_node : string) (exterior : option bool) : M string :=
  nn ← deref next_node;
  new_key ← add_node new_val [pt nn] exterior;
  nk ← deref new_key;
  add_adj node [pt nk] ;;
  if bool_decide (new_key = next_node) || bool_decide (new_key = node)
  then mret new_key
  else
    remove_adj node [next_node] ;;
    mret new_key.


(** [from_point_array] on a fresh graph ([cls()]): the loop over
    [range(len(point_array) - 1)] adds each point with its successor. *)
Fixpoint add_path (point_array : list Point2D) : M unit :=
  match point_array with
  | [] => mret tt
  | p :: rest =>
      match rest with
      | [] => mret tt
      | q :: _ => add_node p [q] (Some true) ;; add_path rest
      end
  end.

Definition from_point_array (point_array : list Point2D) (loop : bool)
    : result PolygonDirectedGraph :=
  let dg := __init__ default_tol in
  let '(r, dg) :=
    (add_path point_array ;;
     if loop then
       match last point_array, head point_array with
       | Some pl, Some p0 => add_node pl [p0] (Some true) ;; mret tt
       | _, _ => raise IndexError
       end
     else mret tt) dg in
  match r with
  | Return _ => Return dg
  | Raise e => Raise e
  end.

(** [from_polygon], on the polygon's vertices. *)
Definition from_polygon (vertices : list Point2D)
    : result PolygonDirectedGraph :=
  from_point_array vertices true.

(** [ordered_nodes]: the values of the dictionary, sorted by [_order]. *)
Definition ordered_nodes (g : PolygonDirectedGraph) : list string :=
  (sorted (λ a b : string * _Node, bool_decide (_order a.2 ≤ _order b.2)%nat)
     (map_to_list (_directed_graph g))).*1.

(** The property [root]. *)
Definition root : M string :=
  g ← get;
  match _root g with
  | Some r => mret r
  | None =>
      match ordered_nodes g with
      | r :: _ => modify (set_root (Some r)) ;; mret r
      | [] => raise IndexError
      end
  end.

(** [amtx[i][adj_idx] = 1] *)
Definition set_cell (amtx : list (list Z)) (i adj_idx : nat)
    : result (list (list Z)) :=
  match amtx !! i with
  | None => Raise IndexError
  | Some row =>
      if bool_decide (adj_idx < length row)%nat
      then Return (<[i := <[adj_idx := 1]> row]> amtx)
      else Raise IndexError
  end.

(** [[adj._order for adj in node.adj_lst]] *)
Fixpoint adj_orders (g : PolygonDirectedGraph) (adj : list string)
    : result (list nat) :=
  match adj with
  | [] => Return []
  | a :: rest =>
      match _directed_graph g !! a with
      | None => Raise AttributeError
      | Some n => os ← adj_orders g rest; Return (_order n :: os)
      end
  end.

Fixpoint fill_row (amtx : list (list Z)) (i : nat) (adj_indices : list nat)
    : result (list (list Z)) :=
  match adj_indices with
  | [] => Return amtx
  | adj_idx :: rest => amtx' ← set_cell amtx i adj_idx; fill_row amtx' i rest
  end.

Fixpoint fill_rows (g : PolygonDirectedGraph) (nodes : list string)
    (amtx : list (list Z)) (rows : list nat) : result (list (list Z)) :=
  match rows with
  | [] => Return amtx
  | i :: rest =>
      match nodes !! i with
      | None => Raise IndexError
      | Some node =>
          match _directed_graph g !! node with
          | None => Raise AttributeError
          | Some n =>
              adj_indices ← adj_orders g (adj_lst n);
              amtx' ← fill_row amtx i adj_indices;
              fill_rows g nodes amtx' rest
          end
      end
  end.

Definition adj_matrix (g : PolygonDirectedGraph) : result (list (list Z)) :=
  let nodes := ordered_nodes g in
  let amtx := replicate (num_nodes g) (replicate (num_nodes g) 0) in
  fill_rows g nodes amtx (seq 0 (num_nodes g)).

(** [adj_matrix_labels]: the index in [adj_matrix] of each node key. *)
Definition adj_matrix_labels (g : PolygonDirectedGraph) : gmap nat string :=
  list_to_map (imap (λ i node, (i, node)) (ordered_nodes g)).

(** [is_edge_bidirect] *)
Definition is_edge_bidirect (g : PolygonDirectedGraph) (node1 node2 : string)
    : result bool :=
  match _directed_graph g !! node2 with
  | None => Raise AttributeError
  | Some n2 =>
      if bool_decide (node1 ∈ adj_lst n2) then
        match _directed_graph g !! node1 with
        | None => Raise AttributeError
        | Some n1 => Return (bool_decide (node2 ∈ adj_lst n1))
        end
      else Return false
  end.

(** ** The exterior of the graph *)

(** The loop of [next_unidirect_node] over [node.adj_lst]. *)
Fixpoint next_unidirect_scan (g : PolygonDirectedGraph) (node : string)
    (adj : list string) : result (option string) :=
  match adj with
  | [] => Return None
  | next_node :: rest =>
      bidirect ← is_edge_bidirect g node next_node;
      if bidirect : bool then next_unidirect_scan g node rest
      else Return (Some next_node)
  end.

Definition next_unidirect_node (g : PolygonDirectedGraph) (node : string)
    : result (option string) :=
  match _directed_graph g !! node with
  | None => Raise AttributeError
  | Some n => next_unidirect_scan g node (adj_lst n)
  end.

(** The loop of [next_exterior_node] over [node.adj_lst]: a node with no
    flag is taken when the edge to it is not bidirectional, a node with
    the flag [True] is taken, a node with the flag [False] is passed. *)
Fixpoint next_exterior_scan (g : PolygonDirectedGraph) (node : string)
    (adj : list string) : result (option string) :=
  match adj with
  | [] => Return None
  | next_node :: rest =>
      match _directed_graph g !! next_node with
      | None => Raise AttributeError
      | Some nn =>
          match exterior nn with
          | None =>
              bidirect ← is_edge_bidirect g node next_node;
              if bidirect : bool then next_exterior_scan g node rest
              else Return (Some next_node)
          | Some true => Return (Some next_node)
          | Some false => next_exterior_scan g node rest
          end
      end
  end.

Definition next_exterior_node (g : PolygonDirectedGraph) (node : string)
    : result (option string) :=
  match _directed_graph g !! node with
  | None => Raise AttributeError
  | Some n => next_exterior_scan g node (adj_lst n)
  end.

(** The [while] loop of [exterior_cycle]; [None] is the loop that has not
    ended within [fuel] rounds. *)
Fixpoint exterior_cycle_loop (fuel : nat) (g : PolygonDirectedGraph)
    (cycle_root next_node : string) (ext_cycle : list string)
    : option (result (option (list string))) :=
  match fuel with
  | O => None
  | S fuel' =>
      if bool_decide (next_node = cycle_root)
      then Some (Return (Some ext_cycle))
      else
        match next_exterior_node g next_node with
        | Raise e => Some (Raise e)
        | Return None => Some (Return None)
        | Return (Some next_node') =>
            exterior_cycle_loop fuel' g cycle_root next_node'
              (ext_cycle ++ [next_node])
        end
  end.

(** [exterior_cycle]: the list of nodes, or [None] where the code returns
    [None]. *)
Definition exterior_cycle (fuel : nat) (g : PolygonDirectedGraph)
    (cycle_root : string) : option (result (option (list string))) :=
  match next_exterior_node g cycle_root with
  | Raise e => Some (Raise e)
  | Return None => Some (Return None)
  | Return (Some next_node) =>
      exterior_cycle_loop fuel g cycle_root next_node [cycle_root]
  end.

(** The [while] loop of [exterior_cycles], on [next_node],
    [exterior_poly] and [exterior_check]; the [next_node] that is [None]
    has no [key]. *)
Fixpoint exterior_poly_loop (fuel : nat) (g : PolygonDirectedGraph)
    (root_node : string) (next_node : option string)
    (exterior_poly : list string) (exterior_check : gset string)
    : option (result (list string * gset string)) :=
  match fuel with
  | O => None
  | S fuel' =>
      match next_node with
      | None => Some (Raise AttributeError)
      | Some nx =>
          if bool_decide (nx = root_node)
          then Some (Return (exterior_poly, exterior_check))
          else
            match next_exterior_node g nx with
            | Raise e => Some (Raise e)
            | Return next_node' =>
                exterior_poly_loop fuel' g root_node next_node'
                  (exterior_poly ++ [nx]) ({[nx]} ∪ exterior_check)
            end
      end
  end.

(** The loop of [exterior_cycles] over [self.ordered_nodes]; each [while]
    loop has [fuel] rounds. *)
Fixpoint exterior_cycles_loop (fuel : nat) (g : PolygonDirectedGraph)
    (nodes : list string) (exterior_poly_lst : list (list string))
    (exterior_check : gset string) : option (result (list (list string))) :=
  match nodes with
  | [] => Some (Return exterior_poly_lst)
  | root_node :: rest =>
      let exterior_check := {[root_node]} ∪ exterior_check in
      match next_exterior_node g root_node with
      | Raise e => Some (Raise e)
      | Return None =>
          exterior_cycles_loop fuel g rest exterior_poly_lst exterior_check
      | Return (Some nx) =>
          if bool_decide (nx ∈ exterior_check) then
            exterior_cycles_loop fuel g rest exterior_poly_lst exterior_check
          else
            match exterior_poly_loop fuel g root_node (Some nx) [root_node]
                    ({[nx]} ∪ exterior_check) with
            | None => None
            | Some (Raise e) => Some (Raise e)
            | Some (Return (exterior_poly, exterior_check)) =>
                exterior_cycles_loop fuel g rest
                  (exterior_poly_lst ++ [exterior_poly]) exterior_check
            end
      end
  end.

(** The property [exterior_cycles]. *)
Definition exterior_cycles (fuel : nat) (g : PolygonDirectedGraph)
    : option (result (list (list string))) :=
  exterior_cycles_loop fuel g (ordered_nodes g) [] ∅.

(** ** [min_ccw_cycle]

    The recursion is on [fuel]; [None] is the recursion that has not ended
    within [fuel] calls. *)

(** [cycle[-2]] *)
Definition index_neg2 (cycle : list string) : result string :=
  match rev cycle !! 1%nat with
  | Some c => Return c
  | None => Raise IndexError
  end.

(** The loop over [next_node.adj_lst], on [(min_theta, min_node)];
    [min_theta = None] is [float("inf")]. *)
Fixpoint min_ccw_scan (g : PolygonDirectedGraph) (cycle : list string)
    (edge_dir : Vector2D.t) (next_pt : Point2D) (adj : list string)
    (min_theta : option Q) (min_node : option string)
    : result (option string) :=
  match adj with
  | [] => Return min_node
  | adj_node :: rest =>
      prev ← index_neg2 cycle;
      if bool_decide (adj_node = prev) then
        min_ccw_scan g cycle edge_dir next_pt rest min_theta min_node
      else
        match _directed_graph g !! adj_node with
        | None => Raise AttributeError
        | Some an =>
            let next_edge_dir := Vector2D.sub (pt an) next_pt in
            let theta :=
              angle_clockwise edge_dir (Vector2D.scale next_edge_dir (-1)) in
            let smaller :=
              match min_theta with
              | None => true
              | Some m => negb (Qle_bool m theta)
              end in
            if smaller then
              min_ccw_scan g cycle edge_dir next_pt rest (Some theta)
                (Some adj_node)
            else
              min_ccw_scan g cycle edge_dir next_pt rest min_theta min_node
        end
  end.

(** [recurse_limit and count >= recurse_limit] *)
Definition limit_hit (recurse_limit : option Z) (count : Z) : bool :=
  match recurse_limit with
  | None => false
  | Some l => negb (bool_decide (l = 0)) && bool_decide (l ≤ count)
  end.

(** [cycle and (next_node.key == cycle[0].key)] *)
Definition loop_completed (cycle : option (list string))
    (next_node : option string) : result bool :=
  match cycle with
  | None | Some [] => Return false
  | Some (c0 :: _) =>
      match next_node with
      | None => Raise AttributeError
      | Some nx => Return (bool_decide (nx = c0))
      end
  end.

(** One call up to the recursive call: the extended cycle, the node that
    becomes [ref_node] and the chosen [min_node]. *)
Definition min_ccw_body (g : PolygonDirectedGraph) (ref_node : string)
    (next_node : option string) (cycle : option (list string))
    : result (list string * string * option string) :=
  let cycle := match cycle with None => [ref_node] | Some c => c end in
  match next_node with
  | None => Raise AttributeError
  | Some nx =>
      let cycle := cycle ++ [nx] in
      match _directed_graph g !! nx with
      | None => Raise AttributeError
      | Some nn =>
          match _directed_graph g !! ref_node with
          | None => Raise AttributeError
          | Some rn =>
              let edge_dir := Vector2D.sub (pt nn) (pt rn) in
              min_node ← min_ccw_scan g cycle edge_dir (pt nn) (adj_lst nn)
                           None None;
              Return (cycle, nx, min_node)
          end
      end
  end.

Fixpoint min_ccw_cycle (fuel : nat) (g : PolygonDirectedGraph)
    (ref_node : string) (next_node : option string)
    (cycle : option (list string)) (recurse_limit : option Z) (count : Z)
    : option (result (list string)) :=
  match fuel with
  | O => None
  | S fuel' =>
      if limit_hit recurse_limit count then Some (Raise RecursionError)
      else
        match loop_completed cycle next_node with
        | Raise e => Some (Raise e)
        | Return true => Some (Return (default [] cycle))
        | Return false =>
            match min_ccw_body g ref_node next_node cycle with
            | Raise e => Some (Raise e)
            | Return (cycle', ref', min_node) =>
                min_ccw_cycle fuel' g ref' min_node (Some cycle')
                  recurse_limit (count + 1)
            end
        end
  end.

(** ** [smallest_closed_cycles] *)

(** What [smallest_closed_cycles] raises: an exception of a method that it
    calls, [UnboundLocalError] for [ext_nodes] when the loop over the nodes
    has not run, and [TypeError] for [ext_nodes[0]] when [ext_nodes] is
    [None]. *)
Inductive cycles_exn : Type :=
  | Raised (e : exn)
  | UnboundLocalError
  | TypeError.

(** The first loop: [ext_nodes] is unbound ([None]), or bound to [None] or
    to a list. *)
Fixpoint find_exterior_cycle (fuel : nat) (g : PolygonDirectedGraph)
    (nodes : list string) (ext_nodes : option (option (list string)))
    : option (result (option (option (list string)))) :=
  match nodes with
  | [] => Some (Return ext_nodes)
  | node :: rest =>
      match exterior_cycle fuel g node with
      | None => None
      | Some (Raise e) => Some (Raise e)
      | Some (Return (Some c)) => Some (Return (Some (Some c)))
      | Some (Return None) => find_exterior_cycle fuel g rest (Some None)
      end
  end.

(** The second loop, over [ext_nodes[:-1]] with [ext_nodes[i + 1]]. *)
Fixpoint min_cycles_loop (fuel : nat) (g : PolygonDirectedGraph)
    (ext_nodes : list string) (recurse_limit : option Z)
    (polygon_node_lst : list (list string))
    : option (result (list (list string))) :=
  match ext_nodes with
  | [] => Some (Return polygon_node_lst)
  | ext_node :: rest =>
      match rest with
      | [] => Some (Return polygon_node_lst)
      | next_node :: _ =>
          match min_ccw_cycle fuel g ext_node (Some next_node) None
                  recurse_limit 0 with
          | None => None
          | Some (Raise e) => Some (Raise e)
          | Some (Return cycle) =>
              min_cycles_loop fuel g rest recurse_limit
                (polygon_node_lst ++ [cycle])
          end
      end
  end.

(** [smallest_closed_cycles]; every loop and every call of
    [min_ccw_cycle] has [fuel] rounds, and [None] is the call in which one
    of them has not ended. *)
Definition smallest_closed_cycles (fuel : nat) (g : PolygonDirectedGraph)
    (recurse_limit : option Z)
    : option (cycles_exn + list (list string)) :=
  match find_exterior_cycle fuel g (ordered_nodes g) None with
  | None => None
  | Some (Raise e) => Some (inl (Raised e))
  | Some (Return None) => Some (inl UnboundLocalError)
  | Some (Return (Some None)) => Some (inl TypeError)
  | Some (Return (Some (Some ext_nodes))) =>
      match head ext_nodes with
      | None => Some (inl (Raised IndexError))
      | Some first =>
          match min_cycles_loop fuel g (ext_nodes ++ [first]) recurse_limit
                  [] with
          | None => None
          | Some (Raise e) => Some (inl (Raised e))
          | Some (Return polygon_node_lst) => Some (inr polygon_node_lst)
          end
      end
  end.

(** ** [intersect_graph_with_segment] *)

(** The loop over [self.ordered_nodes], a list made before the loop. *)
Fixpoint scan_edges (segment : LineSegment2D.t) (nodes : list string)
    (int_key_lst : list string) : M (list string) :=
  match nodes with
  | [] => mret int_key_lst
  | node :: rest =>
      n ← deref node;
      match adj_lst n with
      | [] => raise IndexError
      | next_node :: _ =>
          nn ← deref next_node;
          let trim_seg := LineSegment2D.from_end_points (pt n) (pt nn) in
          match intersect_line2d_infinite trim_seg segment with
          | None => scan_edges segment rest int_key_lst
          | Some int_pt =>
              if point_bool int_pt then
                int_key ← insert_node node int_pt next_node (Some false);
                scan_edges segment rest (int_key_lst ++ [int_key])
              else scan_edges segment rest int_key_lst
          end
      end
  end.

(** The two [add_node] calls that join [n1] and [n2] in both directions. *)
Definition connect_pair (k1 k2 : string) : M unit :=
  n1 ← deref k1;
  n2 ← deref k2;
  add_node (pt n1) [pt n2] (Some false) ;;
  n2 ← deref k2;
  n1 ← deref k1;
  add_node (pt n2) [pt n1] (Some false) ;;
  mret tt.

(** The loop over [enumerate(int_key_lst[1:])]. *)
Fixpoint measure_loop (n : _Node) (i : nat) (keys : list string)
    (distances : list (nat * Q)) : M (list (nat * Q)) :=
  match keys with
  | [] => mret distances
  | k :: rest =>
      nk ← deref k;
      let distance :=
        segment_length (LineSegment2D.from_end_points (pt n) (pt nk)) in
      measure_loop n (S i) rest (distances ++ [((i + 1)%nat, distance)])
  end.

(** [int_key_lst[k]] *)
Definition index_key (int_key_lst : list string) (k : nat) : M string :=
  match int_key_lst !! k with
  | Some key => mret key
  | None => raise IndexError
  end.

(** The loop over [range(len(distances) - 1)]. *)
Fixpoint chain_loop (int_key_lst : list string) (distances : list (nat * Q))
    : M unit :=
  match distances with
  | [] => mret tt
  | d1 :: rest =>
      match rest with
      | [] => mret tt
      | d2 :: _ =>
          key1 ← index_key int_key_lst d1.1;
          key2 ← index_key int_key_lst d2.1;
          connect_pair key1 key2 ;;
          chain_loop int_key_lst rest
      end
  end.

(** [sorted(distances, key=lambda t: t[1])] *)
Definition sort_distances (distances : list (nat * Q)) : list (nat * Q) :=
  sorted (λ a b : nat * Q, Qle_bool a.2 b.2) distances.

(** The part after the loop over the nodes. *)
Definition add_intersection_edges (int_key_lst : list string) : M unit :=
  match int_key_lst with
  | [k1; k2] => connect_pair k1 k2
  | k0 :: (_ :: _ :: _) as tail =>
      n ← deref k0;
      distances ← measure_loop n 0 tail [(0%nat, 0%Q)];
      chain_loop int_key_lst (sort_distances distances)
  | _ => mret tt
  end.

Definition intersect_graph_with_segment (segment : LineSegment2D.t)
    : M unit :=
  g ← get;
  int_key_lst ← scan_edges segment (ordered_nodes g) [];
  add_intersection_edges int_key_lst.

(** ** Sequences of calls on one graph *)

Inductive call : Type :=
  | Call_add_node (val : Point2D) (adj_lst : list Point2D)
      (exterior : option bool)
  | Call_insert_node (node : string) (new_val : Point2D) (next_node : string)
      (exterior : option bool)
  | Call_remove_adj (node : string) (adj_key_lst : list string)
  | Call_intersect_graph_with_segment (segment : LineSegment2D.t).

Definition run_call (c : call) : M unit :=
  match c with
  | Call_add_node val adj_lst exterior =>
      add_node val adj_lst exterior ;; mret tt
  | Call_insert_node node new_val next_node exterior =>
      insert_node node new_val next_node exterior ;; mret tt
  | Call_remove_adj node adj_key_lst => remove_adj node adj_key_lst
  | Call_intersect_graph_with_segment segment =>
      intersect_graph_with_segment segment
  end.

(** The graph after the calls, one after the other; a call that raises
    leaves the graph as it was at the exception, and the caller goes on. *)
Fixpoint run_calls (cs : list call) (g : PolygonDirectedGraph)
    : PolygonDirectedGraph :=
  match cs with
  | [] => g
  | c :: rest => run_calls rest (exec (run_call c) g)
  end.

(** ** Predicates on graphs *)

(** [v] is in the adjacency list of [u]. *)
Definition has_edge (g : PolygonDirectedGraph) (u v : string) : Prop :=
  ∃ n, _directed_graph g !! u = Some n ∧ v ∈ adj_lst n.

(** Every node is stored under the hash of its point. *)
Definition keys_hashed (g : PolygonDirectedGraph) : Prop :=
  ∀ k n, _directed_graph g !! k = Some n → _vector2hash (pt n) (_tol g) = k.

(** Adjacency lists refer to nodes of the graph. *)
Definition adj_closed (g : PolygonDirectedGraph) : Prop :=
  ∀ k n a, _directed_graph g !! k = Some n → a ∈ adj_lst n →
    is_Some (_directed_graph g !! a).

(** No node is in its own adjacency list, and no adjacency list repeats a
    key. *)
Definition no_loops_no_repeats (g : PolygonDirectedGraph) : Prop :=
  ∀ k n, _directed_graph g !! k = Some n →
    (k ∉ adj_lst n) ∧ NoDup (adj_lst n).

(** Every node has an adjacency. *)
Definition all_adjacent (g : PolygonDirectedGraph) : Prop :=
  ∀ k n, _directed_graph g !! k = Some n → adj_lst n ≠ [].

(** The two conditions that the methods establish and rely on. *)
Definition sound (g : PolygonDirectedGraph) : Prop :=
  keys_hashed g ∧ adj_closed g.

(** [u] and [v] are in each other's adjacency list. *)
Definition joined (g : PolygonDirectedGraph) (u v : string) : Prop :=
  has_edge g u v ∧ has_edge g v u.

(** [u] and [v] are next to each other in [l], in either order. *)
Definition adjacent_in (l : list string) (u v : string) : Prop :=
  ∃ i, (l !! i = Some u ∧ l !! S i = Some v) ∨
       (l !! i = Some v ∧ l !! S i = Some u).

(** The length that [intersect_graph_with_segment] takes between the
    nodes [k0] and [k]. *)
Definition distance_from (g : PolygonDirectedGraph) (k0 k : string) : Q :=
  match _directed_graph g !! k0, _directed_graph g !! k with
  | Some n0, Some nk =>
      segment_length (LineSegment2D.from_end_points (pt n0) (pt nk))
  | _, _ => 0%Q
  end.

Fixpoint measures (g : PolygonDirectedGraph) (k0 : string) (i : nat)
    (keys : list string) : list (nat * Q) :=
  match keys with
  | [] => []
  | k :: rest => (S i, distance_from g k0 k) :: measures g k0 (S i) rest
  end.

(** The list [distances] before it is sorted: the index of each key of
    [int_key_lst] with its distance from the first one. *)
Definition distances_of (g : PolygonDirectedGraph) (int_key_lst : list string)
    : list (nat * Q) :=
  match int_key_lst with
  | [] => []
  | k0 :: tail => (0%nat, 0%Q) :: measures g k0 0 tail
  end.

(** The keys at the indices of [distances]. *)
Definition keys_at (int_key_lst : list string) (distances : list (nat * Q))
    : list string :=
  omap (λ d : nat * Q, int_key_lst !! d.1) distances.

(** The order in which the intersection nodes are joined, each to the
    next. *)
Definition connection_order (g : PolygonDirectedGraph)
    (int_key_lst : list string) : list string :=
  match int_key_lst with
  | [k1; k2] => [k1; k2]
  | _ :: _ :: _ :: _ =>
      keys_at int_key_lst (sort_distances (distances_of g int_key_lst))
  | _ => []
  end.

(** The adjacency matrix of one directed cycle through [n] nodes: row [i]
    has its 1 in column [i + 1], and the last row in column 0. *)
Definition cycle_matrix (n : nat) : list (list Z) :=
  (λ i, <[(S i `mod` n)%nat := 1]> (replicate n 0)) <$> seq 0 n.

(** [cycle_matrix n] when only the first [s] rows are filled. *)
Definition partial_cycle_matrix (n s : nat) : list (list Z) :=
  (λ i, if bool_decide (i < s)%nat
        then <[(S i `mod` n)%nat := 1]> (replicate n 0)
        else replicate n 0) <$> seq 0 n.

(** The nodes that a closed loop of points gives: the point at index [i],
    with order [i] and the next point of the loop as its adjacency. *)
Definition loop_nodes (tol : Q) (pts : list Point2D)
    : list (string * _Node) :=
  imap (λ i p,
          (_vector2hash p tol,
           mk_Node p i
             (match pts !! (S i `mod` length pts)%nat with
              | Some q => [_vector2hash q tol]
              | None => []
              end)
             (Some true))) pts.

(** [g'] has the nodes of [g], with their points and orders. *)
Definition extends (g g' : PolygonDirectedGraph) : Prop :=
  _tol g' = _tol g ∧ (num_nodes g ≤ num_nodes g')%nat ∧
  ∀ k n, _directed_graph g !! k = Some n →
    ∃ n', _directed_graph g' !! k = Some n' ∧ pt n' = pt n ∧
          _order n' = _order n.

(** A computation relates the graph it is given to the graph it leaves,
    however it ends. *)
Definition always {A} (R : relation PolygonDirectedGraph) (c : M A) : Prop :=
  ∀ g, R g (exec c g).

(** An invariant, as a relation. *)
Definition keeps (P : PolygonDirectedGraph → Prop)
    : relation PolygonDirectedGraph :=
  λ g g', P g → P g'.

(** The nodes are numbered as they are made: [num_nodes] counts the nodes,
    and the orders are different numbers below [num_nodes]. *)
Definition numbered (g : PolygonDirectedGraph) : Prop :=
  size (_directed_graph g) = num_nodes g ∧
  (∀ k n, _directed_graph g !! k = Some n → (_order n < num_nodes g)%nat) ∧
  (∀ k1 n1 k2 n2,
     _directed_graph g !! k1 = Some n1 → _directed_graph g !! k2 = Some n2 →
     _order n1 = _order n2 → k1 = k2).

(** [amtx[i][j]] *)
Definition cell (amtx : list (list Z)) (i j : nat) : option Z :=
  row ← amtx !! i; row !! j.

(** An [n] by [n] matrix. *)
Definition square_matrix (n : nat) (amtx : list (list Z)) : Prop :=
  length amtx = n ∧ ∀ i row, amtx !! i = Some row → length row = n.

(** The nodes of [l] form one directed cycle of exterior edges: each has
    the flag [True] and one adjacency, the next node of [l], which for the
    last node is the first. *)
Definition ring (g : PolygonDirectedGraph) (l : list string) : Prop :=
  NoDup l ∧
  ∀ j k k', l !! j = Some k → l !! (S j `mod` length l)%nat = Some k' →
    ∃ n, _directed_graph g !! k = Some n ∧ adj_lst n = [k'] ∧
         exterior n = Some true.

(** The items of the dictionary in the order of [ordered_nodes]. *)
Definition ordered_items (g : PolygonDirectedGraph)
    : list (string * _Node) :=
  sorted (λ a b : string * _Node, bool_decide (_order a.2 ≤ _order b.2)%nat)
    (map_to_list (_directed_graph g)).

(** The consecutive pairs of [l] are edges of [g]. *)
Definition path_in (g : PolygonDirectedGraph) (l : list string) : Prop :=
  ∀ i u v, l !! i = Some u → l !! S i = Some v → has_edge g u v.

(** No node of [l] is followed, two places on, by itself. *)
Definition no_backtrack (l : list string) : Prop :=
  ∀ i u v, l !! i = Some u → l !! S (S i) = Some v → u ≠ v.

(** The edge from [node] to [a] counts as exterior: [a] has the flag
    [True], or it has no flag and [node] is not in its adjacency list. *)
Definition exterior_step (g : PolygonDirectedGraph) (node a : string)
    : Prop :=
  ∃ na, _directed_graph g !! a = Some na ∧
        (exterior na = Some true ∨
         (exterior na = None ∧ node ∉ adj_lst na)).

(** ** The monad *)

(** Case analysis on a [bool_decide] of the goal, leaving the context as
    it is. *)
Tactic Notation "goal_decide" "as" ident(H) :=
  match goal with
  | |- context [bool_decide ?P] =>
      destruct (decide P) as [H|H];
      [ rewrite (bool_decide_eq_true_2 P H)
      | rewrite (bool_decide_eq_false_2 P H) ]
  end.
Tactic Notation "goal_decide" := let H := fresh "Hdec" in goal_decide as H.

(** Apply a rule of [always] and find its preorder. *)
Tactic Notation "rule" constr(l) := (apply l; try apply _).

Ltac munfold :=
  unfold exec, eval, mbind, M_bind, bind, mret, M_ret, ret, get, modify,
    raise, deref in *.

Lemma exec_bind {A B} (c : M A) (k : A → M B) g :
  exec (c ≫= k) g
  = match c g with
    | (Return a, g') => exec (k a) g'
    | (Raise _, g') => g'
    end.
Proof. munfold. by destruct (c g) as [[a|e] g']. Qed.

Lemma eval_bind {A B} (c : M A) (k : A → M B) g :
  eval (c ≫= k) g
  = match c g with
    | (Return a, g') => eval (k a) g'
    | (Raise e, _) => Raise e
    end.
Proof. munfold. by destruct (c g) as [[a|e] g']. Qed.

Lemma run_eq {A} (c : M A) g : c g = (eval c g, exec c g).
Proof. munfold. by destruct (c g). Qed.

Lemma exec_bind_Return {A B} (c : M A) (k : A → M B) g a :
  eval c g = Return a → exec (c ≫= k) g = exec (k a) (exec c g).
Proof. munfold. destruct (c g) as [[a'|e] g']; simpl; congruence. Qed.

Lemma eval_bind_Return {A B} (c : M A) (k : A → M B) g a :
  eval c g = Return a → eval (c ≫= k) g = eval (k a) (exec c g).
Proof. munfold. destruct (c g) as [[a'|e] g']; simpl; congruence. Qed.

Lemma exec_bind_Raise {A B} (c : M A) (k : A → M B) g e :
  eval c g = Raise e → exec (c ≫= k) g = exec c g.
Proof. munfold. destruct (c g) as [[a'|e'] g']; simpl; congruence. Qed.

Lemma eval_bind_Raise {A B} (c : M A) (k : A → M B) g e :
  eval c g = Raise e → eval (c ≫= k) g = Raise e.
Proof. munfold. destruct (c g) as [[a'|e'] g']; simpl; congruence. Qed.

Lemma bind_Return {A B} (c : M A) (k : A → M B) g a g' :
  c g = (Return a, g') → (c ≫= k) g = k a g'.
Proof. munfold. by intros ->. Qed.

Lemma bind_Raise {A B} (c : M A) (k : A → M B) g e g' :
  c g = (Raise e, g') → (c ≫= k) g = (Raise e, g').
Proof. munfold. by intros ->. Qed.

#[local] Instance keeps_preorder P : PreOrder (keeps P).
Proof.
  split; unfold keeps; [by intros g | intros g1 g2 g3 H12 H23 H].
  by apply H23, H12.
Qed.

#[local] Instance extends_preorder : PreOrder extends.
Proof.
  split.
  - intros g. split_and!; [done | lia |]. intros k n H; eauto.
  - intros g1 g2 g3 (T1 & N1 & H1) (T2 & N2 & H2).
    split_and!; [congruence | lia |].
    intros k n H. destruct (H1 _ _ H) as (n' & L' & P' & O').
    destruct (H2 _ _ L') as (n'' & L'' & P'' & O'').
    exists n''. split_and!; congruence.
Qed.

Section always.
Context (R : relation PolygonDirectedGraph) `{!PreOrder R}.

Lemma always_ret {A} (a : A) : always R (mret a).
Proof. intros g. munfold. simpl. reflexivity. Qed.

Lemma always_raise {A} e : always R (raise (A := A) e).
Proof. intros g. munfold. simpl. reflexivity. Qed.

Lemma always_deref k : always R (deref k).
Proof.
  intros g. munfold. destruct (_directed_graph g !! k); simpl; reflexivity.
Qed.

Lemma rel_bind {A B} (c : M A) (k : A → M B) g :
  R g (exec c g) → (∀ a, always R (k a)) → R g (exec (c ≫= k) g).
Proof.
  intros Hc Hk. rewrite exec_bind. unfold exec in Hc.
  destruct (c g) as [[a|e] g']; simpl in Hc; [|done].
  etrans; [exact Hc | apply Hk].
Qed.

Lemma always_bind {A B} (c : M A) (k : A → M B) :
  always R c → (∀ a, always R (k a)) → always R (c ≫= k).
Proof. intros Hc Hk g. apply rel_bind; [apply Hc | done]. Qed.

(** A step that reads the graph first. *)
Lemma always_get {B} (k : PolygonDirectedGraph → M B) :
  (∀ g, R g (exec (k g) g)) → always R (get ≫= k).
Proof. intros H g. rewrite exec_bind. munfold. apply H. Qed.

Lemma always_modify f : (∀ g, R g (f g)) → always R (modify f).
Proof. intros H g. munfold. simpl. apply H. Qed.
End always.

(** ** Nodes are kept *)

Lemma cmn_run key val ext g :
  _check_and_make_node key val ext g
  = (Return key,
     if node_exists key g then g
     else mkGraph
            (<[key := mk_Node val (num_nodes g) [] ext]> (_directed_graph g))
            (_root g) (_tol g) (S (num_nodes g))).
Proof.
  unfold _check_and_make_node. munfold.
  destruct (node_exists key g); simpl; [done|].
  unfold set_directed_graph, set_num_nodes; simpl.
  repeat f_equal; lia.
Qed.

Lemma cmn_eval key val ext g :
  eval (_check_and_make_node key val ext) g = Return key.
Proof. unfold eval. by rewrite cmn_run. Qed.

Lemma cmn_exec key val ext g :
  exec (_check_and_make_node key val ext) g
  = if node_exists key g then g
    else mkGraph
           (<[key := mk_Node val (num_nodes g) [] ext]> (_directed_graph g))
           (_root g) (_tol g) (S (num_nodes g)).
Proof. unfold exec. by rewrite cmn_run. Qed.

Lemma node_exists_true key g :
  node_exists key g = true ↔ is_Some (_directed_graph g !! key).
Proof.
  unfold node_exists. rewrite bool_decide_eq_true. apply elem_of_dom.
Qed.

Lemma node_exists_false key g :
  node_exists key g = false ↔ _directed_graph g !! key = None.
Proof.
  unfold node_exists. rewrite bool_decide_eq_false.
  by rewrite not_elem_of_dom.
Qed.

Lemma extends_alter f k g :
  (∀ n, pt (f n) = pt n ∧ _order (f n) = _order n) →
  extends g (set_directed_graph (alter f k (_directed_graph g)) g).
Proof.
  intros Hf. split_and!; [done | done |]. simpl. intros k' n H.
  destruct (decide (k = k')) as [->|Hne].
  - exists (f n). rewrite lookup_alter_eq, H. simpl.
    destruct (Hf n). done.
  - exists n. by rewrite lookup_alter_ne.
Qed.

Lemma cmn_extends key val ext : always extends (_check_and_make_node key val ext).
Proof.
  intros g. unfold exec. rewrite cmn_run. simpl.
  destruct (node_exists key g) eqn:E; [reflexivity|].
  apply node_exists_false in E.
  split_and!; simpl; [done | lia |].
  intros k n H. exists n. split; [|done].
  rewrite lookup_insert_ne; [done|]. congruence.
Qed.

Lemma append_adj_extends node k : always extends (append_adj node k).
Proof. rule always_modify. intros g. by apply extends_alter. Qed.

Lemma add_adj_loop_extends vals :
  ∀ node keys, always extends (add_adj_loop node keys vals).
Proof.
  induction vals as [|v vals IH]; intros node keys; simpl.
  - rule always_ret.
  - rule always_get. intros g.
    case_bool_decide; [apply IH|].
    rule rel_bind; [apply cmn_extends | intros _].
    rule always_bind; [apply append_adj_extends | intros _].
    apply IH.
Qed.

Lemma add_adj_extends node vals : always extends (add_adj node vals).
Proof.
  rule always_bind; [rule always_deref | intros n].
  apply add_adj_loop_extends.
Qed.

Lemma remove_adj_extends node ks : always extends (remove_adj node ks).
Proof.
  rule always_bind; [rule always_deref | intros n].
  rule always_modify. intros g. by apply extends_alter.
Qed.

Lemma add_node_extends val adj ext : always extends (add_node val adj ext).
Proof.
  rule always_get. intros g.
  rule rel_bind; [apply cmn_extends | intros node].
  rule always_bind; [apply add_adj_extends | intros _].
  rule always_bind; [|intros _; rule always_ret].
  destruct ext; [|rule always_ret].
  rule always_modify. intros g'. by apply extends_alter.
Qed.

Lemma insert_node_extends node new_val next_node ext :
  always extends (insert_node node new_val next_node ext).
Proof.
  rule always_bind; [rule always_deref | intros nn].
  rule always_bind; [apply add_node_extends | intros new_key].
  rule always_bind; [rule always_deref | intros nk].
  rule always_bind; [apply add_adj_extends | intros _].
  destruct (_ || _); [rule always_ret|].
  rule always_bind; [apply remove_adj_extends | intros _; rule always_ret].
Qed.

Lemma scan_edges_extends segment nodes :
  ∀ ks, always extends (scan_edges segment nodes ks).
Proof.
  induction nodes as [|node nodes IH]; intros ks; simpl; [rule always_ret|].
  rule always_bind; [rule always_deref | intros n].
  destruct (adj_lst n) as [|next_node ?]; [rule always_raise|].
  rule always_bind; [rule always_deref | intros nn].
  destruct (intersect_line2d_infinite _ _) as [int_pt|]; [|apply IH].
  destruct (point_bool int_pt); [|apply IH].
  rule always_bind; [apply insert_node_extends | intros k; apply IH].
Qed.

Lemma connect_pair_extends k1 k2 : always extends (connect_pair k1 k2).
Proof.
  rule always_bind; [rule always_deref | intros n1].
  rule always_bind; [rule always_deref | intros n2].
  rule always_bind; [apply add_node_extends | intros _].
  rule always_bind; [rule always_deref | intros n2'].
  rule always_bind; [rule always_deref | intros n1'].
  rule always_bind; [apply add_node_extends | intros _; rule always_ret].
Qed.

Lemma measure_loop_same n keys :
  ∀ i ds g, exec (measure_loop n i keys ds) g = g.
Proof.
  induction keys as [|k keys IH]; intros i ds g; simpl; [done|].
  rewrite exec_bind. unfold deref.
  destruct (_directed_graph g !! k); [apply IH | done].
Qed.

Lemma chain_loop_extends ks ds : always extends (chain_loop ks ds).
Proof.
  induction ds as [|d1 ds IH]; simpl; [rule always_ret|].
  destruct ds as [|d2 ds]; [rule always_ret|].
  unfold index_key.
  rule always_bind; [destruct (ks !! _); [rule always_ret | rule always_raise]|].
  intros key1.
  rule always_bind; [destruct (ks !! _); [rule always_ret | rule always_raise]|].
  intros key2.
  rule always_bind; [apply connect_pair_extends | intros _; apply IH].
Qed.

Lemma add_intersection_edges_extends ks :
  always extends (add_intersection_edges ks).
Proof.
  unfold add_intersection_edges.
  destruct ks as [|k0 [|k1 [|k2 ks]]];
    [rule always_ret | rule always_ret | apply connect_pair_extends |].
  rule always_bind; [rule always_deref | intros n].
  rule always_bind; [|intros ds; apply chain_loop_extends].
  intros g. rewrite measure_loop_same. reflexivity.
Qed.

Lemma intersect_extends segment :
  always extends (intersect_graph_with_segment segment).
Proof.
  rule always_get. intros g.
  rule rel_bind; [apply scan_edges_extends | intros ks].
  apply add_intersection_edges_extends.
Qed.

Lemma run_call_extends c : always extends (run_call c).
Proof.
  destruct c; simpl.
  - rule always_bind; [apply add_node_extends | intros _; rule always_ret].
  - rule always_bind; [apply insert_node_extends | intros _; rule always_ret].
  - apply remove_adj_extends.
  - apply intersect_extends.
Qed.

Lemma run_calls_extends cs : ∀ g, extends g (run_calls cs g).
Proof.
  induction cs as [|c cs IH]; intros g; simpl; [reflexivity|].
  etrans; [apply run_call_extends | apply IH].
Qed.

(** ** What the calls return *)

Lemma deref_Some k n g :
  _directed_graph g !! k = Some n → deref k g = (Return n, g).
Proof. unfold deref. by intros ->. Qed.

Lemma deref_None k g :
  _directed_graph g !! k = None → deref k g = (Raise AttributeError, g).
Proof. unfold deref. by intros ->. Qed.

Lemma add_adj_loop_run vals :
  ∀ node keys g,
    add_adj_loop node keys vals g
    = (Return tt, exec (add_adj_loop node keys vals) g).
Proof.
  intros node keys g. rewrite run_eq. f_equal.
  revert node keys g.
  induction vals as [|v vals IH]; intros node keys g; [done|].
  simpl. rewrite eval_bind. unfold get.
  case_bool_decide; [apply IH|].
  rewrite (eval_bind_Return _ _ _ _ (cmn_eval _ _ _ _)).
  rewrite (eval_bind_Return _ _ _ tt) by done. apply IH.
Qed.

Lemma add_adj_loop_cons node keys v vals g :
  exec (add_adj_loop node keys (v :: vals)) g
  = let k := _vector2hash v (_tol g) in
    if bool_decide (k ∈ keys) then exec (add_adj_loop node keys vals) g
    else exec (add_adj_loop node ({[k]} ∪ keys) vals)
           (exec (append_adj node k)
              (exec (_check_and_make_node k v None) g)).
Proof.
  simpl. rewrite exec_bind. unfold get.
  case_bool_decide; [done|].
  rewrite (exec_bind_Return _ _ _ _ (cmn_eval _ _ _ _)).
  by rewrite (exec_bind_Return _ _ _ tt).
Qed.

Lemma no_loops_alter f k g :
  (∀ n, _directed_graph g !! k = Some n →
     (k ∉ adj_lst n) → NoDup (adj_lst n) →
     (k ∉ adj_lst (f n)) ∧ NoDup (adj_lst (f n))) →
  no_loops_no_repeats g →
  no_loops_no_repeats
    (set_directed_graph (alter f k (_directed_graph g)) g).
Proof.
  intros Hf Hg k' n'. simpl. destruct (decide (k = k')) as [<-|Hne].
  - rewrite lookup_alter_eq. destruct (_directed_graph g !! k) as [n|] eqn:E;
      simpl; [|done].
    intros [= <-]. destruct (Hg _ _ E). by apply Hf.
  - rewrite lookup_alter_ne by done. apply Hg.
Qed.

Lemma cmn_no_loops key val ext :
  always (keeps no_loops_no_repeats) (_check_and_make_node key val ext).
Proof.
  intros g Hg. unfold exec. rewrite cmn_run. simpl.
  destruct (node_exists key g); [done|].
  intros k n. simpl. destruct (decide (key = k)) as [<-|Hne].
  - rewrite lookup_insert_eq. intros [= <-]. simpl.
    split; [apply not_elem_of_nil | constructor].
  - rewrite lookup_insert_ne by done. apply Hg.
Qed.

Lemma add_adj_loop_no_loops vals :
  ∀ node keys g,
    no_loops_no_repeats g →
    is_Some (_directed_graph g !! node) →
    (∀ n, _directed_graph g !! node = Some n →
       node ∈ keys ∧ ∀ a, a ∈ adj_lst n → a ∈ keys) →
    no_loops_no_repeats (exec (add_adj_loop node keys vals) g).
Proof.
  induction vals as [|v vals IH]; intros node keys g Hg [n Hn] Hkeys; [done|].
  rewrite add_adj_loop_cons. simpl.
  case_bool_decide as Hk; [by apply IH; eauto|].
  destruct (Hkeys _ Hn) as [Hnode Hadj].
  set (k := _vector2hash v (_tol g)) in *.
  assert (k ≠ node) as Hne by congruence.
  set (g1 := exec (_check_and_make_node k v None) g).
  assert (_directed_graph g1 !! node = Some n) as Hn1.
  { unfold g1, exec. rewrite cmn_run. simpl.
    destruct (node_exists k g); [done|]. simpl.
    by rewrite lookup_insert_ne. }
  apply IH.
  - unfold append_adj. munfold. simpl.
    apply no_loops_alter; [|by apply cmn_no_loops].
    intros n' Hn' Hself Hdup. simpl. rewrite Hn1 in Hn'. injection Hn' as <-.
    split.
    + rewrite elem_of_app, list_elem_of_singleton.
      intros [?| ->]; [done | congruence].
    + apply NoDup_app. split_and!; [done | | apply NoDup_singleton].
      intros a Ha ->%list_elem_of_singleton. apply Hk. by apply Hadj.
  - unfold append_adj. munfold. simpl. rewrite lookup_alter_eq.
    fold g1. rewrite Hn1. eauto.
  - unfold append_adj. munfold. simpl. rewrite lookup_alter_eq.
    fold g1. rewrite Hn1. simpl. intros n' [= <-]. simpl. split.
    + by apply elem_of_union_r.
    + intros a. rewrite elem_of_app, list_elem_of_singleton.
      intros [Ha | ->];
        [apply elem_of_union_r; by apply Hadj
        | apply elem_of_union_l; by apply elem_of_singleton].
Qed.

Lemma add_adj_run node n vals g :
  _directed_graph g !! node = Some n →
  add_adj node vals g
  = (Return tt,
     exec (add_adj_loop node ({[node]} ∪ list_to_set (adj_lst n)) vals) g).
Proof.
  intros Hn. unfold add_adj.
  rewrite (bind_Return _ _ _ _ _ (deref_Some _ _ _ Hn)).
  apply add_adj_loop_run.
Qed.

Lemma add_adj_exec node n vals g :
  _directed_graph g !! node = Some n →
  exec (add_adj node vals) g
  = exec (add_adj_loop node ({[node]} ∪ list_to_set (adj_lst n)) vals) g.
Proof. intros Hn. unfold exec at 1. by rewrite (add_adj_run _ _ _ _ Hn). Qed.

Lemma add_adj_None node vals g :
  _directed_graph g !! node = None →
  add_adj node vals g = (Raise AttributeError, g).
Proof.
  intros Hn. unfold add_adj. by rewrite (bind_Raise _ _ _ _ _ (deref_None _ _ Hn)).
Qed.

Lemma remove_adj_run node n ks g :
  _directed_graph g !! node = Some n →
  remove_adj node ks g
  = (Return tt,
     set_directed_graph
       (alter (set_adj_lst
                 (filter (λ k, k ∉ (list_to_set ks : gset string))
                    (adj_lst n)))
          node (_directed_graph g)) g).
Proof.
  intros Hn. unfold remove_adj.
  by rewrite (bind_Return _ _ _ _ _ (deref_Some _ _ _ Hn)).
Qed.

Lemma remove_adj_None node ks g :
  _directed_graph g !! node = None →
  remove_adj node ks g = (Raise AttributeError, g).
Proof.
  intros Hn. unfold remove_adj.
  by rewrite (bind_Raise _ _ _ _ _ (deref_None _ _ Hn)).
Qed.

Lemma add_adj_no_loops node vals :
  always (keeps no_loops_no_repeats) (add_adj node vals).
Proof.
  intros g Hg. unfold exec.
  destruct (_directed_graph g !! node) as [n|] eqn:E;
    [|by rewrite add_adj_None].
  rewrite (add_adj_run _ _ _ _ E). simpl.
  apply add_adj_loop_no_loops; [done | eauto |].
  intros n'. rewrite E. intros [= <-].
  split; [apply elem_of_union_l, elem_of_singleton; done|]. intros a Ha.
  apply elem_of_union_r. by apply elem_of_list_to_set.
Qed.

Lemma remove_adj_no_loops node ks :
  always (keeps no_loops_no_repeats) (remove_adj node ks).
Proof.
  intros g Hg. unfold exec.
  destruct (_directed_graph g !! node) as [n|] eqn:E;
    [|by rewrite remove_adj_None].
  rewrite (remove_adj_run _ _ _ _ E). simpl.
  apply no_loops_alter; [|done].
  intros n'. rewrite E. intros [= <-] Hself Hdup. simpl. split.
  - rewrite list_elem_of_filter. ptauto.
  - by apply NoDup_filter.
Qed.

Lemma add_node_no_loops val adj ext :
  always (keeps no_loops_no_repeats) (add_node val adj ext).
Proof.
  rule always_get. intros g.
  rule rel_bind; [apply cmn_no_loops | intros node].
  rule always_bind; [apply add_adj_no_loops | intros _].
  rule always_bind; [|intros _; rule always_ret].
  destruct ext; [|rule always_ret].
  rule always_modify. intros g' Hg'. by apply no_loops_alter.
Qed.

Lemma insert_node_no_loops node new_val next_node ext :
  always (keeps no_loops_no_repeats) (insert_node node new_val next_node ext).
Proof.
  rule always_bind; [rule always_deref | intros nn].
  rule always_bind; [apply add_node_no_loops | intros new_key].
  rule always_bind; [rule always_deref | intros nk].
  rule always_bind; [apply add_adj_no_loops | intros _].
  destruct (_ || _); [rule always_ret|].
  rule always_bind; [apply remove_adj_no_loops | intros _; rule always_ret].
Qed.

Lemma scan_edges_no_loops segment nodes :
  ∀ ks, always (keeps no_loops_no_repeats) (scan_edges segment nodes ks).
Proof.
  induction nodes as [|node nodes IH]; intros ks; simpl; [rule always_ret|].
  rule always_bind; [rule always_deref | intros n].
  destruct (adj_lst n) as [|next_node ?]; [rule always_raise|].
  rule always_bind; [rule always_deref | intros nn].
  destruct (intersect_line2d_infinite _ _) as [int_pt|]; [|apply IH].
  destruct (point_bool int_pt); [|apply IH].
  rule always_bind; [apply insert_node_no_loops | intros k; apply IH].
Qed.

Lemma connect_pair_no_loops k1 k2 :
  always (keeps no_loops_no_repeats) (connect_pair k1 k2).
Proof.
  rule always_bind; [rule always_deref | intros n1].
  rule always_bind; [rule always_deref | intros n2].
  rule always_bind; [apply add_node_no_loops | intros _].
  rule always_bind; [rule always_deref | intros n2'].
  rule always_bind; [rule always_deref | intros n1'].
  rule always_bind; [apply add_node_no_loops | intros _; rule always_ret].
Qed.

Lemma chain_loop_no_loops ks ds :
  always (keeps no_loops_no_repeats) (chain_loop ks ds).
Proof.
  induction ds as [|d1 ds IH]; simpl; [rule always_ret|].
  destruct ds as [|d2 ds]; [rule always_ret|].
  unfold index_key.
  rule always_bind; [destruct (ks !! _); [rule always_ret | rule always_raise]|].
  intros key1.
  rule always_bind; [destruct (ks !! _); [rule always_ret | rule always_raise]|].
  intros key2.
  rule always_bind; [apply connect_pair_no_loops | intros _; apply IH].
Qed.

Lemma add_intersection_edges_no_loops ks :
  always (keeps no_loops_no_repeats) (add_intersection_edges ks).
Proof.
  unfold add_intersection_edges.
  destruct ks as [|k0 [|k1 [|k2 ks]]];
    [rule always_ret | rule always_ret | apply connect_pair_no_loops |].
  rule always_bind; [rule always_deref | intros n].
  rule always_bind; [|intros ds; apply chain_loop_no_loops].
  intros g. rewrite measure_loop_same. reflexivity.
Qed.

Lemma intersect_no_loops segment :
  always (keeps no_loops_no_repeats) (intersect_graph_with_segment segment).
Proof.
  rule always_get. intros g.
  rule rel_bind; [apply scan_edges_no_loops | intros ks].
  apply add_intersection_edges_no_loops.
Qed.

Lemma run_call_no_loops c : always (keeps no_loops_no_repeats) (run_call c).
Proof.
  destruct c; simpl.
  - rule always_bind; [apply add_node_no_loops | intros _; rule always_ret].
  - rule always_bind; [apply insert_node_no_loops | intros _; rule always_ret].
  - apply remove_adj_no_loops.
  - apply intersect_no_loops.
Qed.

Lemma run_calls_no_loops cs :
  ∀ g, no_loops_no_repeats g → no_loops_no_repeats (run_calls cs g).
Proof.
  induction cs as [|c cs IH]; intros g Hg; simpl; [done|].
  apply IH. by apply run_call_no_loops.
Qed.

(** ** [add_node], step by step *)

Lemma always_tol {A} (c : M A) g : always extends c → _tol (exec c g) = _tol g.
Proof. intros H. by destruct (H g) as (? & _). Qed.

Lemma append_adj_exec node k g :
  exec (append_adj node k) g
  = set_directed_graph
      (alter (with_adjacent k) node (_directed_graph g)) g.
Proof. done. Qed.

(** The node whose adjacency grows, after one new adjacency. *)
Lemma grow_lookup node n k v g :
  _directed_graph g !! node = Some n → k ≠ node →
  _directed_graph
    (exec (append_adj node k) (exec (_check_and_make_node k v None) g))
    !! node
  = Some (with_adjacent k n).
Proof.
  intros Hn Hne. rewrite append_adj_exec. simpl.
  rewrite lookup_alter_eq, cmn_exec.
  destruct (node_exists k g); simpl.
  - by rewrite Hn.
  - by rewrite lookup_insert_ne, Hn.
Qed.

Lemma grow_tol node k v g :
  _tol (exec (append_adj node k) (exec (_check_and_make_node k v None) g))
  = _tol g.
Proof.
  rewrite append_adj_exec, cmn_exec. simpl. by destruct (node_exists k g).
Qed.

Lemma add_adj_loop_covers vals :
  ∀ node keys g n,
    _directed_graph g !! node = Some n → node ∈ keys →
    ∃ n', _directed_graph (exec (add_adj_loop node keys vals) g) !! node
          = Some n' ∧
          exterior n' = exterior n ∧
          (∀ a, a ∈ adj_lst n → a ∈ adj_lst n') ∧
          (∀ v, v ∈ vals →
             _vector2hash v (_tol g) ∈ keys ∨
             _vector2hash v (_tol g) ∈ adj_lst n').
Proof.
  induction vals as [|v vals IH]; intros node keys g n Hn Hnode.
  - exists n. split_and!; [done | done | done |]. by intros v ?%elem_of_nil.
  - rewrite add_adj_loop_cons. simpl. case_bool_decide as Hk.
    + destruct (IH node keys g n Hn Hnode) as (n' & L & E & P & C).
      exists n'. split_and!; [done | done | done |].
      intros v' [->|Hv']%elem_of_cons; [by left | by apply C].
    + set (k := _vector2hash v (_tol g)) in *.
      assert (k ≠ node) as Hne by congruence.
      pose proof (grow_lookup node n k v g Hn Hne) as Hn2.
      destruct (IH node ({[k]} ∪ keys) _ _ Hn2) as (n' & L & E & P & C).
      { by apply elem_of_union_r. }
      exists n'. split_and!; [done | done | |].
      * intros a Ha. apply P. simpl. apply elem_of_app. by left.
      * assert (k ∈ adj_lst n') as Hkn'.
        { apply P. simpl. apply elem_of_app. right. by apply list_elem_of_singleton. }
        intros v' [->|Hv']%elem_of_cons; [by right|].
        destruct (C _ Hv') as [Hc|Hc]; rewrite grow_tol in Hc; [|by right].
        apply elem_of_union in Hc as [->%elem_of_singleton|Hc];
          [by right | by left].
Qed.

Lemma add_adj_loop_noop vals :
  ∀ node keys g,
    (∀ v, v ∈ vals → _vector2hash v (_tol g) ∈ keys) →
    exec (add_adj_loop node keys vals) g = g.
Proof.
  induction vals as [|v vals IH]; intros node keys g H; [done|].
  rewrite add_adj_loop_cons. simpl.
  rewrite bool_decide_eq_true_2 by (apply H; left).
  apply IH. intros v' Hv'. apply H. by right.
Qed.

Lemma cmn_lookup key val ext g :
  _directed_graph (exec (_check_and_make_node key val ext) g) !! key
  = Some (default (mk_Node val (num_nodes g) [] ext)
            (_directed_graph g !! key)).
Proof.
  rewrite cmn_exec. destruct (node_exists key g) eqn:E.
  - apply node_exists_true in E as [n E]. by rewrite E.
  - apply node_exists_false in E. rewrite E. simpl. apply lookup_insert_eq.
Qed.

Lemma cmn_lookup_ne key val ext g k :
  k ≠ key →
  _directed_graph (exec (_check_and_make_node key val ext) g) !! k
  = _directed_graph g !! k.
Proof.
  intros Hne. rewrite cmn_exec. destruct (node_exists key g); [done|].
  simpl. by rewrite lookup_insert_ne.
Qed.

Lemma cmn_present key val ext g n :
  _directed_graph g !! key = Some n →
  exec (_check_and_make_node key val ext) g = g.
Proof.
  intros H. rewrite cmn_exec.
  by rewrite (proj2 (node_exists_true key g)) by eauto.
Qed.

(** The three steps of [add_node]. *)
Lemma add_node_run val adj ext g :
  add_node val adj ext g
  = (Return (_vector2hash val (_tol g)),
     let key := _vector2hash val (_tol g) in
     let g2 := exec (add_adj key adj)
                 (exec (_check_and_make_node key val ext) g) in
     match ext with
     | Some _ =>
         set_directed_graph
           (alter (set_exterior ext) key (_directed_graph g2)) g2
     | None => g2
     end).
Proof.
  unfold add_node. rewrite (bind_Return _ _ g g g) by done.
  set (key := _vector2hash val (_tol g)).
  rewrite (bind_Return _ _ _ _ _ (cmn_run _ _ _ _)). rewrite <- cmn_exec.
  pose proof (cmn_lookup key val ext g) as Hk.
  rewrite (bind_Return _ _ _ _ _ (add_adj_run _ _ _ _ Hk)).
  rewrite !(add_adj_exec _ _ _ _ Hk).
  by destruct ext.
Qed.

Lemma add_node_eval val adj ext g :
  eval (add_node val adj ext) g = Return (_vector2hash val (_tol g)).
Proof. unfold eval. by rewrite add_node_run. Qed.

Lemma alter_same (f : _Node → _Node) k (m : gmap string _Node) n :
  m !! k = Some n → f n = n → alter f k m = m.
Proof.
  intros Hk Hf. apply map_eq. intros i. destruct (decide (k = i)) as [<-|Hne].
  - by rewrite lookup_alter_eq, Hk; simpl; rewrite Hf.
  - by rewrite lookup_alter_ne.
Qed.

Lemma set_directed_graph_same g : set_directed_graph (_directed_graph g) g = g.
Proof. by destruct g. Qed.

Lemma add_node_twice val adj ext g :
  add_node val adj ext (exec (add_node val adj ext) g)
  = (Return (_vector2hash val (_tol g)), exec (add_node val adj ext) g).
Proof.
  set (key := _vector2hash val (_tol g)).
  set (g1 := exec (_check_and_make_node key val ext) g).
  pose proof (cmn_lookup key val ext g) as Hk. fold g1 in Hk.
  set (n1 := default _ _) in Hk.
  destruct (add_adj_loop_covers adj key ({[key]} ∪ list_to_set (adj_lst n1))
              g1 n1 Hk) as (n2 & L2 & E2 & P2 & C2).
  { apply elem_of_union_l. by apply elem_of_singleton. }
  assert (_tol g1 = _tol g) as Htol1 by apply always_tol, cmn_extends.
  set (g2 := exec (add_adj key adj) g1).
  assert (g2 = exec (add_adj_loop key ({[key]} ∪ list_to_set (adj_lst n1)) adj)
                 g1) as Hg2.
  { unfold g2. by rewrite (add_adj_exec _ _ _ _ Hk). }
  rewrite <- Hg2 in L2.
  assert (_tol g2 = _tol g) as Htol2.
  { unfold g2. rewrite always_tol by apply add_adj_extends. done. }
  set (g3 := exec (add_node val adj ext) g).
  assert (g3 = match ext with
               | Some _ =>
                   set_directed_graph
                     (alter (set_exterior ext) key (_directed_graph g2)) g2
               | None => g2
               end) as Hg3.
  { unfold g3, exec. by rewrite add_node_run. }
  assert (_tol g3 = _tol g) as Htol3.
  { rewrite Hg3. by destruct ext. }
  assert (∃ n3, _directed_graph g3 !! key = Some n3 ∧
                adj_lst n3 = adj_lst n2 ∧
                (is_Some ext → exterior n3 = ext)) as (n3 & L3 & A3 & E3).
  { rewrite Hg3. destruct ext as [e|].
    - exists (set_exterior (Some e) n2). simpl.
      by rewrite lookup_alter_eq, L2.
    - exists n2. split_and!; [done | done |]. by intros [? [=]]. }
  rewrite add_node_run. rewrite Htol3. fold key. f_equal. simpl.
  rewrite (cmn_present _ _ _ _ _ L3).
  assert (exec (add_adj key adj) g3 = g3) as ->.
  { rewrite (add_adj_exec _ _ _ _ L3).
    apply add_adj_loop_noop. intros v Hv. rewrite Htol3, A3.
    destruct (C2 v Hv) as [Hc|Hc]; rewrite Htol1 in Hc.
    - apply elem_of_union in Hc as [Hc|Hc]; [by apply elem_of_union_l|].
      apply elem_of_union_r, elem_of_list_to_set, P2.
      by apply elem_of_list_to_set in Hc.
    - by apply elem_of_union_r, elem_of_list_to_set. }
  destruct ext as [e|]; [|done].
  rewrite (alter_same _ _ _ n3); [apply set_directed_graph_same | done |].
  destruct n3 as [? ? ? e3]. unfold set_exterior. simpl in *.
  f_equal. symmetry. apply E3. eauto.
Qed.

(** ** [add_node] with one adjacent point *)

Ltac lookups :=
  repeat match goal with
    | |- context [ <[?k := _]> _ !! ?k ] => rewrite lookup_insert_eq
    | |- context [ alter _ ?k _ !! ?k ] => rewrite lookup_alter_eq
    | |- context [ <[?k := ?x]> ?m !! ?j ] =>
        rewrite (lookup_insert_ne m k j x) by congruence
    | |- context [ alter ?f ?k ?m !! ?j ] =>
        rewrite (lookup_alter_ne f m k j) by congruence
    end.

Lemma add_adj_single_exec node n v g :
  _directed_graph g !! node = Some n →
  exec (add_adj node [v]) g
  = let k := _vector2hash v (_tol g) in
    if bool_decide (k = node ∨ k ∈ adj_lst n) then g
    else exec (append_adj node k) (exec (_check_and_make_node k v None) g).
Proof.
  intros Hn. rewrite (add_adj_exec _ _ _ _ Hn), add_adj_loop_cons. simpl.
  rewrite (bool_decide_ext
             (_vector2hash v (_tol g) ∈ {[node]} ∪ list_to_set (adj_lst n))
             (_vector2hash v (_tol g) = node
              ∨ _vector2hash v (_tol g) ∈ adj_lst n)); [done|].
  rewrite elem_of_union, elem_of_singleton, elem_of_list_to_set. ptauto.
Qed.

Lemma add_node_single val v ext g :
  let key := _vector2hash val (_tol g) in
  let k := _vector2hash v (_tol g) in
  let n1 := default (mk_Node val (num_nodes g) [] ext)
              (_directed_graph g !! key) in
  let c1 := if _directed_graph g !! key is Some _ then 0%nat else 1%nat in
  exec (add_node val [v] ext) g
  = if bool_decide (k = key ∨ k ∈ adj_lst n1) then
      mkGraph (<[key := with_exterior ext n1]> (_directed_graph g))
        (_root g) (_tol g) (num_nodes g + c1)
    else
      match _directed_graph g !! k with
      | Some _ =>
          mkGraph
            (<[key := with_exterior ext (with_adjacent k n1)]>
               (_directed_graph g))
            (_root g) (_tol g) (num_nodes g + c1)
      | None =>
          mkGraph
            (<[key := with_exterior ext (with_adjacent k n1)]>
               (<[k := mk_Node v (num_nodes g + c1) [] None]>
                  (_directed_graph g)))
            (_root g) (_tol g) (num_nodes g + c1 + 1)
      end.
Proof.
  intros key k n1 c1. unfold exec at 1. rewrite add_node_run. simpl. fold key.
  set (g1 := exec (_check_and_make_node key val ext) g).
  assert (_directed_graph g1 !! key = Some n1) as Hn1 by apply cmn_lookup.
  assert (_tol g1 = _tol g) as Htol1 by apply always_tol, cmn_extends.
  assert (g1 = mkGraph (<[key := n1]> (_directed_graph g)) (_root g) (_tol g)
                 (num_nodes g + c1)) as Hg1.
  { unfold g1, n1, c1. rewrite cmn_exec.
    destruct (node_exists key g) eqn:E.
    - apply node_exists_true in E as [n E]. rewrite E. simpl.
      rewrite insert_id by done. destruct g; simpl; f_equal; lia.
    - apply node_exists_false in E. rewrite E. simpl. f_equal; lia. }
  rewrite (add_adj_single_exec _ _ _ _ Hn1). simpl. rewrite Htol1. fold k.
  case_bool_decide as Hk.
  - rewrite Hg1. destruct ext; simpl; [|done].
    unfold set_directed_graph. simpl. f_equal.
    apply map_eq. intros i. destruct (decide (i = key)) as [->|]; by lookups.
  - assert (k ≠ key) as Hne by ptauto.
    rewrite append_adj_exec, cmn_exec. rewrite Hg1.
    unfold node_exists. simpl.
    destruct (_directed_graph g !! k) as [nk|] eqn:Ek.
    + rewrite bool_decide_eq_true_2
        by (apply elem_of_dom; rewrite lookup_insert_ne by done; eauto).
      unfold set_directed_graph. destruct ext; simpl; f_equal;
        apply map_eq; intros i; destruct (decide (i = key)) as [->|];
        by lookups.
    + rewrite bool_decide_eq_false_2
        by (rewrite not_elem_of_dom, lookup_insert_ne by done; done).
      unfold set_directed_graph. destruct ext; simpl; f_equal; try lia.
      all: apply map_eq; intros i; destruct (decide (i = key)) as [->|];
        [by lookups|]; destruct (decide (i = k)) as [->|]; by lookups.
Qed.

(** ** [insert_node] between two nodes of the graph *)

Lemma add_node_run' val adj ext g :
  add_node val adj ext g
  = (Return (_vector2hash val (_tol g)), exec (add_node val adj ext) g).
Proof. by rewrite run_eq, add_node_eval. Qed.

Lemma with_exterior_pt e n : pt (with_exterior e n) = pt n.
Proof. by destruct e. Qed.

Lemma with_exterior_adj e n : adj_lst (with_exterior e n) = adj_lst n.
Proof. by destruct e. Qed.

Lemma with_exterior_order e n : _order (with_exterior e n) = _order n.
Proof. by destruct e. Qed.

Lemma insert_node_run node nl next nr new_val ext g :
  keys_hashed g →
  _directed_graph g !! node = Some nl →
  _directed_graph g !! next = Some nr →
  let new_key := _vector2hash new_val (_tol g) in
  let n1 := default (mk_Node new_val (num_nodes g) [] ext)
              (_directed_graph g !! new_key) in
  let c1 := if _directed_graph g !! new_key is Some _ then 0%nat else 1%nat in
  let n3 := with_exterior ext
              (if bool_decide (next = new_key ∨ next ∈ adj_lst n1)
               then n1 else with_adjacent next n1) in
  let nl3 := if bool_decide (node = new_key) then n3 else nl in
  let nl4 := if bool_decide (new_key = node ∨ new_key ∈ adj_lst nl3)
             then nl3 else with_adjacent new_key nl3 in
  let nl5 := if bool_decide (new_key = next) || bool_decide (new_key = node)
             then nl4
             else set_adj_lst
                    (filter (λ k, k ∉ (list_to_set [next] : gset string))
                       (adj_lst nl4)) nl4 in
  insert_node node new_val next ext g
  = (Return new_key,
     mkGraph (<[node := nl5]> (<[new_key := n3]> (_directed_graph g)))
       (_root g) (_tol g) (num_nodes g + c1)).
Proof.
  intros Hwf Hnl Hnr new_key n1 c1 n3 nl3 nl4 nl5.
  assert (_vector2hash (pt nr) (_tol g) = next) as Hnext by by apply Hwf.
  assert (_vector2hash (pt n1) (_tol g) = new_key) as Hn1.
  { unfold n1. destruct (_directed_graph g !! new_key) eqn:E; [|done].
    by apply Hwf. }
  unfold insert_node.
  rewrite (bind_Return _ _ _ _ _ (deref_Some _ _ _ Hnr)).
  rewrite (bind_Return _ _ _ _ _ (add_node_run' _ _ _ _)).
  pose proof (add_node_single new_val (pt nr) ext g) as Hg3.
  simpl in Hg3. rewrite Hnext, Hnr in Hg3. fold new_key n1 c1 in Hg3.
  set (g3 := exec (add_node new_val [pt nr] ext) g) in *.
  assert (g3 = mkGraph (<[new_key := n3]> (_directed_graph g)) (_root g)
                 (_tol g) (num_nodes g + c1)) as Hg3'.
  { rewrite Hg3. unfold n3. by case_bool_decide. }
  clear Hg3. fold new_key.
  assert (_directed_graph g3 !! new_key = Some n3) as Hk3
    by (rewrite Hg3'; simpl; by lookups).
  rewrite (bind_Return _ _ _ _ _ (deref_Some _ _ _ Hk3)).
  assert (_directed_graph g3 !! node = Some nl3) as Hnode3.
  { rewrite Hg3'. simpl. unfold nl3. case_bool_decide as Hc.
    - subst node. by lookups.
    - by lookups. }
  assert (_vector2hash (pt n3) (_tol g3) = new_key) as Hpt3.
  { rewrite Hg3'. simpl. rewrite <- Hn1. f_equal.
    unfold n3. rewrite with_exterior_pt. by case_bool_decide. }
  pose proof (add_adj_single_exec node nl3 (pt n3) g3 Hnode3) as Hg4.
  simpl in Hg4. rewrite Hpt3 in Hg4.
  rewrite (cmn_present _ _ _ _ _ Hk3), append_adj_exec in Hg4.
  set (g4 := exec (add_adj node [pt n3]) g3) in *.
  assert (g4 = mkGraph (<[node := nl4]> (<[new_key := n3]> (_directed_graph g)))
                 (_root g) (_tol g) (num_nodes g + c1)) as Hg4'.
  { rewrite Hg4. unfold nl4. case_bool_decide as Hc.
    - rewrite Hg3'. f_equal. symmetry. apply insert_id.
      by rewrite Hg3' in Hnode3.
    - rewrite Hg3'. unfold set_directed_graph. simpl. f_equal.
      rewrite Hg3' in Hnode3. simpl in Hnode3.
      apply map_eq. intros i. destruct (decide (i = node)) as [->|].
      + lookups. by rewrite Hnode3.
      + by lookups. }
  clear Hg4.
  assert (add_adj node [pt n3] g3 = (Return tt, g4)) as Hrun4.
  { rewrite run_eq. f_equal. unfold eval.
    by rewrite (add_adj_run _ _ _ _ Hnode3). }
  rewrite (bind_Return _ _ _ _ _ Hrun4).
  unfold nl5. destruct (_ || _); [by rewrite Hg4'|].
  assert (_directed_graph g4 !! node = Some nl4) as Hnode4
    by (rewrite Hg4'; simpl; by lookups).
  rewrite (bind_Return _ _ _ _ _ (remove_adj_run _ _ _ _ Hnode4)).
  unfold mret, M_ret, ret. f_equal. rewrite Hg4'.
  unfold set_directed_graph. simpl. f_equal.
  apply map_eq. intros i. destruct (decide (i = node)) as [->|]; by lookups.
Qed.

Lemma snoc_not_nil {A} (l : list A) x : l ++ [x] ≠ [].
Proof. by destruct l. Qed.

Lemma elem_not_nil {A} (l : list A) x : x ∈ l → l ≠ [].
Proof. intros H ->. by apply elem_of_nil in H. Qed.

Lemma linked_adj k key n :
  adj_lst (if bool_decide (k = key ∨ k ∈ adj_lst n) then n
           else with_adjacent k n)
  = if bool_decide (k = key ∨ k ∈ adj_lst n) then adj_lst n
    else adj_lst n ++ [k].
Proof. by case_bool_decide. Qed.

Lemma linked_elem k key n :
  k ≠ key →
  k ∈ adj_lst (if bool_decide (k = key ∨ k ∈ adj_lst n) then n
               else with_adjacent k n).
Proof.
  intros Hne. rewrite linked_adj. case_bool_decide as Hc.
  - by destruct Hc.
  - apply elem_of_app. right. by apply list_elem_of_singleton.
Qed.

Lemma filter_not_in_singleton (next : string) (l : list string) :
  filter (λ k, k ∉ (list_to_set [next] : gset string)) l
  = filter (λ k, k ≠ next) l.
Proof.
  apply list_filter_iff. intros k.
  rewrite elem_of_list_to_set, list_elem_of_singleton. done.
Qed.

(** C2. For nodes [left] and [right] of the graph with [right] in the
    adjacency list of [left], and a point whose key is neither [left] nor
    [right], [insert_node left new_point right] returns the key of the new
    point; the node of that key exists afterwards and has [right] in its
    adjacency list; the adjacency list of [left] is its old list, with the
    new key appended at the end unless it was in the list already, and
    without [right]: so the new node is adjacent to [left] and [right] no
    longer is. *)
Theorem insert_node_subdivides left nl right nr new_point ext g :
  keys_hashed g →
  _directed_graph g !! left = Some nl →
  _directed_graph g !! right = Some nr →
  right ∈ adj_lst nl →
  _vector2hash new_point (_tol g) ≠ left →
  _vector2hash new_point (_tol g) ≠ right →
  let new_key := _vector2hash new_point (_tol g) in
  ∃ g' nk nl',
    insert_node left new_point right ext g = (Return new_key, g') ∧
    _directed_graph g' !! new_key = Some nk ∧
    right ∈ adj_lst nk ∧
    _directed_graph g' !! left = Some nl' ∧
    adj_lst nl'
    = filter (λ k, k ≠ right)
        (if bool_decide (new_key ∈ adj_lst nl) then adj_lst nl
         else adj_lst nl ++ [new_key]) ∧
    new_key ∈ adj_lst nl' ∧
    right ∉ adj_lst nl'.
Proof.
  intros Hwf Hl Hr Hedge Hnl Hnr new_key.
  pose proof (insert_node_run left nl right nr new_point ext g Hwf Hl Hr)
    as Hrun.
  cbv zeta in Hrun. fold new_key in Hrun, Hnl, Hnr.
  rewrite (bool_decide_eq_false_2 (left = new_key)) in Hrun by congruence.
  rewrite (bool_decide_eq_false_2 (new_key = right)) in Hrun by done.
  rewrite (bool_decide_eq_false_2 (new_key = left)) in Hrun by done.
  rewrite filter_not_in_singleton in Hrun. simpl in Hrun.
  eexists _, _, _. split; [exact Hrun|]. clear Hrun. simpl.
  assert ((if bool_decide (new_key = left ∨ new_key ∈ adj_lst nl)
           then adj_lst nl else adj_lst nl ++ [new_key])
          = if bool_decide (new_key ∈ adj_lst nl) then adj_lst nl
            else adj_lst nl ++ [new_key]) as Hadj.
  { rewrite (bool_decide_ext (new_key = left ∨ new_key ∈ adj_lst nl)
               (new_key ∈ adj_lst nl)); [done | ptauto]. }
  split_and!.
  - by lookups.
  - rewrite with_exterior_adj. apply linked_elem. congruence.
  - by lookups.
  - simpl. by rewrite linked_adj, Hadj.
  - simpl. apply list_elem_of_filter. split; [done|].
    apply linked_elem. congruence.
  - simpl. rewrite list_elem_of_filter. ptauto.
Qed.

(** C3. For nodes [left] and [right] of the graph with [right] in the
    adjacency list of [left], and a point whose key is the key of [left] or
    of [right], [insert_node left new_point right] returns that key and
    raises nothing; the graph keeps its keys, its [num_nodes] and every
    adjacency list, point and order; the one change is that the node of
    the returned key takes the boundary flag when one is given. *)
Theorem insert_node_coincident left nl right nr new_point ext g :
  keys_hashed g →
  _directed_graph g !! left = Some nl →
  _directed_graph g !! right = Some nr →
  right ∈ adj_lst nl →
  (_vector2hash new_point (_tol g) = left ∨
   _vector2hash new_point (_tol g) = right) →
  let new_key := _vector2hash new_point (_tol g) in
  ∃ g' n,
    insert_node left new_point right ext g = (Return new_key, g') ∧
    _directed_graph g !! new_key = Some n ∧
    g' = set_directed_graph
           (<[new_key := with_exterior ext n]> (_directed_graph g)) g ∧
    num_nodes g' = num_nodes g ∧
    dom (_directed_graph g') = dom (_directed_graph g) ∧
    (∀ k, adj_lst <$> _directed_graph g' !! k
          = adj_lst <$> _directed_graph g !! k) ∧
    (∀ k, k ≠ new_key → _directed_graph g' !! k = _directed_graph g !! k) ∧
    (ext = None → g' = g).
Proof.
  intros Hwf Hl Hr Hedge Hco new_key.
  pose proof (insert_node_run left nl right nr new_point ext g Hwf Hl Hr)
    as Hrun.
  cbv zeta in Hrun. fold new_key in Hrun, Hco.
  assert (∃ n, _directed_graph g !! new_key = Some n ∧
               (right = new_key ∨ right ∈ adj_lst n) ∧
               (left = new_key → n = nl) ∧
               (new_key = left ∨ new_key ∈ adj_lst nl))
    as (n & Hn & Hrn & Hln & Hnl).
  { destruct Hco as [Hco|Hco].
    - exists nl. rewrite Hco. auto.
    - exists nr. rewrite Hco. split_and!; [done | by left | | by right].
      intros ->. congruence. }
  rewrite Hn in Hrun. simpl in Hrun.
  rewrite (bool_decide_eq_true_2 _ Hrn) in Hrun.
  assert ((bool_decide (new_key = right) || bool_decide (new_key = left))
          = true) as Hb.
  { apply orb_true_iff. rewrite !bool_decide_eq_true. ptauto. }
  rewrite Hb in Hrun. clear Hb.
  assert (<[left :=
             if bool_decide
                  (new_key = left
                   ∨ new_key
                     ∈ adj_lst
                         (if bool_decide (left = new_key)
                          then with_exterior ext n else nl))
             then if bool_decide (left = new_key)
                  then with_exterior ext n else nl
             else with_adjacent new_key
                    (if bool_decide (left = new_key)
                     then with_exterior ext n else nl)]>
            (<[new_key := with_exterior ext n]> (_directed_graph g))
          = <[new_key := with_exterior ext n]> (_directed_graph g)) as Hmap.
  { apply insert_id. destruct (decide (left = new_key)) as [Hc|Hc].
    - rewrite !(bool_decide_eq_true_2 (left = new_key)) by done.
      rewrite bool_decide_eq_true_2 by (left; congruence).
      rewrite Hc. by lookups.
    - rewrite !(bool_decide_eq_false_2 (left = new_key)) by done.
      rewrite bool_decide_eq_true_2 by done. by lookups. }
  rewrite Hmap, Nat.add_0_r in Hrun. clear Hmap.
  eexists _, n. split; [exact Hrun|].
  split_and!; simpl; [done | done | done | | | | ].
  - rewrite dom_insert_L. apply elem_of_dom_2 in Hn.
    apply set_eq. intros k. rewrite elem_of_union, elem_of_singleton.
    split; [intros [->|?]; done | by right].
  - intros k. destruct (decide (k = new_key)) as [->|]; lookups; [|done].
    rewrite Hn. simpl. by rewrite with_exterior_adj.
  - intros k Hk. by lookups.
  - intros ->. simpl. rewrite insert_id by done. by destruct g.
Qed.

(** ** Invariants of [insert_node] *)

Lemma two_inserts_hashed ka a kb b r c g :
  keys_hashed g →
  _vector2hash (pt a) (_tol g) = ka →
  _vector2hash (pt b) (_tol g) = kb →
  keys_hashed
    (mkGraph (<[kb := b]> (<[ka := a]> (_directed_graph g))) r (_tol g) c).
Proof.
  intros Hwf Ha Hb k n. simpl.
  destruct (decide (k = kb)) as [->|]; lookups; [by intros [= <-]|].
  destruct (decide (k = ka)) as [->|]; lookups; [by intros [= <-]|].
  apply Hwf.
Qed.

Lemma two_inserts_closed ka a kb b r c g :
  adj_closed g →
  (∀ x, x ∈ adj_lst a → is_Some (_directed_graph g !! x) ∨ x = ka ∨ x = kb) →
  (∀ x, x ∈ adj_lst b → is_Some (_directed_graph g !! x) ∨ x = ka ∨ x = kb) →
  adj_closed
    (mkGraph (<[kb := b]> (<[ka := a]> (_directed_graph g))) r (_tol g) c).
Proof.
  intros Hcl Ha Hb.
  assert (∀ x, is_Some (_directed_graph g !! x) ∨ x = ka ∨ x = kb →
            is_Some (<[kb := b]> (<[ka := a]> (_directed_graph g)) !! x))
    as Hin.
  { intros x Hx. destruct (decide (x = kb)) as [->|]; lookups; [eauto|].
    destruct (decide (x = ka)) as [->|]; lookups; [eauto|].
    destruct Hx as [?|[?|?]]; done. }
  intros k n x. simpl.
  destruct (decide (k = kb)) as [->|]; lookups.
  { intros [= <-] Hx. by apply Hin, Hb. }
  destruct (decide (k = ka)) as [->|]; lookups.
  { intros [= <-] Hx. by apply Hin, Ha. }
  intros Hk Hx. apply Hin. left. by eapply Hcl.
Qed.

Lemma two_inserts_adjacent ka a kb b r c g :
  all_adjacent g → adj_lst a ≠ [] → adj_lst b ≠ [] →
  all_adjacent
    (mkGraph (<[kb := b]> (<[ka := a]> (_directed_graph g))) r (_tol g) c).
Proof.
  intros Hg Ha Hb k n. simpl.
  destruct (decide (k = kb)) as [->|]; lookups; [by intros [= <-]|].
  destruct (decide (k = ka)) as [->|]; lookups; [by intros [= <-]|].
  apply Hg.
Qed.

Lemma insert_node_ok node nl next nr new_val ext g :
  keys_hashed g → adj_closed g →
  _directed_graph g !! node = Some nl →
  _directed_graph g !! next = Some nr →
  let new_key := _vector2hash new_val (_tol g) in
  ∃ g', insert_node node new_val next ext g = (Return new_key, g') ∧
        keys_hashed g' ∧ adj_closed g' ∧
        is_Some (_directed_graph g' !! new_key) ∧
        (all_adjacent g → all_adjacent g') ∧
        (∀ k, k ≠ node → k ≠ new_key →
           _directed_graph g' !! k = _directed_graph g !! k).
Proof.
  intros Hwf Hcl Hl Hr new_key.
  set (n1 := default (mk_Node new_val (num_nodes g) [] ext)
               (_directed_graph g !! new_key)) in *.
  set (n3 := with_exterior ext
               (if bool_decide (next = new_key ∨ next ∈ adj_lst n1)
                then n1 else with_adjacent next n1)) in *.
  set (nl3 := if bool_decide (node = new_key) then n3 else nl) in *.
  set (nl4 := if bool_decide (new_key = node ∨ new_key ∈ adj_lst nl3)
              then nl3 else with_adjacent new_key nl3) in *.
  set (nl5 := if bool_decide (new_key = next) || bool_decide (new_key = node)
              then nl4
              else set_adj_lst
                     (filter (λ k, k ∉ (list_to_set [next] : gset string))
                        (adj_lst nl4)) nl4) in *.
  assert (_vector2hash (pt n1) (_tol g) = new_key) as Hn1.
  { unfold n1. destruct (_directed_graph g !! new_key) eqn:E; [|done].
    by apply Hwf. }
  assert (∀ x, x ∈ adj_lst n1 → is_Some (_directed_graph g !! x)) as Hn1cl.
  { unfold n1. destruct (_directed_graph g !! new_key) as [n0|] eqn:E; simpl.
    - intros x. by apply (Hcl new_key n0).
    - by intros x ?%elem_of_nil. }
  assert (pt n3 = pt n1) as Hpt3.
  { unfold n3. rewrite with_exterior_pt. by goal_decide. }
  assert (∀ x, x ∈ adj_lst n3 → x ∈ adj_lst n1 ∨ x = next) as Hadj3.
  { intros x. unfold n3. rewrite with_exterior_adj, linked_adj.
    destruct (bool_decide (next = new_key ∨ next ∈ adj_lst n1)); [by left|].
    rewrite elem_of_app, list_elem_of_singleton. ptauto. }
  assert (pt nl3 = if bool_decide (node = new_key) then pt n1 else pt nl)
    as Hpt3'.
  { unfold nl3. by goal_decide. }
  assert (pt nl5 = pt nl3) as Hpt5.
  { unfold nl5, nl4. destruct (_ || _); simpl;
      by destruct (bool_decide (new_key = node ∨ new_key ∈ adj_lst nl3)). }
  assert (∀ x, x ∈ adj_lst nl5 → x ∈ adj_lst nl3 ∨ x = new_key) as Hadj5.
  { assert (∀ x, x ∈ adj_lst nl4 → x ∈ adj_lst nl3 ∨ x = new_key) as H4.
    { intros x. unfold nl4. rewrite linked_adj.
      destruct (bool_decide (new_key = node ∨ new_key ∈ adj_lst nl3));
        [by left|].
      rewrite elem_of_app, list_elem_of_singleton. ptauto. }
    intros x. unfold nl5. destruct (_ || _); [apply H4|]. simpl.
    intros [_ Hx]%list_elem_of_filter. by apply H4. }
  assert (∀ x, x ∈ adj_lst nl3 →
            is_Some (_directed_graph g !! x) ∨ x = new_key) as Hcl3.
  { intros x. unfold nl3. goal_decide.
    - intros Hx. apply Hadj3 in Hx as [Hx| ->].
      + left. by apply Hn1cl.
      + left. by eexists.
    - intros Hx. left. by apply (Hcl node nl). }
  eexists. split.
  { apply (insert_node_run node nl next nr new_val ext g Hwf Hl Hr). }
  fold new_key n1 n3 nl3 nl4 nl5. split_and!.
  - apply two_inserts_hashed; [done | by rewrite Hpt3 |].
    rewrite Hpt5, Hpt3'. goal_decide as Hc; [by rewrite Hc | by apply Hwf].
  - apply two_inserts_closed; [done | |].
    + intros x Hx. apply Hadj3 in Hx as [Hx| ->];
        [left; by apply Hn1cl | left; by eexists].
    + intros x Hx. apply Hadj5 in Hx as [Hx| ->]; [|ptauto].
      destruct (Hcl3 _ Hx); ptauto.
  - simpl. destruct (decide (new_key = node)) as [->|]; lookups; eauto.
  - intros Hne.
    assert (adj_lst n3 ≠ []) as Hne3.
    { unfold n3. rewrite with_exterior_adj, linked_adj.
      goal_decide as Hc; [|apply snoc_not_nil].
      destruct Hc as [Hc|Hc]; [|by eapply elem_not_nil].
      unfold n1. rewrite <- Hc, Hr. simpl. by apply (Hne next nr). }
    assert (adj_lst nl3 ≠ []) as Hne3'.
    { unfold nl3. goal_decide; [done | by apply (Hne node nl)]. }
    apply two_inserts_adjacent; [done | done |].
    unfold nl5.
    destruct (bool_decide (new_key = next)) eqn:E1;
      [|destruct (bool_decide (new_key = node)) eqn:E2]; simpl.
    + unfold nl4. rewrite linked_adj.
      goal_decide; [done | apply snoc_not_nil].
    + unfold nl4. rewrite linked_adj.
      goal_decide; [done | apply snoc_not_nil].
    + apply bool_decide_eq_false in E1, E2.
      assert (new_key ∈ filter (λ k, k ∉ (list_to_set [next] : gset string))
                          (adj_lst nl4)) as Hin.
      { apply list_elem_of_filter. split.
        - rewrite elem_of_list_to_set, list_elem_of_singleton. done.
        - unfold nl4. by apply linked_elem. }
      by eapply elem_not_nil.
  - intros k Hk1 Hk2. simpl. by lookups.
Qed.

(** ** Joining two nodes of the graph *)

Lemma add_node_link k1 n1 k2 n2 ext g :
  keys_hashed g →
  _directed_graph g !! k1 = Some n1 →
  _directed_graph g !! k2 = Some n2 →
  add_node (pt n1) [pt n2] ext g
  = (Return k1,
     set_directed_graph
       (<[k1 := with_exterior ext
                  (if bool_decide (k2 = k1 ∨ k2 ∈ adj_lst n1) then n1
                   else with_adjacent k2 n1)]> (_directed_graph g)) g).
Proof.
  intros Hwf H1 H2. rewrite add_node_run'.
  pose proof (add_node_single (pt n1) (pt n2) ext g) as Hs.
  cbv zeta in Hs. rewrite (Hwf _ _ H1), (Hwf _ _ H2), H1, H2 in Hs.
  simpl in Hs. rewrite Hs, Nat.add_0_r, (Hwf _ _ H1).
  by destruct (bool_decide (k2 = k1 ∨ k2 ∈ adj_lst n1)).
Qed.

Lemma has_edge_insert g k n u v :
  has_edge (set_directed_graph (<[k := n]> (_directed_graph g)) g) u v
  ↔ (u = k ∧ v ∈ adj_lst n) ∨ (u ≠ k ∧ has_edge g u v).
Proof.
  unfold has_edge. simpl. destruct (decide (u = k)) as [->|Hne]; lookups.
  - split.
    + intros (n' & [= <-] & Hv). by left.
    + intros [[_ Hv]|[? _]]; [eauto | done].
  - split; [by right | by intros [[? _]|[_ ?]]].
Qed.

Lemma add_node_link_spec k1 n1 k2 n2 ext g :
  keys_hashed g →
  _directed_graph g !! k1 = Some n1 →
  _directed_graph g !! k2 = Some n2 →
  ∃ g', add_node (pt n1) [pt n2] ext g = (Return k1, g') ∧
        keys_hashed g' ∧
        (∀ k n, _directed_graph g !! k = Some n →
           ∃ n', _directed_graph g' !! k = Some n' ∧ pt n' = pt n) ∧
        (∀ u v, has_edge g' u v
                ↔ has_edge g u v ∨ (u = k1 ∧ v = k2 ∧ k1 ≠ k2)).
Proof.
  intros Hwf H1 H2. eexists. split; [by apply add_node_link|].
  set (n1' := with_exterior ext _).
  assert (pt n1' = pt n1) as Hpt.
  { unfold n1'. rewrite with_exterior_pt.
    by destruct (bool_decide (k2 = k1 ∨ k2 ∈ adj_lst n1)). }
  split_and!.
  - intros k n. simpl. destruct (decide (k = k1)) as [->|]; lookups.
    + intros [= <-]. rewrite Hpt. by apply Hwf.
    + apply Hwf.
  - intros k n Hk. simpl. destruct (decide (k = k1)) as [->|]; lookups.
    + exists n1'. split; [done|]. congruence.
    + eauto.
  - intros u v. rewrite has_edge_insert. unfold n1'.
    rewrite with_exterior_adj, linked_adj. unfold has_edge.
    destruct (decide (u = k1)) as [->|Hu].
    + rewrite H1. goal_decide as Hc.
      * split; [intros [[_ Hv]|[? _]]; [left; eauto | done]|].
        intros [(n & [= <-] & Hv)|(_ & -> & Hne)]; [by left|].
        destruct Hc as [Hc|Hc]; [done | by left].
      * rewrite elem_of_app, list_elem_of_singleton. split.
        -- intros [[_ [Hv| ->]]|[? _]]; [left; eauto | | done].
           right. split_and!; [done | done |]. intros <-. ptauto.
        -- intros [(n & [= <-] & Hv)|(_ & -> & Hne)]; left; ptauto.
    + split; [intros [[? _]|[_ ?]]; [done | by left]|].
      intros [?|[? _]]; [by right | done].
Qed.

Lemma connect_pair_spec k1 n1 k2 n2 g :
  keys_hashed g →
  _directed_graph g !! k1 = Some n1 →
  _directed_graph g !! k2 = Some n2 →
  ∃ g', connect_pair k1 k2 g = (Return tt, g') ∧
        keys_hashed g' ∧
        (∀ k n, _directed_graph g !! k = Some n →
           ∃ n', _directed_graph g' !! k = Some n' ∧ pt n' = pt n) ∧
        (∀ u v, has_edge g' u v
                ↔ has_edge g u v ∨
                  (u ≠ v ∧ ((u = k1 ∧ v = k2) ∨ (u = k2 ∧ v = k1)))).
Proof.
  intros Hwf H1 H2.
  destruct (add_node_link_spec k1 n1 k2 n2 (Some false) g Hwf H1 H2)
    as (g1 & Hrun1 & Hwf1 & Hkeep1 & Hedge1).
  destruct (Hkeep1 _ _ H1) as (n1' & H1' & Hpt1).
  destruct (Hkeep1 _ _ H2) as (n2' & H2' & Hpt2).
  destruct (add_node_link_spec k2 n2' k1 n1' (Some false) g1 Hwf1 H2' H1')
    as (g2 & Hrun2 & Hwf2 & Hkeep2 & Hedge2).
  exists g2. split_and!; [| done | |].
  - unfold connect_pair.
    rewrite (bind_Return _ _ _ _ _ (deref_Some _ _ _ H1)).
    rewrite (bind_Return _ _ _ _ _ (deref_Some _ _ _ H2)).
    rewrite (bind_Return _ _ _ _ _ Hrun1).
    rewrite (bind_Return _ _ _ _ _ (deref_Some _ _ _ H2')).
    rewrite (bind_Return _ _ _ _ _ (deref_Some _ _ _ H1')).
    by rewrite (bind_Return _ _ _ _ _ Hrun2).
  - intros k n Hk. destruct (Hkeep1 _ _ Hk) as (n' & Hk' & Hp').
    destruct (Hkeep2 _ _ Hk') as (n'' & Hk'' & Hp''). exists n''.
    split; [done | congruence].
  - intros u v. rewrite Hedge2, Hedge1. split.
    + intros [[?|(-> & -> & ?)]|(-> & -> & ?)]; [by left | right | right];
        split; auto.
    + intros [?|(Hne & [[-> ->]|[-> ->]])]; [by left; left | left | ];
        right; auto.
Qed.

(** ** Keys are hashes and adjacency lists stay inside the graph *)

Lemma cmn_sound key val ext g :
  key = _vector2hash val (_tol g) →
  keeps sound g (exec (_check_and_make_node key val ext) g).
Proof.
  intros Hkey [Hwf Hcl]. rewrite cmn_exec.
  destruct (node_exists key g) eqn:E; [done|].
  apply node_exists_false in E. split.
  - intros k n. simpl. destruct (decide (k = key)) as [->|]; lookups.
    + by intros [= <-].
    + apply Hwf.
  - intros k n a. simpl. destruct (decide (k = key)) as [->|]; lookups.
    + intros [= <-]. simpl. by intros ?%elem_of_nil.
    + intros Hk Ha. destruct (decide (a = key)) as [->|]; lookups;
        [by eexists | by apply (Hcl k n)].
Qed.

Lemma sound_alter f k g :
  (∀ n, pt (f n) = pt n) →
  (∀ n a, _directed_graph g !! k = Some n → a ∈ adj_lst (f n) →
     a ∈ adj_lst n ∨ is_Some (_directed_graph g !! a)) →
  sound g →
  sound (set_directed_graph (alter f k (_directed_graph g)) g).
Proof.
  intros Hpt Hadj [Hwf Hcl].
  assert (∀ a, is_Some (_directed_graph g !! a) →
            is_Some (alter f k (_directed_graph g) !! a)) as Hin.
  { intros a [n Ha]. destruct (decide (a = k)) as [->|]; lookups;
      [by rewrite Ha; eexists | by eexists]. }
  split.
  - intros k' n'. simpl. destruct (decide (k' = k)) as [->|]; lookups.
    + destruct (_directed_graph g !! k) as [n|] eqn:E; [|done].
      simpl. intros [= <-]. rewrite Hpt. by apply Hwf.
    + apply Hwf.
  - intros k' n' a. simpl. destruct (decide (k' = k)) as [->|]; lookups.
    + destruct (_directed_graph g !! k) as [n|] eqn:E; [|done].
      simpl. intros [= <-] Ha. apply Hin.
      destruct (Hadj n a eq_refl Ha) as [Ha'|Ha']; [by apply (Hcl k n) | done].
    + intros Hk Ha. apply Hin. by apply (Hcl k' n').
Qed.

Lemma append_adj_sound node k g :
  is_Some (_directed_graph g !! k) →
  keeps sound g (exec (append_adj node k) g).
Proof.
  intros Hk Hg. rewrite append_adj_exec. apply sound_alter; [done | | done].
  intros n a _. simpl. rewrite elem_of_app, list_elem_of_singleton.
  intros [?| ->]; [by left | by right].
Qed.

Lemma add_adj_loop_sound vals :
  ∀ node keys, always (keeps sound) (add_adj_loop node keys vals).
Proof.
  induction vals as [|v vals IH]; intros node keys g; [done|].
  rewrite add_adj_loop_cons. simpl.
  destruct (bool_decide _); [apply IH|].
  etrans; [|apply IH]. etrans; [by apply cmn_sound|].
  apply append_adj_sound. rewrite cmn_lookup. by eexists.
Qed.

Lemma add_adj_sound node vals : always (keeps sound) (add_adj node vals).
Proof.
  rule always_bind; [rule always_deref | intros n].
  apply add_adj_loop_sound.
Qed.

Lemma remove_adj_sound node ks : always (keeps sound) (remove_adj node ks).
Proof.
  intros g Hg. unfold exec.
  destruct (_directed_graph g !! node) as [n|] eqn:E;
    [|by rewrite remove_adj_None].
  rewrite (remove_adj_run _ _ _ _ E). simpl.
  apply sound_alter; [done | | done].
  intros n' a. rewrite E. intros [= <-]. simpl.
  intros [_ Ha]%list_elem_of_filter. by left.
Qed.

Lemma add_node_sound val adj ext : always (keeps sound) (add_node val adj ext).
Proof.
  rule always_get. intros g.
  rule rel_bind; [by apply cmn_sound | intros node].
  rule always_bind; [apply add_adj_sound | intros _].
  rule always_bind; [|intros _; rule always_ret].
  destruct ext; [|rule always_ret].
  rule always_modify. intros g' Hg'. apply sound_alter; [done | | done].
  intros n a _ Ha. by left.
Qed.

Lemma insert_node_sound node new_val next_node ext :
  always (keeps sound) (insert_node node new_val next_node ext).
Proof.
  rule always_bind; [rule always_deref | intros nn].
  rule always_bind; [apply add_node_sound | intros new_key].
  rule always_bind; [rule always_deref | intros nk].
  rule always_bind; [apply add_adj_sound | intros _].
  destruct (_ || _); [rule always_ret|].
  rule always_bind; [apply remove_adj_sound | intros _; rule always_ret].
Qed.

Lemma scan_edges_sound segment nodes :
  ∀ ks, always (keeps sound) (scan_edges segment nodes ks).
Proof.
  induction nodes as [|node nodes IH]; intros ks; simpl; [rule always_ret|].
  rule always_bind; [rule always_deref | intros n].
  destruct (adj_lst n) as [|next_node ?]; [rule always_raise|].
  rule always_bind; [rule always_deref | intros nn].
  destruct (intersect_line2d_infinite _ _) as [int_pt|]; [|apply IH].
  destruct (point_bool int_pt); [|apply IH].
  rule always_bind; [apply insert_node_sound | intros k; apply IH].
Qed.

Lemma connect_pair_sound k1 k2 : always (keeps sound) (connect_pair k1 k2).
Proof.
  rule always_bind; [rule always_deref | intros n1].
  rule always_bind; [rule always_deref | intros n2].
  rule always_bind; [apply add_node_sound | intros _].
  rule always_bind; [rule always_deref | intros n2'].
  rule always_bind; [rule always_deref | intros n1'].
  rule always_bind; [apply add_node_sound | intros _; rule always_ret].
Qed.

Lemma chain_loop_sound ks ds : always (keeps sound) (chain_loop ks ds).
Proof.
  induction ds as [|d1 ds IH]; simpl; [rule always_ret|].
  destruct ds as [|d2 ds]; [rule always_ret|].
  unfold index_key.
  rule always_bind; [destruct (ks !! _); [rule always_ret | rule always_raise]|].
  intros key1.
  rule always_bind; [destruct (ks !! _); [rule always_ret | rule always_raise]|].
  intros key2.
  rule always_bind; [apply connect_pair_sound | intros _; apply IH].
Qed.

Lemma add_intersection_edges_sound ks :
  always (keeps sound) (add_intersection_edges ks).
Proof.
  unfold add_intersection_edges.
  destruct ks as [|k0 [|k1 [|k2 ks]]];
    [rule always_ret | rule always_ret | apply connect_pair_sound |].
  rule always_bind; [rule always_deref | intros n].
  rule always_bind; [|intros ds; apply chain_loop_sound].
  intros g. rewrite measure_loop_same. reflexivity.
Qed.

Lemma intersect_sound segment :
  always (keeps sound) (intersect_graph_with_segment segment).
Proof.
  rule always_get. intros g.
  rule rel_bind; [apply scan_edges_sound | intros ks].
  apply add_intersection_edges_sound.
Qed.

Lemma run_call_sound c : always (keeps sound) (run_call c).
Proof.
  destruct c; simpl.
  - rule always_bind; [apply add_node_sound | intros _; rule always_ret].
  - rule always_bind; [apply insert_node_sound | intros _; rule always_ret].
  - apply remove_adj_sound.
  - apply intersect_sound.
Qed.

Lemma run_calls_sound cs : ∀ g, sound g → sound (run_calls cs g).
Proof.
  induction cs as [|c cs IH]; intros g Hg; simpl; [done|].
  apply IH. by apply run_call_sound.
Qed.

Lemma init_sound tol : sound (__init__ tol).
Proof. split; [intros k n | intros k n a]; simpl; by rewrite lookup_empty. Qed.

Lemma extends_is_Some g g' k :
  extends g g' → is_Some (_directed_graph g !! k) →
  is_Some (_directed_graph g' !! k).
Proof.
  intros (_ & _ & H) [n Hn]. destruct (H _ _ Hn) as (n' & Hn' & _).
  by eexists.
Qed.

(** ** The loop over the nodes *)

Lemma insert_node_exec_extends node new_val next ext g r g' :
  insert_node node new_val next ext g = (r, g') → extends g g'.
Proof.
  intros H. pose proof (insert_node_extends node new_val next ext g) as He.
  unfold exec in He. by rewrite H in He.
Qed.

Lemma scan_edges_keys segment nodes :
  ∀ ks g ks' g',
    sound g →
    (∀ k, k ∈ ks → is_Some (_directed_graph g !! k)) →
    scan_edges segment nodes ks g = (Return ks', g') →
    ∀ k, k ∈ ks' → is_Some (_directed_graph g' !! k).
Proof.
  induction nodes as [|node nodes IH]; intros ks g ks' g' Hg Hks; simpl.
  { by intros [= <- <-]. }
  destruct (_directed_graph g !! node) as [n|] eqn:En;
    [|by rewrite (bind_Raise _ _ _ _ _ (deref_None _ _ En))].
  rewrite (bind_Return _ _ _ _ _ (deref_Some _ _ _ En)).
  destruct (adj_lst n) as [|next ?] eqn:Ea; [done|].
  destruct (_directed_graph g !! next) as [nn|] eqn:Enn;
    [|by rewrite (bind_Raise _ _ _ _ _ (deref_None _ _ Enn))].
  rewrite (bind_Return _ _ _ _ _ (deref_Some _ _ _ Enn)).
  destruct (intersect_line2d_infinite _ _) as [int_pt|]; [|by apply IH].
  destruct (point_bool int_pt); [|by apply IH].
  destruct Hg as [Hwf Hcl].
  destruct (insert_node_ok node n next nn int_pt (Some false) g Hwf Hcl En Enn)
    as (g1 & Hrun & Hwf1 & Hcl1 & Hnew & _ & _).
  rewrite (bind_Return _ _ _ _ _ Hrun). apply IH; [done|].
  intros k [Hk| ->%list_elem_of_singleton]%elem_of_app; [|done].
  eapply extends_is_Some; [by eapply insert_node_exec_extends | by apply Hks].
Qed.

Lemma scan_edges_total segment nodes :
  ∀ ks g,
    sound g → all_adjacent g →
    (∀ k, k ∈ nodes → is_Some (_directed_graph g !! k)) →
    ∃ ks' g', scan_edges segment nodes ks g = (Return ks', g') ∧
              all_adjacent g'.
Proof.
  induction nodes as [|node nodes IH]; intros ks g Hg Hadj Hnodes; simpl.
  { by eexists _, _. }
  destruct (Hnodes node) as [n En]; [by left|].
  rewrite (bind_Return _ _ _ _ _ (deref_Some _ _ _ En)).
  destruct (adj_lst n) as [|next ?] eqn:Ea; [by destruct (Hadj _ _ En)|].
  destruct Hg as [Hwf Hcl].
  destruct (Hcl node n next En) as [nn Enn]; [rewrite Ea; by left|].
  rewrite (bind_Return _ _ _ _ _ (deref_Some _ _ _ Enn)).
  assert (∀ k, k ∈ nodes → is_Some (_directed_graph g !! k)) as Hrest.
  { intros k Hk. apply Hnodes. by right. }
  destruct (intersect_line2d_infinite _ _) as [int_pt|]; [|by apply IH].
  destruct (point_bool int_pt); [|by apply IH].
  destruct (insert_node_ok node n next nn int_pt (Some false) g Hwf Hcl En Enn)
    as (g1 & Hrun & Hwf1 & Hcl1 & Hnew & Hadj1 & _).
  rewrite (bind_Return _ _ _ _ _ Hrun). apply IH; [done | by apply Hadj1 |].
  intros k Hk.
  eapply extends_is_Some; [by eapply insert_node_exec_extends | by apply Hrest].
Qed.

Lemma scan_edges_empty segment nodes x nx :
  ∀ ks g,
    sound g →
    (∀ k, k ∈ nodes → is_Some (_directed_graph g !! k)) →
    x ∈ nodes →
    _directed_graph g !! x = Some nx → adj_lst nx = [] →
    (∀ s p, intersect_line2d_infinite s segment = Some p →
       point_bool p = true → _vector2hash p (_tol g) ≠ x) →
    eval (scan_edges segment nodes ks) g = Raise IndexError.
Proof.
  induction nodes as [|node nodes IH]; intros ks g Hg Hnodes Hx Ex Hnx Hmiss.
  { by apply elem_of_nil in Hx. }
  simpl. destruct (Hnodes node) as [n En]; [by left|].
  unfold eval. rewrite (bind_Return _ _ _ _ _ (deref_Some _ _ _ En)).
  destruct (adj_lst n) as [|next ?] eqn:Ea; [done|].
  assert (node ≠ x) as Hne by (intros ->; congruence).
  apply elem_of_cons in Hx as [Hx|Hx]; [done|].
  destruct Hg as [Hwf Hcl].
  destruct (Hcl node n next En) as [nn Enn]; [rewrite Ea; by left|].
  rewrite (bind_Return _ _ _ _ _ (deref_Some _ _ _ Enn)).
  assert (∀ k, k ∈ nodes → is_Some (_directed_graph g !! k)) as Hrest.
  { intros k Hk. apply Hnodes. by right. }
  destruct (intersect_line2d_infinite _ _) as [int_pt|] eqn:Ei;
    [|by apply IH].
  destruct (point_bool int_pt) eqn:Eb; [|by apply IH].
  destruct (insert_node_ok node n next nn int_pt (Some false) g Hwf Hcl En Enn)
    as (g1 & Hrun & Hwf1 & Hcl1 & Hnew & _ & Hsame).
  rewrite (bind_Return _ _ _ _ _ Hrun).
  pose proof (insert_node_exec_extends _ _ _ _ _ _ _ Hrun) as Hext.
  apply IH; [done | | done | | done |].
  - intros k Hk. eapply extends_is_Some; [done | by apply Hrest].
  - rewrite Hsame; [done | done |]. intros ->. by eapply Hmiss.
  - destruct Hext as (-> & _). done.
Qed.

(** ** Sorting *)

Lemma insert_sorted_perm {A} (le : A → A → bool) a l :
  insert_sorted le a l ≡ₚ a :: l.
Proof.
  induction l as [|b l IH]; simpl; [done|].
  destruct (le a b); [done|]. rewrite IH. apply Permutation_swap.
Qed.

Lemma sorted_perm {A} (le : A → A → bool) l : sorted le l ≡ₚ l.
Proof.
  induction l as [|a l IH]; simpl; [done|].
  by rewrite insert_sorted_perm, IH.
Qed.

Lemma insert_sorted_sorted {A} (le : A → A → bool) a l :
  (∀ x y, le x y = false → le y x = true) →
  (∀ x y z, le x y = true → le y z = true → le x z = true) →
  StronglySorted (λ x y, le x y = true) l →
  StronglySorted (λ x y, le x y = true) (insert_sorted le a l).
Proof.
  intros Htot Htrans. induction 1 as [|b l Hl IH Hb]; simpl.
  { repeat constructor. }
  destruct (le a b) eqn:E.
  - constructor; [by constructor|]. constructor; [done|].
    eapply Forall_impl; [exact Hb|]. intros x Hx. by eapply Htrans.
  - constructor; [done|].
    rewrite insert_sorted_perm. constructor; [by apply Htot | done].
Qed.

Lemma sorted_sorted {A} (le : A → A → bool) l :
  (∀ x y, le x y = false → le y x = true) →
  (∀ x y z, le x y = true → le y z = true → le x z = true) →
  StronglySorted (λ x y, le x y = true) (sorted le l).
Proof.
  intros Htot Htrans. induction l as [|a l IH]; simpl; [constructor|].
  by apply insert_sorted_sorted.
Qed.

(** A list that is in order already is left as it is. *)
Lemma sorted_id {A} (le : A → A → bool) l :
  StronglySorted (λ x y, le x y = true) l → sorted le l = l.
Proof.
  induction 1 as [|a l Hl IH Ha]; simpl; [done|].
  rewrite IH. destruct l as [|b l]; simpl; [done|].
  by rewrite (Forall_inv Ha).
Qed.

Lemma StronglySorted_weaken {A} (R R' : A → A → Prop) l :
  (∀ x y, R x y → R' x y) → StronglySorted R l → StronglySorted R' l.
Proof.
  intros HR. induction 1 as [|a l Hl IH Ha]; constructor; [done|].
  eapply Forall_impl; [exact Ha | apply HR].
Qed.

Lemma sort_distances_perm ds : sort_distances ds ≡ₚ ds.
Proof. apply sorted_perm. Qed.

Lemma sort_distances_sorted ds :
  StronglySorted (λ a b : nat * Q, (a.2 <= b.2)%Q) (sort_distances ds).
Proof.
  apply (StronglySorted_weaken (λ a b : nat * Q, Qle_bool a.2 b.2 = true)).
  { intros a b. apply Qle_bool_iff. }
  apply (sorted_sorted (λ a b : nat * Q, Qle_bool a.2 b.2)).
  - intros a b Hab. apply Qle_bool_iff.
    apply Qlt_le_weak, Qnot_le_lt. intros Hle.
    apply Qle_bool_iff in Hle. congruence.
  - intros a b c Hab Hbc. apply Qle_bool_iff.
    apply Qle_bool_iff in Hab, Hbc. by eapply Qle_trans.
Qed.

Lemma elem_of_ordered_nodes g k :
  k ∈ ordered_nodes g ↔ is_Some (_directed_graph g !! k).
Proof.
  unfold ordered_nodes. rewrite sorted_perm, list_elem_of_fmap. split.
  - intros ([k' n] & -> & Hin). apply elem_of_map_to_list in Hin.
    by eexists.
  - intros [n Hn]. exists (k, n). split; [done|].
    by apply elem_of_map_to_list.
Qed.

(** ** Measuring and joining the intersection nodes *)

Lemma measure_loop_run k0 n keys :
  ∀ i ds g,
    _directed_graph g !! k0 = Some n →
    (∀ k, k ∈ keys → is_Some (_directed_graph g !! k)) →
    measure_loop n i keys ds g = (Return (ds ++ measures g k0 i keys), g).
Proof.
  induction keys as [|k keys IH]; intros i ds g Hn Hkeys; simpl.
  { by rewrite app_nil_r. }
  destruct (Hkeys k) as [nk Hk]; [by left|].
  rewrite (bind_Return _ _ _ _ _ (deref_Some _ _ _ Hk)).
  rewrite IH; [|done|intros k' Hk'; apply Hkeys; by right].
  rewrite <- app_assoc. simpl. unfold distance_from. rewrite Hn, Hk.
  by rewrite Nat.add_1_r.
Qed.

Lemma measures_index g k0 keys :
  ∀ i d, d ∈ measures g k0 i keys → (i < d.1 ≤ i + length keys)%nat.
Proof.
  induction keys as [|k keys IH]; intros i d; simpl.
  { by intros ?%elem_of_nil. }
  intros [->|Hd]%elem_of_cons; simpl; [lia|].
  apply IH in Hd. lia.
Qed.

Lemma keys_at_measures g k0 keys :
  ∀ pre i, length pre = S i →
    keys_at (pre ++ keys) (measures g k0 i keys) = keys.
Proof.
  unfold keys_at.
  induction keys as [|k keys IH]; intros pre i Hlen; simpl; [done|].
  rewrite lookup_app_r by lia. rewrite Hlen, Nat.sub_diag. simpl. f_equal.
  rewrite (cons_middle k pre keys), app_assoc. apply IH.
  rewrite length_app. simpl. lia.
Qed.

Lemma keys_at_distances g ks : keys_at ks (distances_of g ks) = ks.
Proof.
  destruct ks as [|k0 tail]; [done|].
  unfold distances_of, keys_at. simpl. f_equal.
  apply (keys_at_measures g k0 tail [k0] 0). done.
Qed.

Lemma distances_index g ks d :
  d ∈ distances_of g ks → (d.1 < length ks)%nat.
Proof.
  destruct ks as [|k0 tail]; simpl; [by intros ?%elem_of_nil|].
  intros [->|Hd]%elem_of_cons; simpl; [lia|].
  apply measures_index in Hd. lia.
Qed.

Lemma adjacent_in_cons a b l u v :
  adjacent_in (a :: b :: l) u v
  ↔ ((u = a ∧ v = b) ∨ (u = b ∧ v = a)) ∨ adjacent_in (b :: l) u v.
Proof.
  unfold adjacent_in. split.
  - intros [[|i] H]; simpl in H.
    + left. destruct H as [[[= ->] [= ->]]|[[= ->] [= ->]]]; auto.
    + right. by exists i.
  - intros [[[-> ->]|[-> ->]]|[i H]].
    + exists 0%nat. by left.
    + exists 0%nat. by right.
    + by exists (S i).
Qed.

Lemma adjacent_in_short l u v : (length l ≤ 1)%nat → ¬ adjacent_in l u v.
Proof.
  intros Hlen [i H]. destruct l as [|a [|b l]]; simpl in Hlen; [| |lia].
  - by destruct H as [[[=] _]|[[=] _]].
  - destruct i; by destruct H as [[_ [=]]|[_ [=]]].
Qed.

Lemma chain_loop_spec ks ds :
  ∀ g,
    keys_hashed g →
    (∀ k, k ∈ ks → is_Some (_directed_graph g !! k)) →
    (∀ d, d ∈ ds → (d.1 < length ks)%nat) →
    ∃ g', chain_loop ks ds g = (Return tt, g') ∧
          keys_hashed g' ∧
          (∀ u v, has_edge g' u v
                  ↔ has_edge g u v ∨ (u ≠ v ∧ adjacent_in (keys_at ks ds) u v)).
Proof.
  induction ds as [|d1 ds IH]; intros g Hwf Hks Hds.
  { exists g. split_and!; [done | done |]. intros u v.
    split; [by left|]. intros [?|[_ H]]; [done|].
    apply adjacent_in_short in H; [done | simpl; lia]. }
  destruct ds as [|d2 ds].
  { exists g. split_and!; [done | done |]. intros u v.
    split; [by left|]. intros [?|[_ H]]; [done|].
    apply adjacent_in_short in H; [done|].
    unfold keys_at. simpl. destruct (ks !! d1.1); simpl; lia. }
  destruct (lookup_lt_is_Some_2 ks d1.1) as [key1 E1];
    [apply Hds; by left|].
  destruct (lookup_lt_is_Some_2 ks d2.1) as [key2 E2];
    [apply Hds; right; by left|].
  destruct (Hks key1) as [n1 H1]; [by eapply list_elem_of_lookup_2|].
  destruct (Hks key2) as [n2 H2]; [by eapply list_elem_of_lookup_2|].
  destruct (connect_pair_spec key1 n1 key2 n2 g Hwf H1 H2)
    as (g1 & Hrun & Hwf1 & Hkeep & Hedge).
  destruct (IH g1 Hwf1) as (g2 & Hrun2 & Hwf2 & Hedge2).
  { intros k Hk. destruct (Hks k Hk) as [n Hn].
    destruct (Hkeep _ _ Hn) as (n' & Hn' & _). by eexists. }
  { intros d Hd. apply Hds. by right. }
  exists g2. split_and!; [| done |].
  - change (chain_loop ks (d1 :: d2 :: ds))
      with (key1 ← index_key ks d1.1;
            key2 ← index_key ks d2.1;
            connect_pair key1 key2 ;; chain_loop ks (d2 :: ds)).
    unfold index_key. rewrite E1, E2.
    rewrite (bind_Return _ _ g key1 g) by done.
    rewrite (bind_Return _ _ g key2 g) by done.
    by rewrite (bind_Return _ _ _ _ _ Hrun).
  - intros u v. rewrite Hedge2, Hedge.
    assert (keys_at ks (d1 :: d2 :: ds) = key1 :: keys_at ks (d2 :: ds)) as ->.
    { unfold keys_at. simpl. by rewrite E1. }
    assert (keys_at ks (d2 :: ds) = key2 :: keys_at ks ds) as Hk2.
    { unfold keys_at. simpl. by rewrite E2. }
    rewrite Hk2 at 2. rewrite adjacent_in_cons, <- Hk2. ptauto.
Qed.

Lemma add_intersection_edges_spec ks g :
  keys_hashed g →
  (∀ k, k ∈ ks → is_Some (_directed_graph g !! k)) →
  ∃ g', add_intersection_edges ks g = (Return tt, g') ∧
        keys_hashed g' ∧
        (∀ u v, has_edge g' u v
                ↔ has_edge g u v ∨
                  (u ≠ v ∧ adjacent_in (connection_order g ks) u v)).
Proof.
  intros Hwf Hks.
  assert (∀ l, (length l ≤ 1)%nat →
            ∀ u v, has_edge g u v
                   ↔ has_edge g u v ∨ (u ≠ v ∧ adjacent_in l u v)) as Hshort.
  { intros l Hl u v. split; [by left|]. intros [?|[_ H]]; [done|].
    by apply adjacent_in_short in H. }
  destruct ks as [|k0 [|k1 [|k2 ks]]].
  - exists g. split_and!; [done | done |]. apply Hshort. simpl. lia.
  - exists g. split_and!; [done | done |]. apply Hshort. simpl. lia.
  - destruct (Hks k0) as [n0 H0]; [by left|].
    destruct (Hks k1) as [n1 H1]; [right; by left|].
    destruct (connect_pair_spec k0 n0 k1 n1 g Hwf H0 H1)
      as (g1 & Hrun & Hwf1 & _ & Hedge).
    exists g1. split_and!; [done | done |].
    intros u v. rewrite Hedge. simpl. rewrite adjacent_in_cons.
    split; [intros [?|[? ?]]; [by left | right; ptauto]|].
    intros [?|[? [?|H]]]; [by left | by right |].
    apply adjacent_in_short in H; [done | simpl; lia].
  - set (l := k0 :: k1 :: k2 :: ks) in *.
    destruct (Hks k0) as [n0 H0]; [by left|].
    unfold add_intersection_edges. fold l.
    change (match l with
            | [] | [_] => mret ()
            | [k1; k2] => connect_pair k1 k2
            | k0 :: (_ :: _ :: _) as tail =>
                n ← deref k0;
                distances ← measure_loop n 0 tail [(0%nat, 0%Q)];
                chain_loop l (sort_distances distances)
            end)
      with (n ← deref k0;
            distances ← measure_loop n 0 (k1 :: k2 :: ks) [(0%nat, 0%Q)];
            chain_loop l (sort_distances distances)).
    rewrite (bind_Return _ _ _ _ _ (deref_Some _ _ _ H0)).
    rewrite (bind_Return _ _ _ _ _
               (measure_loop_run k0 n0 (k1 :: k2 :: ks) 0 _ g H0
                  ltac:(intros k Hk; apply Hks; by right))).
    change ([(0%nat, 0%Q)] ++ measures g k0 0 (k1 :: k2 :: ks))
      with (distances_of g l).
    apply chain_loop_spec; [done | done |].
    intros d Hd. rewrite sort_distances_perm in Hd.
    by eapply distances_index.
Qed.

(** ** The claims about the graph store and the intersection *)

(** C5. [add_node] is idempotent: after a call of [add_node], the same call
    again returns the same key and leaves the graph exactly as the first
    call left it, so [num_nodes] and every adjacency list are unchanged. *)
Theorem add_node_idempotent val adj ext g :
  let g1 := exec (add_node val adj ext) g in
  eval (add_node val adj ext) g = Return (_vector2hash val (_tol g)) ∧
  add_node val adj ext g1 = (Return (_vector2hash val (_tol g)), g1) ∧
  num_nodes (exec (add_node val adj ext) g1) = num_nodes g1 ∧
  _directed_graph (exec (add_node val adj ext) g1) = _directed_graph g1.
Proof.
  simpl. pose proof (add_node_twice val adj ext g) as H.
  split_and!; [apply add_node_eval | done | |]; unfold exec at 1; by rewrite H.
Qed.

(** C8. No call removes a node: after any sequence of [add_node],
    [insert_node], [remove_adj] and [intersect_graph_with_segment] calls,
    whether they return or raise, every key of the graph is still a key,
    with the same point and order, and [num_nodes] has not decreased;
    [remove_adj] on a node of the graph returns without an exception,
    keeps of its adjacency list the entries whose key is not in the given
    list, and changes nothing else: the keys, [num_nodes] and every other
    node are as before. *)
Theorem nodes_are_never_removed :
  (∀ cs g,
     dom (_directed_graph g) ⊆ dom (_directed_graph (run_calls cs g)) ∧
     (num_nodes g ≤ num_nodes (run_calls cs g))%nat ∧
     extends g (run_calls cs g)) ∧
  (∀ node n adj_key_lst g,
     _directed_graph g !! node = Some n →
     let g' := exec (remove_adj node adj_key_lst) g in
     eval (remove_adj node adj_key_lst) g = Return tt ∧
     _directed_graph g'
     = <[node := set_adj_lst (filter (λ k, k ∉ adj_key_lst) (adj_lst n)) n]>
         (_directed_graph g) ∧
     dom (_directed_graph g') = dom (_directed_graph g) ∧
     num_nodes g' = num_nodes g ∧
     ∀ k, k ≠ node → _directed_graph g' !! k = _directed_graph g !! k).
Proof.
  split.
  - intros cs g. pose proof (run_calls_extends cs g) as He.
    split_and!; [| by destruct He as (_ & ? & _) | done].
    intros k [n Hk]%elem_of_dom. apply elem_of_dom.
    by eapply extends_is_Some; [|eexists].
  - intros node n ks g Hn. simpl. unfold exec, eval.
    rewrite (remove_adj_run _ _ _ _ Hn). simpl.
    assert (alter
              (set_adj_lst
                 (filter (λ k, k ∉ (list_to_set ks : gset string)) (adj_lst n)))
              node (_directed_graph g)
            = <[node := set_adj_lst (filter (λ k, k ∉ ks) (adj_lst n)) n]>
                (_directed_graph g)) as ->.
    { apply map_eq. intros i. destruct (decide (i = node)) as [->|]; lookups;
        [|done].
      rewrite Hn. simpl. do 2 f_equal. apply list_filter_iff. intros k.
      by rewrite elem_of_list_to_set. }
    split_and!; [done | done | | done |].
    + rewrite dom_insert_L. apply elem_of_dom_2 in Hn.
      apply set_eq. intros k. rewrite elem_of_union, elem_of_singleton.
      split; [intros [->|?]; done | by right].
    + intros k Hk. by lookups.
Qed.

(** C9. After any sequence of [add_node], [insert_node], [remove_adj] and
    [intersect_graph_with_segment] calls on a new graph, whatever points and
    node references the caller passes and whether the calls return or
    raise, no node is in its own adjacency list and no adjacency list has
    the same key twice; each such call keeps this property of a graph. *)
Theorem no_self_loop_no_repeated_adjacency :
  (∀ tol cs, no_loops_no_repeats (run_calls cs (__init__ tol))) ∧
  (∀ c g, no_loops_no_repeats g → no_loops_no_repeats (exec (run_call c) g)).
Proof.
  split.
  - intros tol cs. apply run_calls_no_loops.
    intros k n. simpl. by rewrite lookup_empty.
  - intros c g. apply run_call_no_loops.
Qed.

Lemma intersect_run segment g ks g1 :
  sound g →
  scan_edges segment (ordered_nodes g) [] g = (Return ks, g1) →
  keys_hashed g1 ∧
  (∀ k, k ∈ ks → is_Some (_directed_graph g1 !! k)) ∧
  intersect_graph_with_segment segment g = add_intersection_edges ks g1.
Proof.
  intros Hg Hscan. split_and!.
  - pose proof (scan_edges_sound segment (ordered_nodes g) [] g Hg) as Hs.
    unfold exec in Hs. rewrite Hscan in Hs. by destruct Hs.
  - eapply scan_edges_keys; [done | | done]. by intros k ?%elem_of_nil.
  - unfold intersect_graph_with_segment.
    rewrite (bind_Return _ _ g g g) by done.
    by rewrite (bind_Return _ _ _ _ _ Hscan).
Qed.

(** C4. When [intersect_graph_with_segment] has spliced the intersection
    points with keys [ks] into the graph, leaving [g1], it returns, and the
    adjacencies of the final graph are those of [g1] and, in both
    directions, those between different nodes that are next to each other
    in the connection order.  With two keys the order is the two keys: two
    different intersection nodes are joined in both directions.  With fewer
    than two keys the graph is [g1].  With more than two, the order lists
    the keys by their distance from the first key, nearest first; each node
    is joined in both directions to a different node that follows it in
    the order and, the keys being distinct, two nodes that are not
    neighbours in the order get no new adjacency: the new connections are a
    chain, not a complete graph. *)
Theorem intersections_are_chained segment g ks g1 :
  sound g →
  scan_edges segment (ordered_nodes g) [] g = (Return ks, g1) →
  ∃ g2,
    intersect_graph_with_segment segment g = (Return tt, g2) ∧
    (∀ u v, has_edge g2 u v
            ↔ has_edge g1 u v ∨
              (u ≠ v ∧ adjacent_in (connection_order g1 ks) u v)) ∧
    (∀ k1 k2, ks = [k1; k2] → k1 ≠ k2 → joined g2 k1 k2) ∧
    ((length ks ≤ 1)%nat → g2 = g1) ∧
    ((2 < length ks)%nat →
       let ds := sort_distances (distances_of g1 ks) in
       let order := connection_order g1 ks in
       ds ≡ₚ distances_of g1 ks ∧
       StronglySorted (λ a b : nat * Q, (a.2 <= b.2)%Q) ds ∧
       order = keys_at ks ds ∧
       order ≡ₚ ks ∧
       (∀ i u v, order !! i = Some u → order !! S i = Some v → u ≠ v →
          joined g2 u v) ∧
       (NoDup ks →
        ∀ i j u v, order !! i = Some u → order !! j = Some v →
          (S i < j)%nat → ¬ has_edge g1 u v → ¬ has_edge g2 u v)).
Proof.
  intros Hg Hscan.
  destruct (intersect_run segment g ks g1 Hg Hscan) as (Hwf1 & Hks & Hrun).
  destruct (add_intersection_edges_spec ks g1 Hwf1 Hks)
    as (g2 & Hrun2 & _ & Hedge).
  exists g2. rewrite Hrun. split_and!; [done | done | | |].
  - intros k1 k2 -> Hne. split; apply Hedge; right; simpl.
    + split; [done|]. exists 0%nat. by left.
    + split; [done|]. exists 0%nat. by right.
  - intros Hlen.
    destruct ks as [|k0 [|k1 ks]]; simpl in Hlen; [| |lia];
      simpl in Hrun2; by injection Hrun2 as <-.
  - intros Hlen ds order.
    assert (order = keys_at ks ds) as Horder.
    { unfold order, connection_order.
      destruct ks as [|k0 [|k1 [|k2 ks]]]; simpl in Hlen; try lia. done. }
    assert (order ≡ₚ ks) as Hperm.
    { rewrite Horder. unfold keys_at, ds.
      rewrite sort_distances_perm.
      by rewrite <- (keys_at_distances g1 ks) at 2. }
    split_and!; [apply sort_distances_perm | apply sort_distances_sorted
                 | done | done | |].
    + intros i u v Hu Hv Hne. split; apply Hedge; right.
      * split; [done|]. exists i. by left.
      * split; [done|]. exists i. by right.
    + intros Hnd i j u v Hu Hv Hij Hno [He|[_ [i' He]]]%Hedge; [done|].
      assert (NoDup order) as Hnd' by by rewrite Hperm.
      fold order in He. destruct He as [[Hu' Hv']|[Hv' Hu']].
      * pose proof (NoDup_lookup _ _ _ _ Hnd' Hu Hu').
        pose proof (NoDup_lookup _ _ _ _ Hnd' Hv Hv'). lia.
      * pose proof (NoDup_lookup _ _ _ _ Hnd' Hu Hu').
        pose proof (NoDup_lookup _ _ _ _ Hnd' Hv Hv'). lia.
Qed.

Lemma scan_edges_app segment pre post :
  ∀ ks g,
    scan_edges segment (pre ++ post) ks g
    = match scan_edges segment pre ks g with
      | (Return ks', g') => scan_edges segment post ks' g'
      | (Raise e, g') => (Raise e, g')
      end.
Proof.
  induction pre as [|node pre IH]; intros ks g; [done|].
  simpl. munfold.
  destruct (_directed_graph g !! node) as [n|]; [|done].
  destruct (adj_lst n) as [|next ?]; [done|].
  destruct (_directed_graph g !! next) as [nn|]; [|done].
  destruct (intersect_line2d_infinite _ _) as [int_pt|]; [|apply IH].
  destruct (point_bool int_pt); [|apply IH].
  destruct (insert_node node int_pt next (Some false) g) as [[k|e] g1];
    [apply IH | done].
Qed.

(** The loop over the nodes raises [IndexError] or returns; when it
    returns, a node that had an empty adjacency list, and whose key is not
    among the keys that the loop has added, is as it was. *)
Lemma scan_edges_outcome segment nodes :
  ∀ ks g,
    sound g →
    (∀ k, k ∈ nodes → is_Some (_directed_graph g !! k)) →
    eval (scan_edges segment nodes ks) g = Raise IndexError ∨
    ∃ new g',
      scan_edges segment nodes ks g = (Return (ks ++ new), g') ∧
      ∀ x nx, _directed_graph g !! x = Some nx → adj_lst nx = [] →
              x ∉ new → _directed_graph g' !! x = Some nx.
Proof.
  induction nodes as [|node nodes IH]; intros ks g Hg Hnodes.
  { right. exists [], g. split; [by rewrite app_nil_r | done]. }
  simpl. destruct (Hnodes node) as [n En]; [by left|].
  unfold eval. rewrite (bind_Return _ _ _ _ _ (deref_Some _ _ _ En)).
  destruct (adj_lst n) as [|next ?] eqn:Ea; [by left|].
  pose proof Hg as [Hwf Hcl].
  destruct (Hcl node n next En) as [nn Enn]; [rewrite Ea; by left|].
  rewrite (bind_Return _ _ _ _ _ (deref_Some _ _ _ Enn)).
  assert (∀ k, k ∈ nodes → is_Some (_directed_graph g !! k)) as Hrest.
  { intros k Hk. apply Hnodes. by right. }
  destruct (intersect_line2d_infinite _ _) as [int_pt|];
    [|by apply IH].
  destruct (point_bool int_pt); [|by apply IH].
  destruct (insert_node_ok node n next nn int_pt (Some false) g Hwf Hcl En Enn)
    as (g1 & Hrun & Hwf1 & Hcl1 & Hnew & _ & Hsame).
  rewrite (bind_Return _ _ _ _ _ Hrun).
  pose proof (insert_node_exec_extends _ _ _ _ _ _ _ Hrun) as Hext.
  destruct (IH (ks ++ [_vector2hash int_pt (_tol g)]) g1) as
    [Hraise|(new & g' & Hscan & Hframe)]; [done | | by left |].
  { intros k Hk. eapply extends_is_Some; [done | by apply Hrest]. }
  right. exists (_vector2hash int_pt (_tol g) :: new), g'. split.
  - rewrite Hscan. by rewrite <- app_assoc.
  - intros x nx Hx Hnx [Hne Hout]%not_elem_of_cons.
    apply Hframe; [|done | done].
    rewrite Hsame; [done | | done].
    intros ->. rewrite En in Hx. injection Hx as ->. congruence.
Qed.

(** C10, as amended.  On a graph whose nodes all have an adjacency,
    [intersect_graph_with_segment] returns.  On a graph with a node [x]
    whose adjacency list is empty it raises [IndexError], and does not
    skip the node, whenever the key of [x] is not among the keys of the
    intersection points that the loop splices at the nodes before [x]. *)
Theorem intersect_needs_adjacency segment g :
  sound g →
  (all_adjacent g →
   eval (intersect_graph_with_segment segment) g = Return tt) ∧
  (∀ x nx pre post,
     ordered_nodes g = pre ++ x :: post →
     _directed_graph g !! x = Some nx → adj_lst nx = [] →
     (∀ ks g1, scan_edges segment pre [] g = (Return ks, g1) → x ∉ ks) →
     eval (intersect_graph_with_segment segment) g = Raise IndexError).
Proof.
  intros Hg. split.
  - intros Hadj.
    destruct (scan_edges_total segment (ordered_nodes g) [] g Hg Hadj)
      as (ks & g1 & Hscan & _).
    { intros k. apply elem_of_ordered_nodes. }
    destruct (intersect_run segment g ks g1 Hg Hscan) as (Hwf1 & Hks & Hrun).
    destruct (add_intersection_edges_spec ks g1 Hwf1 Hks)
      as (g2 & Hrun2 & _).
    unfold eval. by rewrite Hrun, Hrun2.
  - intros x nx pre post Hord Hx Hnx Hmiss.
    unfold intersect_graph_with_segment.
    rewrite (eval_bind_Return _ _ g g) by done.
    apply eval_bind_Raise. change (exec get g) with g.
    rewrite Hord. unfold eval. rewrite scan_edges_app.
    destruct (scan_edges_outcome segment pre [] g Hg) as
      [Hraise|(new & g' & Hscan & Hframe)].
    { intros k Hk. apply elem_of_ordered_nodes. rewrite Hord.
      apply elem_of_app. by left. }
    + rewrite (run_eq (scan_edges segment pre []) g), Hraise. done.
    + rewrite Hscan. simpl.
      assert (_directed_graph g' !! x = Some nx) as Hx'.
      { apply Hframe; [done | done |]. by apply (Hmiss _ g'). }
      rewrite (bind_Return _ _ _ _ _ (deref_Some _ _ _ Hx')).
      by rewrite Hnx.
Qed.

(** ** A graph from a loop of points *)

Lemma add_node_after_make val adj ext g :
  add_node val adj ext
    (exec (_check_and_make_node (_vector2hash val (_tol g)) val ext) g)
  = add_node val adj ext g.
Proof.
  rewrite !add_node_run.
  assert (_tol (exec (_check_and_make_node (_vector2hash val (_tol g)) val ext)
                  g) = _tol g) as -> by apply always_tol, cmn_extends.
  cbv zeta.
  by rewrite (cmn_present _ _ _ _ _ (cmn_lookup _ _ _ _)).
Qed.

(** One step of the loop of [from_point_array]: the point is in the graph
    with no adjacency yet, and its successor is new. *)
Lemma add_node_next p i e q g :
  _directed_graph g !! _vector2hash p (_tol g) = Some (mk_Node p i [] e) →
  _directed_graph g !! _vector2hash q (_tol g) = None →
  exec (add_node p [q] (Some true)) g
  = mkGraph
      (<[_vector2hash p (_tol g) :=
           mk_Node p i [_vector2hash q (_tol g)] (Some true)]>
         (<[_vector2hash q (_tol g) := mk_Node q (num_nodes g) [] None]>
            (_directed_graph g)))
      (_root g) (_tol g) (S (num_nodes g)).
Proof.
  intros Hp Hq. rewrite add_node_single. cbv zeta. rewrite Hp, Hq. simpl.
  rewrite bool_decide_eq_false_2.
  - f_equal; [by rewrite Nat.add_0_r | lia].
  - intros [Hk|Hk]; [congruence | by apply elem_of_nil in Hk].
Qed.

Lemma add_path_run rest :
  ∀ p i e g,
    _directed_graph g !! _vector2hash p (_tol g) = Some (mk_Node p i [] e) →
    num_nodes g = S i →
    NoDup ((λ q, _vector2hash q (_tol g)) <$> (p :: rest)) →
    (∀ q, q ∈ rest → _directed_graph g !! _vector2hash q (_tol g) = None) →
    ∃ g',
      add_path (p :: rest) g = (Return tt, g') ∧
      _tol g' = _tol g ∧ _root g' = _root g ∧
      num_nodes g' = (S i + length rest)%nat ∧
      (∀ k, k ∉ (λ q, _vector2hash q (_tol g)) <$> (p :: rest) →
         _directed_graph g' !! k = _directed_graph g !! k) ∧
      (∀ j q q', (p :: rest) !! j = Some q → (p :: rest) !! S j = Some q' →
         _directed_graph g' !! _vector2hash q (_tol g)
         = Some (mk_Node q (i + j)
                   [_vector2hash q' (_tol g)] (Some true))) ∧
      (∀ q, last (p :: rest) = Some q →
         _directed_graph g' !! _vector2hash q (_tol g)
         = Some (mk_Node q (i + length rest) []
                   (match rest with [] => e | _ => None end))).
Proof.
  induction rest as [|q rest IH]; intros p i e g Hp Hnum Hnd Hfresh.
  { exists g. simpl. split_and!; [done | done | done | lia | done | |].
    - intros [|j] q q'; simpl; [done|]. by rewrite lookup_nil.
    - intros q [= <-]. by rewrite Nat.add_0_r. }
  set (h := λ q, _vector2hash q (_tol g)) in *.
  apply NoDup_cons in Hnd as [Hpnot Hnd].
  assert (h p ≠ h q) as Hpq.
  { intros E. apply Hpnot. rewrite E. by left. }
  assert (_directed_graph g !! h q = None) as Hq by (apply Hfresh; by left).
  set (g1 := exec (add_node p [q] (Some true)) g).
  assert (g1 = mkGraph
                 (<[h p := mk_Node p i [h q] (Some true)]>
                    (<[h q := mk_Node q (num_nodes g) [] None]>
                       (_directed_graph g)))
                 (_root g) (_tol g) (S (num_nodes g))) as Hg1
    by apply (add_node_next p i e q g Hp Hq).
  assert (_tol g1 = _tol g) as Htol1 by by rewrite Hg1.
  destruct (IH q (S i) None g1) as (g' & Hrun & Htol & Hroot & Hn' & Hout & Hin
                                    & Hlast).
  { rewrite Htol1. fold (h q). rewrite Hg1. simpl. lookups.
    by rewrite Hnum. }
  { rewrite Hg1. simpl. lia. }
  { by rewrite Htol1. }
  { intros q' Hq'. rewrite Htol1. fold (h q'). rewrite Hg1. simpl.
    assert (h q' ≠ h q).
    { intros E. apply NoDup_cons in Hnd as [Hqnot _]. apply Hqnot.
      rewrite <- E. by apply list_elem_of_fmap_2. }
    assert (h q' ≠ h p).
    { intros E. apply Hpnot. rewrite <- E. right.
      by apply list_elem_of_fmap_2. }
    lookups. apply Hfresh. by right. }
  rewrite Htol1 in *. fold h in Hout, Hin, Hlast.
  exists g'. split_and!.
  - change (add_path (p :: q :: rest))
      with (add_node p [q] (Some true) ;; add_path (q :: rest)).
    by rewrite (bind_Return _ _ _ _ _ (add_node_run' _ _ _ _)).
  - done.
  - by rewrite Hroot, Hg1.
  - rewrite Hn'. simpl. lia.
  - intros k Hk. rewrite Hout.
    + rewrite Hg1. simpl.
      assert (k ≠ h p) by (intros ->; apply Hk; by left).
      assert (k ≠ h q) by (intros ->; apply Hk; right; by left).
      by lookups.
    + intros Hk'. apply Hk. by right.
  - intros [|j] q1 q2.
    + intros [= <-] [= <-]. rewrite Hout; [|exact Hpnot].
      rewrite Hg1. simpl. fold (h p). lookups. by rewrite Nat.add_0_r.
    + intros H1 H2. rewrite (Hin j q1 q2 H1 H2).
      by rewrite Nat.add_succ_comm.
  - intros q1 Hq1. rewrite (Hlast q1 Hq1).
    rewrite Nat.add_succ_comm. by destruct rest.
Qed.

Lemma loop_nodes_fst tol pts :
  (loop_nodes tol pts).*1 = (λ p, _vector2hash p tol) <$> pts.
Proof. unfold loop_nodes. rewrite fmap_imap. apply imap_const. Qed.

Lemma loop_nodes_lookup tol pts j :
  loop_nodes tol pts !! j
  = (λ p, (_vector2hash p tol,
           mk_Node p j
             (match pts !! (S j `mod` length pts)%nat with
              | Some q => [_vector2hash q tol]
              | None => []
              end)
             (Some true))) <$> pts !! j.
Proof. unfold loop_nodes. apply list_lookup_imap. Qed.

Lemma list_to_map_loop_nodes tol pts (m : gmap string _Node) :
  NoDup ((λ p, _vector2hash p tol) <$> pts) →
  (∀ k, k ∉ (λ p, _vector2hash p tol) <$> pts → m !! k = None) →
  (∀ j p, pts !! j = Some p →
     m !! _vector2hash p tol
     = Some (mk_Node p j
               (match pts !! (S j `mod` length pts)%nat with
                | Some q => [_vector2hash q tol]
                | None => []
                end)
               (Some true))) →
  m = list_to_map (loop_nodes tol pts).
Proof.
  intros Hnd Hout Hin. apply map_eq. intros k.
  destruct (decide (k ∈ (λ p, _vector2hash p tol) <$> pts)) as [Hk|Hk].
  - apply list_elem_of_fmap in Hk as (p & -> & Hp).
    apply list_elem_of_lookup in Hp as [j Hj].
    rewrite (Hin j p Hj). symmetry.
    apply elem_of_list_to_map; [by rewrite loop_nodes_fst|].
    apply list_elem_of_lookup. exists j.
    by rewrite loop_nodes_lookup, Hj.
  - rewrite (Hout k Hk). symmetry.
    apply not_elem_of_list_to_map. by rewrite loop_nodes_fst.
Qed.

Lemma NoDup_fmap_lookup_inj {A B} (f : A → B) l i j x y :
  NoDup (f <$> l) → l !! i = Some x → l !! j = Some y → f x = f y → i = j.
Proof.
  intros Hnd Hi Hj E. apply (NoDup_lookup (f <$> l) i j (f x) Hnd).
  - by rewrite list_lookup_fmap, Hi.
  - by rewrite list_lookup_fmap, Hj, E.
Qed.

Lemma from_point_array_run pts :
  (2 ≤ length pts)%nat →
  NoDup ((λ p, _vector2hash p default_tol) <$> pts) →
  from_point_array pts true
  = Return (mkGraph (list_to_map (loop_nodes default_tol pts)) None
              default_tol (length pts)).
Proof.
  intros Hlen Hnd.
  destruct pts as [|p0 [|p1 rest]]; simpl in Hlen; [lia | lia |].
  set (pts := p0 :: p1 :: rest) in *.
  set (h := λ p, _vector2hash p default_tol) in *.
  set (g0 := exec (_check_and_make_node (h p0) p0 (Some true))
               (__init__ default_tol)).
  assert (g0 = mkGraph {[h p0 := mk_Node p0 0 [] (Some true)]} None
                 default_tol 1) as Hg0 by done.
  destruct (add_path_run (p1 :: rest) p0 0%nat (Some true) g0)
    as (g' & Hrun & Htol & Hroot & Hnum & Hout & Hin & Hlast).
  { rewrite Hg0. simpl. fold (h p0). by rewrite lookup_singleton_eq. }
  { by rewrite Hg0. }
  { by rewrite Hg0. }
  { intros q Hq. rewrite Hg0. simpl. fold (h q).
    rewrite lookup_singleton_ne; [done|].
    intros E. apply list_elem_of_lookup in Hq as [j Hj].
    by pose proof (NoDup_fmap_lookup_inj h pts 0 (S j) p0 q Hnd eq_refl Hj E). }
  assert (_tol g0 = default_tol) as Htol0 by by rewrite Hg0.
  rewrite Htol0 in *. fold h in Hout, Hin, Hlast. fold pts in Hout, Hin, Hlast.
  assert (add_path pts (__init__ default_tol) = (Return tt, g')) as Hrun'.
  { rewrite <- Hrun. unfold pts.
    change (add_path (p0 :: p1 :: rest))
      with (add_node p0 [p1] (Some true) ;; add_path (p1 :: rest)).
    unfold mbind, M_bind, bind.
    by rewrite <- (add_node_after_make p0 [p1] (Some true)
                    (__init__ default_tol)). }
  destruct (last pts) as [pl|] eqn:El;
    [|rewrite last_lookup in El; apply lookup_ge_None in El; simpl in El; lia].
  specialize (Hlast pl eq_refl). simpl in Hlast.
  assert (pts !! (length rest + 1)%nat = Some pl) as Hl.
  { rewrite last_lookup in El. rewrite <- El. f_equal. simpl. lia. }
  assert (h pl ≠ h p0) as Hne.
  { intros E.
    pose proof (NoDup_fmap_lookup_inj h pts _ 0 pl p0 Hnd Hl eq_refl E). lia. }
  assert (_directed_graph g' !! h p0
          = Some (mk_Node p0 0 [h p1] (Some true))) as H0
    by apply (Hin 0%nat p0 p1 eq_refl eq_refl).
  pose proof (add_node_single pl p0 (Some true) g') as Hfin.
  cbv zeta in Hfin. rewrite Htol in Hfin. fold (h pl) (h p0) in Hfin, Hlast.
  rewrite Hlast, H0 in Hfin. simpl in Hfin.
  rewrite bool_decide_eq_false_2 in Hfin
    by (intros [?|?%elem_of_nil]; [congruence | done]).
  remember (list_to_map (loop_nodes default_tol pts)) as m eqn:Hm.
  unfold from_point_array.
  rewrite (bind_Return _ _ _ _ _ Hrun'). fold pts. rewrite El. simpl.
  rewrite (bind_Return _ _ _ _ _ (add_node_run' _ _ _ _)). simpl.
  f_equal. rewrite Hfin. rewrite Hroot, Hnum, Hg0. simpl.
  f_equal; [|lia]. subst m.
  apply list_to_map_loop_nodes; [done | |].
  - intros k Hk. fold h in Hk.
    rewrite lookup_insert_ne
      by (intros <-; apply Hk;
          by eapply (list_elem_of_fmap_2 h), list_elem_of_lookup_2).
    rewrite Hout by done. rewrite Hg0. simpl.
    rewrite lookup_singleton_ne; [done|].
    intros <-. apply Hk. apply (list_elem_of_fmap_2 h). by left.
  - intros j p Hj. fold (h p).
    destruct (decide (j = (length rest + 1)%nat)) as [->|Hjne].
    + rewrite Hl in Hj. injection Hj as <-. rewrite lookup_insert_eq.
      replace (S (length rest + 1) `mod` length pts)%nat with 0%nat.
      * simpl. unfold set_exterior, with_adjacent, set_adj_lst. simpl.
        by rewrite Nat.add_1_r.
      * replace (length pts) with (S (length rest + 1)) by (simpl; lia).
        symmetry. apply Nat.Div0.mod_same.
    + assert (is_Some (pts !! S j)) as [q Hq].
      { apply lookup_lt_is_Some. apply lookup_lt_Some in Hj.
        simpl in *. lia. }
      assert (h p ≠ h pl) as Hpne.
      { intros E.
        pose proof (NoDup_fmap_lookup_inj h pts _ _ p pl Hnd Hj Hl E). lia. }
      rewrite lookup_insert_ne by done. unfold h.
      rewrite (Hin j p q Hj Hq).
      rewrite Nat.mod_small by (apply lookup_lt_Some in Hq; simpl in *; lia).
      by rewrite Hq.
Qed.

Lemma StronglySorted_lookup_2 {A} (R : A → A → Prop) l :
  (∀ i j x y, (i < j)%nat → l !! i = Some x → l !! j = Some y → R x y) →
  StronglySorted R l.
Proof.
  induction l as [|a l IH]; intros H; constructor.
  - apply IH. intros i j x y Hij Hi Hj. apply (H (S i) (S j)); [lia | done..].
  - apply Forall_lookup. intros i x Hi. apply (H 0%nat (S i)); [lia | done..].
Qed.

Lemma sorted_agree {A} (f : A → nat) (L : list A) :
  ∀ S, S ≡ₚ L →
    StronglySorted (λ a b, f a ≤ f b)%nat S →
    StronglySorted (λ a b, f a < f b)%nat L →
    S = L.
Proof.
  induction L as [|b L IH]; intros S Hperm HS HL.
  { by apply Permutation_nil_r in Hperm. }
  destruct S as [|a S]; [by apply Permutation_nil_cons in Hperm|].
  apply StronglySorted_inv in HS as [HS Ha].
  apply StronglySorted_inv in HL as [HL Hb].
  assert (a = b) as ->.
  { assert (a ∈ b :: L) as Hain by (rewrite <- Hperm; by left).
    assert (b ∈ a :: S) as Hbin by (rewrite Hperm; by left).
    apply elem_of_cons in Hain as [?|Hain]; [done|].
    apply elem_of_cons in Hbin as [?|Hbin]; [done|].
    rewrite Forall_forall in Ha, Hb.
    specialize (Ha b Hbin). specialize (Hb a Hain). simpl in *. lia. }
  f_equal. apply IH; [by eapply Permutation_cons_inv | done | done].
Qed.

Lemma sorted_unique {A} (f : A → nat) (l L : list A) :
  l ≡ₚ L →
  StronglySorted (λ a b, f a < f b)%nat L →
  sorted (λ a b, bool_decide (f a ≤ f b)%nat) l = L.
Proof.
  intros Hperm HL. apply (sorted_agree f); [by rewrite sorted_perm | | done].
  apply (StronglySorted_weaken
           (λ a b, bool_decide (f a ≤ f b)%nat = true)).
  { intros a b. apply bool_decide_eq_true. }
  apply sorted_sorted.
  - intros a b. rewrite bool_decide_eq_false, bool_decide_eq_true. lia.
  - intros a b c. rewrite !bool_decide_eq_true. lia.
Qed.

Lemma loop_nodes_sorted tol pts :
  StronglySorted (λ a b : string * _Node, _order a.2 < _order b.2)%nat
    (loop_nodes tol pts).
Proof.
  apply StronglySorted_lookup_2. intros i j x y Hij.
  rewrite !loop_nodes_lookup.
  destruct (pts !! i), (pts !! j); simpl; try done.
  by intros [= <-] [= <-].
Qed.

Lemma ordered_nodes_loop tol pts r c :
  NoDup ((λ p, _vector2hash p tol) <$> pts) →
  ordered_nodes (mkGraph (list_to_map (loop_nodes tol pts)) r tol c)
  = (λ p, _vector2hash p tol) <$> pts.
Proof.
  intros Hnd. unfold ordered_nodes. simpl.
  rewrite (sorted_unique (λ a : string * _Node, _order a.2) _
             (loop_nodes tol pts)).
  - apply loop_nodes_fst.
  - apply map_to_list_to_map. by rewrite loop_nodes_fst.
  - apply loop_nodes_sorted.
Qed.

Lemma loop_nodes_map_lookup tol pts j p :
  NoDup ((λ p, _vector2hash p tol) <$> pts) →
  pts !! j = Some p →
  (list_to_map (loop_nodes tol pts) : gmap string _Node)
    !! _vector2hash p tol
  = Some (mk_Node p j
            (match pts !! (S j `mod` length pts)%nat with
             | Some q => [_vector2hash q tol]
             | None => []
             end)
            (Some true)).
Proof.
  intros Hnd Hj. apply elem_of_list_to_map; [by rewrite loop_nodes_fst|].
  apply list_elem_of_lookup. exists j. by rewrite loop_nodes_lookup, Hj.
Qed.

Lemma partial_cycle_matrix_lookup n s i :
  (i < n)%nat →
  partial_cycle_matrix n s !! i
  = Some (if bool_decide (i < s)%nat
          then <[(S i `mod` n)%nat := 1]> (replicate n 0)
          else replicate n 0).
Proof.
  intros Hi. unfold partial_cycle_matrix.
  by rewrite list_lookup_fmap, lookup_seq_lt.
Qed.

Lemma partial_cycle_matrix_length n s : length (partial_cycle_matrix n s) = n.
Proof. unfold partial_cycle_matrix. by rewrite length_fmap, length_seq. Qed.

Lemma partial_cycle_matrix_0 n :
  partial_cycle_matrix n 0 = replicate n (replicate n 0).
Proof.
  apply list_eq. intros i. destruct (decide (i < n)%nat) as [Hi|Hi].
  - rewrite partial_cycle_matrix_lookup by done.
    rewrite bool_decide_eq_false_2 by lia.
    by rewrite lookup_replicate_2.
  - rewrite !lookup_ge_None_2; [done | |].
    + rewrite length_replicate. lia.
    + rewrite partial_cycle_matrix_length. lia.
Qed.

Lemma partial_cycle_matrix_full n : partial_cycle_matrix n n = cycle_matrix n.
Proof.
  apply list_eq. intros i. unfold cycle_matrix.
  destruct (decide (i < n)%nat) as [Hi|Hi].
  - rewrite partial_cycle_matrix_lookup by done.
    rewrite bool_decide_eq_true_2 by done.
    by rewrite list_lookup_fmap, lookup_seq_lt.
  - rewrite !lookup_ge_None_2; [done | |].
    + rewrite length_fmap, length_seq. lia.
    + rewrite partial_cycle_matrix_length. lia.
Qed.

Lemma set_cell_partial n s :
  (s < n)%nat →
  set_cell (partial_cycle_matrix n s) s (S s `mod` n)
  = Return (partial_cycle_matrix n (S s)).
Proof.
  intros Hs. unfold set_cell.
  rewrite partial_cycle_matrix_lookup by done.
  rewrite (bool_decide_eq_false_2 (s < s)%nat) by lia.
  rewrite length_replicate.
  rewrite bool_decide_eq_true_2 by (apply Nat.mod_upper_bound; lia).
  f_equal. apply list_eq. intros i.
  rewrite list_lookup_insert, partial_cycle_matrix_length.
  destruct (decide (i < n)%nat) as [Hi|Hi].
  - rewrite !partial_cycle_matrix_lookup by done.
    destruct (decide (s = i ∧ (s < n)%nat)) as [[-> _]|Hne].
    + by rewrite bool_decide_eq_true_2 by lia.
    + rewrite (bool_decide_ext (i < S s)%nat (i < s)%nat) by lia. done.
  - rewrite decide_False by lia.
    rewrite !lookup_ge_None_2; [done | |];
      rewrite partial_cycle_matrix_length; lia.
Qed.

Lemma fill_rows_loop tol pts r :
  NoDup ((λ p, _vector2hash p tol) <$> pts) →
  let n := length pts in
  let g := mkGraph (list_to_map (loop_nodes tol pts)) r tol n in
  ∀ k s, (s + k = n)%nat →
    fill_rows g ((λ p, _vector2hash p tol) <$> pts)
      (partial_cycle_matrix n s) (seq s k)
    = Return (partial_cycle_matrix n n).
Proof.
  intros Hnd n g. induction k as [|k IH]; intros s Hs; simpl.
  { by replace s with n by lia. }
  assert (s < n)%nat as Hlt by lia.
  destruct (lookup_lt_is_Some_2 pts s Hlt) as [p Hp].
  rewrite list_lookup_fmap, Hp. simpl.
  rewrite (loop_nodes_map_lookup tol pts s p Hnd Hp). simpl.
  assert (S s `mod` n < n)%nat as Hsucc by (apply Nat.mod_upper_bound; lia).
  destruct (lookup_lt_is_Some_2 pts _ Hsucc) as [q Hq].
  fold n. rewrite Hq. simpl.
  rewrite (loop_nodes_map_lookup tol pts _ q Hnd Hq). simpl.
  rewrite set_cell_partial by done. simpl.
  apply IH. lia.
Qed.

Lemma adj_matrix_loop tol pts r :
  NoDup ((λ p, _vector2hash p tol) <$> pts) →
  adj_matrix (mkGraph (list_to_map (loop_nodes tol pts)) r tol (length pts))
  = Return (cycle_matrix (length pts)).
Proof.
  intros Hnd. unfold adj_matrix. rewrite ordered_nodes_loop by done.
  simpl. rewrite <- partial_cycle_matrix_0, <- partial_cycle_matrix_full.
  by apply (fill_rows_loop tol pts r Hnd (length pts) 0).
Qed.

Lemma root_eval g r rest :
  _root g = None → ordered_nodes g = r :: rest → eval root g = Return r.
Proof.
  intros Hr Ho. unfold root, eval.
  rewrite (bind_Return get _ _ _ _ eq_refl). by rewrite Hr, Ho.
Qed.

(** C6. For a list of [N ≥ 2] points whose hash keys at the default
    tolerance are pairwise different, [from_point_array] with [loop=True]
    returns a graph with [num_nodes = N] and [N] nodes, the node of the point
    at index [i] having order [i]; its root is the node of the first point,
    of order 0; and its adjacency matrix is the matrix of one directed
    [N]-cycle, row [i] having its only 1 in column [i + 1], the last row in
    column 0. *)
Theorem closed_loop_is_a_cycle pts :
  (2 ≤ length pts)%nat →
  NoDup ((λ p, _vector2hash p default_tol) <$> pts) →
  ∃ g,
    from_point_array pts true = Return g ∧
    num_nodes g = length pts ∧
    size (_directed_graph g) = length pts ∧
    ordered_nodes g = (λ p, _vector2hash p default_tol) <$> pts ∧
    (∀ i p, pts !! i = Some p →
       ∃ n, _directed_graph g !! _vector2hash p default_tol = Some n ∧
            _order n = i) ∧
    (∃ r nr, eval root g = Return r ∧ head (ordered_nodes g) = Some r ∧
             _directed_graph g !! r = Some nr ∧ _order nr = 0%nat) ∧
    adj_matrix g = Return (cycle_matrix (length pts)).
Proof.
  intros Hlen Hnd. eexists. split; [by apply from_point_array_run|].
  split_and!.
  - done.
  - simpl. rewrite map_size_list_to_map by by rewrite loop_nodes_fst.
    unfold loop_nodes. by rewrite length_imap.
  - by apply ordered_nodes_loop.
  - intros i p Hp. eexists. split; [by apply loop_nodes_map_lookup|done].
  - destruct pts as [|p0 pts']; [simpl in Hlen; lia|].
    exists (_vector2hash p0 default_tol). eexists.
    rewrite ordered_nodes_loop by done. split_and!.
    + apply (root_eval _ _ ((λ p, _vector2hash p default_tol) <$> pts'));
        [done | by rewrite ordered_nodes_loop].
    + done.
    + by apply (loop_nodes_map_lookup default_tol (p0 :: pts') 0 p0).
    + done.
  - by apply adj_matrix_loop.
Qed.

(** ** [min_ccw_cycle] under a step bound *)

Lemma limit_hit_pos l count :
  0 < l → limit_hit (Some l) count = bool_decide (l ≤ count).
Proof.
  intros Hl. unfold limit_hit. by rewrite bool_decide_eq_false_2 by lia.
Qed.

Lemma min_ccw_cycle_S fuel g ref_node next_node cycle recurse_limit count :
  min_ccw_cycle (S fuel) g ref_node next_node cycle recurse_limit count
  = if limit_hit recurse_limit count then Some (Raise RecursionError)
    else
      match loop_completed cycle next_node with
      | Raise e => Some (Raise e)
      | Return true => Some (Return (default [] cycle))
      | Return false =>
          match min_ccw_body g ref_node next_node cycle with
          | Raise e => Some (Raise e)
          | Return (cycle', ref', min_node) =>
              min_ccw_cycle fuel g ref' min_node (Some cycle')
                recurse_limit (count + 1)
          end
      end.
Proof. done. Qed.

Lemma min_ccw_cycle_limit fuel g ref_node next_node cycle l count :
  0 < l → l ≤ count →
  min_ccw_cycle (S fuel) g ref_node next_node cycle (Some l) count
  = Some (Raise RecursionError).
Proof.
  intros Hl Hc. rewrite min_ccw_cycle_S, limit_hit_pos by done.
  by rewrite bool_decide_eq_true_2.
Qed.

Lemma min_ccw_cycle_unbounded l fuel g :
  0 < l →
  ∀ ref_node next_node cycle count c,
    min_ccw_cycle fuel g ref_node next_node cycle (Some l) count
    = Some (Return c) →
    min_ccw_cycle fuel g ref_node next_node cycle None count
    = Some (Return c).
Proof.
  intros Hl. induction fuel as [|fuel IH];
    intros ref_node next_node cycle count c; [done|].
  rewrite !min_ccw_cycle_S, limit_hit_pos by done. simpl limit_hit.
  case_bool_decide; [done|].
  destruct (loop_completed cycle next_node) as [[|]|e]; [done | | done].
  destruct (min_ccw_body g ref_node next_node cycle)
    as [[[cycle' ref'] min_node]|e]; [|done].
  apply IH.
Qed.

Lemma min_ccw_cycle_total l fuel g :
  0 < l →
  ∀ ref_node next_node cycle count,
    (Z.to_nat (l - count) < fuel)%nat →
    is_Some (min_ccw_cycle fuel g ref_node next_node cycle (Some l) count).
Proof.
  intros Hl. induction fuel as [|fuel IH];
    intros ref_node next_node cycle count Hfuel; [simpl; lia|].
  rewrite min_ccw_cycle_S, limit_hit_pos by done.
  case_bool_decide; [done|].
  destruct (loop_completed cycle next_node) as [[|]|e]; [done | | done].
  destruct (min_ccw_body g ref_node next_node cycle)
    as [[[cycle' ref'] min_node]|e]; [|done].
  apply IH. lia.
Qed.

Lemma min_ccw_cycle_exceeds l fuel g :
  0 < l →
  ∀ ref_node next_node cycle count,
    min_ccw_cycle (Z.to_nat (l - count)) g ref_node next_node cycle None count
    = None →
    (Z.to_nat (l - count) < fuel)%nat →
    min_ccw_cycle fuel g ref_node next_node cycle (Some l) count
    = Some (Raise RecursionError).
Proof.
  intros Hl. induction fuel as [|fuel IH];
    intros ref_node next_node cycle count Hwalk Hfuel; [lia|].
  rewrite min_ccw_cycle_S, limit_hit_pos by done.
  case_bool_decide as Hc; [done|].
  replace (Z.to_nat (l - count)) with (S (Z.to_nat (l - (count + 1))))
    in Hwalk, Hfuel by lia.
  rewrite min_ccw_cycle_S in Hwalk. simpl limit_hit in Hwalk.
  destruct (loop_completed cycle next_node) as [[|]|e]; [done | | done].
  destruct (min_ccw_body g ref_node next_node cycle)
    as [[[cycle' ref'] min_node]|e]; [|done].
  apply IH; [done | lia].
Qed.

(** C7. With a positive step bound [l]: a call whose [count] has reached
    the bound raises [RecursionError]; the walk always ends, within
    [l - count + 1] calls, in a returned sequence or an exception; a
    returned sequence is the one that the walk without a bound returns (the
    closed loop, never a part of it); and when the walk without a bound
    takes more than [l - count] calls, so that it reaches the bound without
    having closed the loop, the bounded walk raises [RecursionError]. *)
Theorem step_bound_is_fatal g ref_node next_node cycle l count :
  0 < l →
  (∀ fuel, l ≤ count →
     min_ccw_cycle (S fuel) g ref_node next_node cycle (Some l) count
     = Some (Raise RecursionError)) ∧
  (∀ fuel, (Z.to_nat (l - count) < fuel)%nat →
     ∃ r, min_ccw_cycle fuel g ref_node next_node cycle (Some l) count
          = Some r ∧
          ∀ c, r = Return c →
               min_ccw_cycle fuel g ref_node next_node cycle None count
               = Some (Return c)) ∧
  (∀ fuel,
     min_ccw_cycle (Z.to_nat (l - count)) g ref_node next_node cycle None count
     = None →
     (Z.to_nat (l - count) < fuel)%nat →
     min_ccw_cycle fuel g ref_node next_node cycle (Some l) count
     = Some (Raise RecursionError)).
Proof.
  intros Hl. split_and!.
  - intros fuel Hc. by apply min_ccw_cycle_limit.
  - intros fuel Hfuel.
    destruct (min_ccw_cycle_total l fuel g Hl ref_node next_node cycle count
                Hfuel) as [r Hr].
    exists r. split; [done|]. intros c ->.
    by apply (min_ccw_cycle_unbounded l).
  - intros fuel. by apply min_ccw_cycle_exceeds.
Qed.

(** ** The precision of [_vector2hash] *)

Lemma int_nonneg l :
  (0 <= l)%Q →
  0 ≤ int l ∧ (inject_Z (int l) <= l)%Q ∧ (l < inject_Z (int l + 1))%Q.
Proof.
  intros Hl. unfold int. rewrite (proj2 (Qle_bool_iff 0 l) Hl).
  split_and!; [| apply Qfloor_le | apply Qlt_floor].
  change 0 with (Qfloor 0). by apply Qfloor_resp_le.
Qed.

Lemma int_nonpos l :
  (l <= 0)%Q →
  int l ≤ 0 ∧ (inject_Z (int l - 1) < l)%Q ∧ (l <= inject_Z (int l))%Q.
Proof.
  intros Hl. unfold int. destruct (Qle_bool 0 l) eqn:E.
  - apply Qle_bool_iff in E.
    assert (l == 0)%Q as H0 by by apply Qle_antisym.
    assert (Qfloor l = 0) as -> by by rewrite H0.
    split_and!; [done | by rewrite H0 | by rewrite H0].
  - split_and!; [| apply Qceiling_lt | apply Qle_ceiling].
    change 0 with (Qceiling 0). by apply Qceiling_resp_le.
Qed.

Lemma int_ge_1 l : (1 <= l)%Q → 1 ≤ int l.
Proof.
  intros Hl. unfold int.
  assert (0 <= l)%Q as H0 by (eapply Qle_trans; [|exact Hl]; done).
  rewrite (proj2 (Qle_bool_iff 0 l) H0).
  change 1 with (Qfloor 1). by apply Qfloor_resp_le.
Qed.

(** C1, as amended. [_vector2hash] rounds both coordinates to the same
    precision [rtol] and forms the key from the two rounded values.  When
    [log10] raises [ValueError] for the tolerance, [rtol] is 0.  When it
    returns [l], [rtol] is minus [l] truncated toward zero, with no clamp:
    for [l] of at least zero [rtol] is zero or negative, with
    [-rtol <= l < -rtol + 1], and it is -1 or less when [l] is at least 1;
    for [l] of at most zero [rtol] is zero or positive, with
    [-rtol - 1 < l <= -rtol]. *)
Theorem hash_precision vector tol :
  _vector2hash vector tol
  = str (round (Vector2D.x vector) (rtol_of tol),
         round (Vector2D.y vector) (rtol_of tol)) ∧
  (log10 tol = None → rtol_of tol = 0) ∧
  (∀ l, log10 tol = Some l → (0 <= l)%Q →
     rtol_of tol ≤ 0 ∧
     (inject_Z (- rtol_of tol) <= l)%Q ∧
     (l < inject_Z (- rtol_of tol + 1))%Q ∧
     ((1 <= l)%Q → rtol_of tol ≤ -1)) ∧
  (∀ l, log10 tol = Some l → (l <= 0)%Q →
     0 ≤ rtol_of tol ∧
     (inject_Z (- rtol_of tol - 1) < l)%Q ∧
     (l <= inject_Z (- rtol_of tol))%Q).
Proof.
  split_and!; [done | | |].
  - intros Hnone. unfold rtol_of. by rewrite Hnone.
  - intros l Hl Hpos. unfold rtol_of. rewrite Hl.
    destruct (int_nonneg l Hpos) as (H0 & Hlo & Hhi).
    replace (- (int l * -1)) with (int l) by lia.
    split_and!; [lia | done | done |].
    intros H1. pose proof (int_ge_1 l H1). lia.
  - intros l Hl Hneg. unfold rtol_of. rewrite Hl.
    destruct (int_nonpos l Hneg) as (H0 & Hlo & Hhi).
    replace (- (int l * -1)) with (int l) by lia.
    split_and!; [lia | done | done].
Qed.

(** ** Bidirectional and exterior edges *)

#[local] Instance has_edge_dec g u v : Decision (has_edge g u v).
Proof.
  unfold has_edge. destruct (_directed_graph g !! u) as [n|].
  - destruct (decide (v ∈ adj_lst n)) as [H|H].
    + left. by exists n.
    + right. intros (n' & [= <-] & Hv). done.
  - right. intros (n' & Hn & _). done.
Defined.

#[local] Instance exterior_step_dec g node a : Decision (exterior_step g node a).
Proof.
  unfold exterior_step. destruct (_directed_graph g !! a) as [na|].
  - destruct (decide (exterior na = Some true
                      ∨ (exterior na = None ∧ node ∉ adj_lst na))) as [H|H].
    + left. by exists na.
    + right. intros (n' & [= <-] & Hv). done.
  - right. intros (n' & Hn & _). done.
Defined.

Lemma is_edge_bidirect_run g node1 n1 node2 n2 :
  _directed_graph g !! node1 = Some n1 →
  _directed_graph g !! node2 = Some n2 →
  is_edge_bidirect g node1 node2
  = Return (bool_decide (node1 ∈ adj_lst n2 ∧ node2 ∈ adj_lst n1)).
Proof.
  intros H1 H2. unfold is_edge_bidirect. rewrite H1, H2.
  destruct (decide (node1 ∈ adj_lst n2)) as [Hin|Hout].
  - rewrite (bool_decide_eq_true_2 _ Hin). f_equal.
    apply bool_decide_ext. ptauto.
  - rewrite (bool_decide_eq_false_2 _ Hout). f_equal. symmetry.
    apply bool_decide_eq_false_2. ptauto.
Qed.

Lemma joined_lookup g u nu v nv :
  _directed_graph g !! u = Some nu → _directed_graph g !! v = Some nv →
  joined g u v ↔ u ∈ adj_lst nv ∧ v ∈ adj_lst nu.
Proof.
  intros Hu Hv. unfold joined, has_edge. split.
  - intros [(n & Hn & Hin) (n' & Hn' & Hin')].
    rewrite Hu in Hn. rewrite Hv in Hn'. by simplify_eq.
  - intros [H1 H2]. split; [by exists nu | by exists nv].
Qed.


Lemma next_unidirect_scan_find g node n adj :
  adj_closed g → _directed_graph g !! node = Some n →
  adj ⊆ adj_lst n →
  next_unidirect_scan g node adj
  = Return ((λ x : nat * string, x.2)
              <$> list_find (λ a, ¬ has_edge g a node) adj).
Proof.
  intros Hcl Hn. induction adj as [|a adj IH]; intros Hsub; [done|].
  assert (a ∈ adj_lst n) as Ha by (apply Hsub; left).
  destruct (Hcl node n a Hn Ha) as [na Hna].
  simpl. rewrite (is_edge_bidirect_run g node n a na Hn Hna). simpl.
  assert (has_edge g a node ↔ node ∈ adj_lst na ∧ a ∈ adj_lst n) as Hiff.
  { unfold has_edge. split.
    - intros (n' & Hn' & Hin). rewrite Hna in Hn'. by simplify_eq.
    - intros [Hin _]. by exists na. }
  destruct (decide (node ∈ adj_lst na ∧ a ∈ adj_lst n)) as [Hyes|Hno].
  - rewrite (bool_decide_eq_true_2 _ Hyes).
    rewrite decide_False by (intros Hne; apply Hne; by apply Hiff).
    rewrite IH by (intros x Hx; apply Hsub; by right).
    f_equal. by destruct (list_find _ adj) as [[i x]|].
  - rewrite (bool_decide_eq_false_2 _ Hno).
    rewrite decide_True by (intros He; apply Hno; by apply Hiff). done.
Qed.


Lemma next_exterior_scan_find g node n adj :
  adj_closed g → _directed_graph g !! node = Some n →
  adj ⊆ adj_lst n →
  next_exterior_scan g node adj
  = Return ((λ x : nat * string, x.2)
              <$> list_find (exterior_step g node) adj).
Proof.
  intros Hcl Hn. induction adj as [|a adj IH]; intros Hsub; [done|].
  assert (a ∈ adj_lst n) as Ha by (apply Hsub; left).
  destruct (Hcl node n a Hn Ha) as [na Hna].
  assert (adj ⊆ adj_lst n) as Hsub' by (intros x Hx; apply Hsub; by right).
  assert (exterior_step g node a ↔
            exterior na = Some true
            ∨ (exterior na = None ∧ node ∉ adj_lst na)) as Hiff.
  { unfold exterior_step. split.
    - intros (n' & Hn' & H). rewrite Hna in Hn'. by simplify_eq.
    - intros H. by exists na. }
  assert (next_exterior_scan g node adj
          = Return ((λ x : nat * string, x.2)
                      <$> (prod_map S id
                             <$> list_find (exterior_step g node) adj)))
    as Hrest.
  { rewrite IH by done. f_equal.
    by destruct (list_find _ adj) as [[i x]|]. }
  simpl. rewrite Hna. destruct (exterior na) as [[|]|] eqn:Eext.
  - rewrite decide_True by (apply Hiff; by left). done.
  - rewrite decide_False; [done|].
    intros [H|[H _]]%Hiff; discriminate H.
  - rewrite (is_edge_bidirect_run g node n a na Hn Hna). simpl.
    destruct (decide (node ∈ adj_lst na)) as [Hin|Hout].
    + rewrite bool_decide_eq_true_2 by done.
      rewrite decide_False; [done|].
      intros [H|[_ H]]%Hiff; [discriminate H | done].
    + rewrite bool_decide_eq_false_2 by (intros [? _]; done).
      rewrite decide_True by (apply Hiff; by right). done.
Qed.


Lemma exterior_scan_unflagged g node adj :
  (∀ a na, a ∈ adj → _directed_graph g !! a = Some na → exterior na = None) →
  (∀ a, a ∈ adj → is_Some (_directed_graph g !! a)) →
  next_exterior_scan g node adj = next_unidirect_scan g node adj.
Proof.
  induction adj as [|a adj IH]; intros Hflag Hin; [done|].
  destruct (Hin a) as [na Hna]; [left|].
  simpl. rewrite Hna. rewrite (Hflag a na) by (done || left).
  rewrite IH; [done | |].
  - intros b nb Hb. apply Hflag. by right.
  - intros b Hb. apply Hin. by right.
Qed.


(** ** Properties kept by every method

    A property of graphs that [_check_and_make_node] keeps, and that does
    not look at adjacency lists and flags, is kept by every method. *)

Section structural.
Variable Inv : PolygonDirectedGraph → Prop.
Hypothesis Inv_make :
  ∀ key val ext g, Inv g → Inv (exec (_check_and_make_node key val ext) g).
Hypothesis Inv_alter :
  ∀ f k g,
    (∀ n, pt (f n) = pt n ∧ _order (f n) = _order n) →
    Inv g → Inv (set_directed_graph (alter f k (_directed_graph g)) g).

Lemma cmn_keeps key val ext :
  always (keeps Inv) (_check_and_make_node key val ext).
Proof. intros g Hg. by apply Inv_make. Qed.

Lemma add_adj_loop_keeps vals :
  ∀ node keys, always (keeps Inv) (add_adj_loop node keys vals).
Proof.
  induction vals as [|v vals IH]; intros node keys g; [done|].
  rewrite add_adj_loop_cons. simpl.
  destruct (bool_decide _); [apply IH|].
  etrans; [|apply IH]. etrans; [apply cmn_keeps|].
  intros Hg. rewrite append_adj_exec. by apply Inv_alter.
Qed.

Lemma add_adj_keeps node vals : always (keeps Inv) (add_adj node vals).
Proof.
  rule always_bind; [rule always_deref | intros n].
  apply add_adj_loop_keeps.
Qed.

Lemma remove_adj_keeps node ks : always (keeps Inv) (remove_adj node ks).
Proof.
  rule always_bind; [rule always_deref | intros n].
  rule always_modify. intros g Hg. by apply Inv_alter.
Qed.

Lemma add_node_keeps val adj ext : always (keeps Inv) (add_node val adj ext).
Proof.
  rule always_get. intros g.
  rule rel_bind; [apply cmn_keeps | intros node].
  rule always_bind; [apply add_adj_keeps | intros _].
  rule always_bind; [|intros _; rule always_ret].
  destruct ext; [|rule always_ret].
  rule always_modify. intros g' Hg'. by apply Inv_alter.
Qed.

Lemma insert_node_keeps node new_val next_node ext :
  always (keeps Inv) (insert_node node new_val next_node ext).
Proof.
  rule always_bind; [rule always_deref | intros nn].
  rule always_bind; [apply add_node_keeps | intros new_key].
  rule always_bind; [rule always_deref | intros nk].
  rule always_bind; [apply add_adj_keeps | intros _].
  destruct (_ || _); [rule always_ret|].
  rule always_bind; [apply remove_adj_keeps | intros _; rule always_ret].
Qed.

Lemma scan_edges_keeps segment nodes :
  ∀ ks, always (keeps Inv) (scan_edges segment nodes ks).
Proof.
  induction nodes as [|node nodes IH]; intros ks; simpl; [rule always_ret|].
  rule always_bind; [rule always_deref | intros n].
  destruct (adj_lst n) as [|next_node ?]; [rule always_raise|].
  rule always_bind; [rule always_deref | intros nn].
  destruct (intersect_line2d_infinite _ _) as [int_pt|]; [|apply IH].
  destruct (point_bool int_pt); [|apply IH].
  rule always_bind; [apply insert_node_keeps | intros k; apply IH].
Qed.

Lemma connect_pair_keeps k1 k2 : always (keeps Inv) (connect_pair k1 k2).
Proof.
  rule always_bind; [rule always_deref | intros n1].
  rule always_bind; [rule always_deref | intros n2].
  rule always_bind; [apply add_node_keeps | intros _].
  rule always_bind; [rule always_deref | intros n2'].
  rule always_bind; [rule always_deref | intros n1'].
  rule always_bind; [apply add_node_keeps | intros _; rule always_ret].
Qed.

Lemma chain_loop_keeps ks ds : always (keeps Inv) (chain_loop ks ds).
Proof.
  induction ds as [|d1 ds IH]; simpl; [rule always_ret|].
  destruct ds as [|d2 ds]; [rule always_ret|].
  unfold index_key.
  rule always_bind; [destruct (ks !! _); [rule always_ret | rule always_raise]|].
  intros key1.
  rule always_bind; [destruct (ks !! _); [rule always_ret | rule always_raise]|].
  intros key2.
  rule always_bind; [apply connect_pair_keeps | intros _; apply IH].
Qed.

Lemma add_intersection_edges_keeps ks :
  always (keeps Inv) (add_intersection_edges ks).
Proof.
  unfold add_intersection_edges.
  destruct ks as [|k0 [|k1 [|k2 ks]]];
    [rule always_ret | rule always_ret | apply connect_pair_keeps |].
  rule always_bind; [rule always_deref | intros n].
  rule always_bind; [|intros ds; apply chain_loop_keeps].
  intros g. rewrite measure_loop_same. reflexivity.
Qed.

Lemma intersect_keeps segment :
  always (keeps Inv) (intersect_graph_with_segment segment).
Proof.
  rule always_get. intros g.
  rule rel_bind; [apply scan_edges_keeps | intros ks].
  apply add_intersection_edges_keeps.
Qed.

Lemma run_call_keeps c : always (keeps Inv) (run_call c).
Proof.
  destruct c; simpl.
  - rule always_bind; [apply add_node_keeps | intros _; rule always_ret].
  - rule always_bind; [apply insert_node_keeps | intros _; rule always_ret].
  - apply remove_adj_keeps.
  - apply intersect_keeps.
Qed.

Lemma run_calls_keeps cs : ∀ g, Inv g → Inv (run_calls cs g).
Proof.
  induction cs as [|c cs IH]; intros g Hg; simpl; [done|].
  apply IH. by apply run_call_keeps.
Qed.
End structural.

(** ** The numbering of the nodes *)

Lemma numbered_make key val ext g :
  numbered g → numbered (exec (_check_and_make_node key val ext) g).
Proof.
  intros (Hsize & Hlt & Hinj). rewrite cmn_exec.
  destruct (node_exists key g) eqn:E; [done|].
  apply node_exists_false in E. split_and!; simpl.
  - rewrite map_size_insert_None by done. by rewrite Hsize.
  - intros k n. destruct (decide (k = key)) as [->|]; lookups.
    + intros [= <-]. simpl. lia.
    + intros Hk. pose proof (Hlt k n Hk). lia.
  - intros k1 n1 k2 n2.
    destruct (decide (k1 = key)) as [->|];
      destruct (decide (k2 = key)) as [->|]; lookups; [done | | |].
    + intros [= <-] H2 Ho. simpl in Ho. pose proof (Hlt k2 n2 H2). lia.
    + intros H1 [= <-] Ho. simpl in Ho. pose proof (Hlt k1 n1 H1). lia.
    + apply Hinj.
Qed.

Lemma lookup_alter_order (f : _Node → _Node) k (m : gmap string _Node) k' n' :
  (∀ n, _order (f n) = _order n) →
  alter f k m !! k' = Some n' →
  ∃ n, m !! k' = Some n ∧ _order n' = _order n.
Proof.
  intros Hf. destruct (decide (k' = k)) as [->|]; lookups.
  - destruct (m !! k) as [n|]; [|done]. simpl. intros [= <-]. by exists n.
  - intros H. by exists n'.
Qed.

Lemma numbered_alter f k g :
  (∀ n, pt (f n) = pt n ∧ _order (f n) = _order n) →
  numbered g →
  numbered (set_directed_graph (alter f k (_directed_graph g)) g).
Proof.
  intros Hf (Hsize & Hlt & Hinj).
  assert (∀ n, _order (f n) = _order n) as Ho by (intros n; by destruct (Hf n)).
  split_and!; simpl.
  - rewrite <- Hsize, <- !size_dom. by rewrite dom_alter_L.
  - intros k' n' (n & Hn & ->)%(lookup_alter_order f k _ k' n' Ho).
    by apply (Hlt k').
  - intros k1 n1 k2 n2 (m1 & Hm1 & ->)%(lookup_alter_order f k _ k1 n1 Ho)
      (m2 & Hm2 & ->)%(lookup_alter_order f k _ k2 n2 Ho).
    by apply Hinj.
Qed.

Lemma init_numbered tol : numbered (__init__ tol).
Proof.
  split_and!; simpl; [done | |]; intros k n; by rewrite lookup_empty.
Qed.


Lemma run_call_numbered c g : numbered g → numbered (exec (run_call c) g).
Proof. apply (run_call_keeps numbered numbered_make numbered_alter). Qed.

Lemma run_calls_numbered cs g : numbered g → numbered (run_calls cs g).
Proof. apply (run_calls_keeps numbered numbered_make numbered_alter). Qed.


(** ** The root *)

Lemma root_run_cached g r : _root g = Some r → root g = (Return r, g).
Proof.
  intros Hr. unfold root.
  rewrite (bind_Return get _ _ _ _ eq_refl). by rewrite Hr.
Qed.

Lemma root_run_first g r rest :
  _root g = None → ordered_nodes g = r :: rest →
  root g = (Return r, set_root (Some r) g).
Proof.
  intros Hr Ho. unfold root.
  rewrite (bind_Return get _ _ _ _ eq_refl). by rewrite Hr, Ho.
Qed.


(** ** The ordered nodes *)

Lemma ordered_nodes_items g : ordered_nodes g = (ordered_items g).*1.
Proof. done. Qed.

Lemma ordered_items_perm g :
  ordered_items g ≡ₚ map_to_list (_directed_graph g).
Proof. apply sorted_perm. Qed.

Lemma elem_of_ordered_items g k n :
  (k, n) ∈ ordered_items g ↔ _directed_graph g !! k = Some n.
Proof. rewrite ordered_items_perm. apply elem_of_map_to_list. Qed.

Lemma ordered_items_NoDup g : NoDup (ordered_items g).*1.
Proof. rewrite ordered_items_perm. apply NoDup_fst_map_to_list. Qed.

Lemma ordered_items_length g :
  length (ordered_items g) = size (_directed_graph g).
Proof. rewrite ordered_items_perm. apply length_map_to_list. Qed.

Lemma ordered_items_sorted g :
  StronglySorted (λ a b : string * _Node, _order a.2 ≤ _order b.2)%nat
    (ordered_items g).
Proof.
  eapply StronglySorted_weaken; [|apply sorted_sorted].
  - intros x y H. by apply bool_decide_eq_true in H.
  - intros x y H. apply bool_decide_eq_false in H.
    apply bool_decide_eq_true_2. lia.
  - intros x y z H1 H2. apply bool_decide_eq_true in H1, H2.
    apply bool_decide_eq_true_2. lia.
Qed.

Lemma StronglySorted_lookup_1 {A} (R : A → A → Prop) l :
  StronglySorted R l →
  ∀ i j x y, (i < j)%nat → l !! i = Some x → l !! j = Some y → R x y.
Proof.
  induction 1 as [|a l Hl IH Hall]; intros i j x y Hij Hi Hj.
  { by rewrite lookup_nil in Hi. }
  destruct j as [|j]; [lia|]. simpl in Hj.
  destruct i as [|i]; simpl in Hi.
  - injection Hi as <-. rewrite Forall_forall in Hall.
    apply Hall. by apply list_elem_of_lookup_2 in Hj.
  - apply (IH i j); [lia | done | done].
Qed.

Lemma increasing_from_head (l : list nat) :
  StronglySorted lt l →
  ∀ i x y, l !! 0%nat = Some y → l !! i = Some x → (y + i ≤ x)%nat.
Proof.
  induction 1 as [|a l Hl IH Hall]; intros i x y H0 Hi.
  { by rewrite lookup_nil in Hi. }
  simpl in H0. injection H0 as <-.
  destruct i as [|i]; simpl in Hi; [injection Hi as <-; lia|].
  destruct l as [|b l]; [by rewrite lookup_nil in Hi|].
  pose proof (IH i x b eq_refl Hi).
  rewrite Forall_forall in Hall.
  assert (a < b)%nat by (apply Hall; left). lia.
Qed.

Lemma increasing_below (l : list nat) :
  StronglySorted lt l →
  ∀ b, (∀ y, y ∈ l → y < b)%nat →
  ∀ i x, l !! i = Some x → (x + (length l - i) ≤ b)%nat.
Proof.
  induction 1 as [|a l Hl IH Hall]; intros b Hb i x Hi.
  { by rewrite lookup_nil in Hi. }
  assert (∀ y, y ∈ l → y < b)%nat as Hb' by (intros y Hy; apply Hb; by right).
  destruct i as [|i]; simpl in Hi.
  - injection Hi as <-. simpl.
    destruct l as [|c l].
    + assert (a < b)%nat by (apply Hb; left). simpl. lia.
    + pose proof (IH b Hb' 0%nat c eq_refl) as Hc.
      rewrite Forall_forall in Hall.
      assert (a < c)%nat by (apply Hall; left). simpl in *. lia.
  - pose proof (IH b Hb' i x Hi). simpl. lia.
Qed.

Lemma increasing_is_seq (l : list nat) :
  StronglySorted lt l →
  (∀ y, y ∈ l → y < length l)%nat →
  ∀ i x, l !! i = Some x → x = i.
Proof.
  intros Hl Hb i x Hi.
  pose proof (increasing_below l Hl (length l) Hb i x Hi) as Hup.
  pose proof (lookup_lt_Some _ _ _ Hi) as Hlt.
  destruct (l !! 0%nat) as [y|] eqn:H0.
  - pose proof (increasing_from_head l Hl i x y H0 Hi). lia.
  - apply lookup_ge_None in H0. lia.
Qed.

Lemma ordered_items_order g :
  numbered g →
  ∀ i k n, ordered_items g !! i = Some (k, n) → _order n = i.
Proof.
  intros (Hsize & Hlt & Hinj) i k n Hi.
  set (orders := (λ a : string * _Node, _order a.2) <$> ordered_items g).
  apply (increasing_is_seq orders).
  - apply StronglySorted_lookup_2. intros i1 i2 x y Hlt12 H1 H2.
    apply list_lookup_fmap_Some_1 in H1 as ([k1 n1] & -> & H1).
    apply list_lookup_fmap_Some_1 in H2 as ([k2 n2] & -> & H2).
    simpl.
    pose proof (StronglySorted_lookup_1 _ _ (ordered_items_sorted g)
                  i1 i2 _ _ Hlt12 H1 H2) as Hle. simpl in Hle.
    destruct (decide (_order n1 = _order n2)) as [Heq|]; [|lia].
    exfalso.
    assert (k1 = k2) as ->.
    { apply (Hinj k1 n1 k2 n2); [| | done].
      - apply elem_of_ordered_items. by eapply list_elem_of_lookup_2.
      - apply elem_of_ordered_items. by eapply list_elem_of_lookup_2. }
    assert (i1 = i2); [|lia].
    apply (NoDup_lookup _ i1 i2 k2 (ordered_items_NoDup g));
      rewrite list_lookup_fmap; [by rewrite H1 | by rewrite H2].
  - intros y ([k' n'] & -> & Hin)%list_elem_of_fmap. simpl.
    unfold orders. rewrite length_fmap, ordered_items_length, Hsize.
    apply (Hlt k'). by apply elem_of_ordered_items.
  - unfold orders. rewrite list_lookup_fmap, Hi. done.
Qed.

Lemma ordered_nodes_lookup g i k :
  numbered g →
  ordered_nodes g !! i = Some k ↔
  ∃ n, _directed_graph g !! k = Some n ∧ _order n = i.
Proof.
  intros Hnum. rewrite ordered_nodes_items. split.
  - intros ([k' n] & -> & Hi)%list_lookup_fmap_Some_1. simpl.
    exists n. split.
    + apply elem_of_ordered_items. by eapply list_elem_of_lookup_2.
    + by apply (ordered_items_order g Hnum i k' n).
  - intros (n & Hk & Ho).
    apply elem_of_ordered_items, list_elem_of_lookup in Hk as [j Hj].
    pose proof (ordered_items_order g Hnum j k n Hj) as Hoj.
    rewrite list_lookup_fmap. replace i with j by lia. by rewrite Hj.
Qed.

Lemma ordered_nodes_length g :
  numbered g → length (ordered_nodes g) = num_nodes g.
Proof.
  intros (Hsize & _).
  by rewrite ordered_nodes_items, length_fmap, ordered_items_length.
Qed.


Lemma labels_lookup (l : list string) :
  ∀ s j,
    (list_to_map (imap (λ i node, ((s + i)%nat, node)) l) : gmap nat string)
      !! j
    = if decide (s ≤ j)%nat then l !! (j - s)%nat else None.
Proof.
  induction l as [|x l IH]; intros s j.
  { simpl. rewrite lookup_empty. by destruct (decide _). }
  rewrite imap_cons. simpl.
  rewrite (imap_ext _ (λ i node, ((S s + i)%nat, node))) by
    (intros i y _; simpl; f_equal; lia).
  destruct (decide (j = s)) as [->|Hne].
  - replace (s + 0)%nat with s by lia. rewrite lookup_insert_eq.
    rewrite decide_True by lia. by replace (s - s)%nat with 0%nat by lia.
  - rewrite lookup_insert_ne by lia. rewrite IH.
    destruct (decide (s ≤ j)%nat) as [Hle|Hgt].
    + rewrite decide_True by lia.
      by replace (j - s)%nat with (S (j - S s)) by lia.
    + by rewrite decide_False by lia.
Qed.


(** ** The adjacency matrix *)

Lemma cell_set amtx i j row i' j' :
  amtx !! i = Some row → (j < length row)%nat →
  cell (<[i := <[j := 1]> row]> amtx) i' j'
  = if decide (i' = i ∧ j' = j) then Some 1 else cell amtx i' j'.
Proof.
  intros Hrow Hj. unfold cell.
  pose proof (lookup_lt_Some _ _ _ Hrow) as Hi.
  destruct (decide (i' = i)) as [->|Hne].
  - rewrite list_lookup_insert_eq by done. rewrite Hrow. simpl.
    destruct (decide (j' = j)) as [->|Hnj].
    + rewrite decide_True by done. by rewrite list_lookup_insert_eq.
    + rewrite decide_False by (intros [_ ?]; done).
      by rewrite list_lookup_insert_ne.
  - rewrite list_lookup_insert_ne by done.
    by rewrite decide_False by (intros [? _]; done).
Qed.

Lemma set_cell_run n amtx i j :
  square_matrix n amtx → (i < n)%nat → (j < n)%nat →
  ∃ amtx',
    set_cell amtx i j = Return amtx' ∧ square_matrix n amtx' ∧
    ∀ i' j', cell amtx' i' j'
             = if decide (i' = i ∧ j' = j) then Some 1 else cell amtx i' j'.
Proof.
  intros [Hlen Hrows] Hi Hj. unfold set_cell.
  destruct (lookup_lt_is_Some_2 amtx i) as [row Hrow]; [lia|].
  rewrite Hrow. pose proof (Hrows i row Hrow) as Hr.
  rewrite bool_decide_eq_true_2 by lia.
  eexists. split; [done|]. split.
  - split; [by rewrite length_insert|].
    intros i' row'. destruct (decide (i' = i)) as [->|Hne].
    + rewrite list_lookup_insert_eq by lia. intros [= <-].
      by rewrite length_insert.
    + rewrite list_lookup_insert_ne by done. apply Hrows.
  - intros i' j'. apply cell_set; [done | lia].
Qed.

Lemma fill_row_run n i adj_indices :
  ∀ amtx,
    square_matrix n amtx → (i < n)%nat →
    (∀ j, j ∈ adj_indices → j < n)%nat →
    ∃ amtx',
      fill_row amtx i adj_indices = Return amtx' ∧ square_matrix n amtx' ∧
      ∀ i' j', cell amtx' i' j'
               = if decide (i' = i ∧ j' ∈ adj_indices) then Some 1
                 else cell amtx i' j'.
Proof.
  induction adj_indices as [|j rest IH]; intros amtx Hsq Hi Hall.
  { exists amtx. split_and!; [done | done |]. intros i' j'.
    rewrite decide_False; [done|]. intros [_ ?%elem_of_nil]. done. }
  destruct (set_cell_run n amtx i j Hsq Hi) as (amtx1 & Hset & Hsq1 & Hcell1).
  { apply Hall. left. }
  destruct (IH amtx1 Hsq1 Hi) as (amtx' & Hfill & Hsq' & Hcell').
  { intros j' Hj'. apply Hall. by right. }
  exists amtx'. simpl. rewrite Hset. simpl. split_and!; [done | done |].
  intros i' j'. rewrite Hcell', Hcell1.
  destruct (decide (i' = i ∧ j' ∈ rest)) as [[-> Hin]|Hno].
  - rewrite decide_True; [done|]. split; [done | by right].
  - destruct (decide (i' = i ∧ j' = j)) as [[-> ->]|Hno'].
    + rewrite decide_True; [done|]. split; [done | left].
    + rewrite decide_False; [done|].
      intros [-> [->|Hin]%elem_of_cons]; [by apply Hno' | by apply Hno].
Qed.

Lemma adj_orders_run g adj :
  (∀ a, a ∈ adj → is_Some (_directed_graph g !! a)) →
  ∃ adj_indices,
    adj_orders g adj = Return adj_indices ∧
    ∀ j, j ∈ adj_indices ↔
         ∃ a na, a ∈ adj ∧ _directed_graph g !! a = Some na ∧ _order na = j.
Proof.
  induction adj as [|a adj IH]; intros Hin.
  { exists []. split; [done|]. intros j. split.
    - by intros ?%elem_of_nil.
    - intros (a & na & ?%elem_of_nil & _). done. }
  destruct (Hin a) as [na Hna]; [left|].
  destruct IH as (os & Hos & Hspec); [intros b Hb; apply Hin; by right|].
  exists (_order na :: os). simpl. rewrite Hna, Hos. split; [done|].
  intros j. rewrite elem_of_cons, Hspec. split.
  - intros [->|(b & nb & Hb & Hnb & Ho)].
    + exists a, na. split_and!; [left | done | done].
    + exists b, nb. split_and!; [by right | done | done].
  - intros (b & nb & [->|Hb]%elem_of_cons & Hnb & Ho).
    + left. rewrite Hna in Hnb. by injection Hnb as <-.
    + right. by exists b, nb.
Qed.

(** Filling the rows [rows]: a cell becomes 1 when its row is one of
    [rows] and its column is the order of a node in the adjacency list of
    the node of that row's order; every other cell is as it was. *)
Lemma fill_rows_run g n rows :
  adj_closed g → numbered g → n = num_nodes g →
  ∀ amtx,
    square_matrix n amtx →
    (∀ i, i ∈ rows → i < n)%nat →
    ∃ amtx',
      fill_rows g (ordered_nodes g) amtx rows = Return amtx' ∧
      square_matrix n amtx' ∧
      ∀ i' j',
        (cell amtx' i' j' = Some 1 ∨ cell amtx' i' j' = cell amtx i' j') ∧
        (cell amtx' i' j' = Some 1 ↔
         cell amtx i' j' = Some 1 ∨
         (i' ∈ rows ∧
          ∃ ki ni kj nj,
            _directed_graph g !! ki = Some ni ∧ _order ni = i' ∧
            kj ∈ adj_lst ni ∧
            _directed_graph g !! kj = Some nj ∧ _order nj = j')).
Proof.
  intros Hcl Hnum ->. induction rows as [|i rows IH]; intros amtx Hsq Hrows.
  { exists amtx. split_and!; [done | done |]. intros i' j'. split; [by right|].
    split; [by left|]. intros [H|[?%elem_of_nil _]]; done. }
  assert (i < num_nodes g)%nat as Hi by (apply Hrows; left).
  destruct (lookup_lt_is_Some_2 (ordered_nodes g) i) as [ki Hki].
  { by rewrite ordered_nodes_length. }
  pose proof Hki as (ni & Hni & Hoi)%ordered_nodes_lookup; [|done].
  destruct (adj_orders_run g (adj_lst ni)) as (os & Hos & Hspec).
  { intros a Ha. by apply (Hcl ki ni). }
  destruct (fill_row_run (num_nodes g) i os amtx Hsq Hi)
    as (amtx1 & Hfill & Hsq1 & Hcell1).
  { intros j (a & na & Ha & Hna & <-)%Hspec.
    destruct Hnum as (_ & Hlt & _). by apply (Hlt a). }
  destruct (IH amtx1 Hsq1) as (amtx' & Hrun & Hsq' & Hcell').
  { intros i' Hi'. apply Hrows. by right. }
  exists amtx'. simpl. rewrite Hki, Hni, Hos. simpl. rewrite Hfill. simpl.
  split_and!; [done | done |].
  intros i' j'. destruct (Hcell' i' j') as [Hor Hiff].
  rewrite Hcell1 in Hor, Hiff.
  assert (i' = i ∧ j' ∈ os ↔
          i' = i ∧ ∃ ki ni kj nj,
            _directed_graph g !! ki = Some ni ∧ _order ni = i' ∧
            kj ∈ adj_lst ni ∧
            _directed_graph g !! kj = Some nj ∧ _order nj = j') as Hrow.
  { rewrite Hspec. split.
    - intros [-> (a & na & Ha & Hna & Ho)]. split; [done|].
      by exists ki, ni, a, na.
    - intros [-> (ki' & ni' & kj & nj & Hki' & Ho' & Hkj & Hnj & Hoj)].
      split; [done|].
      destruct Hnum as (_ & _ & Hinj).
      assert (ki' = ki) as -> by (apply (Hinj ki' ni' ki ni); congruence).
      rewrite Hni in Hki'. injection Hki' as <-. by exists kj, nj. }
  destruct (decide (i' = i ∧ j' ∈ os)) as [Hyes|Hno].
  - split; [ptauto|]. rewrite Hiff. split.
    + intros _. right. apply Hrow in Hyes as [-> H]. split; [left | done].
    + intros _. by left.
  - split; [ptauto|]. rewrite Hiff. split.
    + intros [H|[Hin H]]; [by left|]. right. split; [by right | done].
    + intros [H|[[->|Hin]%elem_of_cons H]]; [by left | | right; by split].
      exfalso. apply Hno. apply Hrow. by split.
Qed.

Lemma cell_replicate n i j :
  (i < n)%nat → (j < n)%nat →
  cell (replicate n (replicate n 0)) i j = Some 0.
Proof.
  intros Hi Hj. unfold cell. rewrite lookup_replicate_2 by done. simpl.
  by rewrite lookup_replicate_2.
Qed.


(** ** The exterior of a polygon *)

Lemma ring_loop tol pts r c :
  NoDup ((λ p, _vector2hash p tol) <$> pts) →
  ring (mkGraph (list_to_map (loop_nodes tol pts)) r tol c)
    ((λ p, _vector2hash p tol) <$> pts).
Proof.
  intros Hnd. split; [done|]. intros j k k'. rewrite length_fmap.
  intros (p & -> & Hp)%list_lookup_fmap_Some_1
         (q & -> & Hq)%list_lookup_fmap_Some_1.
  eexists. split; [by apply loop_nodes_map_lookup|]. simpl.
  by rewrite Hq.
Qed.

Lemma rotate_succ {A} (l : list A) i j :
  (j < length l)%nat →
  rotate i l !! (S j `mod` length l)%nat
  = l !! (S (rotate_nat_add i j (length l)) `mod` length l)%nat.
Proof.
  intros Hj. assert (0 < length l)%nat as Hpos by lia.
  rewrite lookup_rotate_r by (apply Nat.mod_upper_bound; lia).
  f_equal. unfold rotate_nat_add.
  rewrite <- !Nat2Z.inj_add, <- !Nat2Z.inj_mod, !Nat2Z.id.
  replace (S j) with (j + 1)%nat by lia.
  replace (S ((i + j) `mod` length l)) with ((i + j) `mod` length l + 1)%nat
    by lia.
  rewrite Nat.Div0.add_mod_idemp_r, Nat.Div0.add_mod_idemp_l.
  f_equal. lia.
Qed.

Lemma ring_rotate g l i : ring g l → ring g (rotate i l).
Proof.
  intros [Hnd Hring]. split.
  - unfold rotate. apply NoDup_app. rewrite <- (take_drop (i `mod` length l) l)
      in Hnd. apply NoDup_app in Hnd as (H1 & H2 & H3).
    split_and!; [done | | done]. intros x Hx Hx'. by apply (H2 x).
  - intros j k k' Hj. pose proof (lookup_lt_Some _ _ _ Hj) as Hlt.
    rewrite length_rotate in Hlt |- *.
    rewrite lookup_rotate_r in Hj by done.
    rewrite rotate_succ by done. by apply Hring.
Qed.

Lemma ring_lookup g l j k :
  ring g l → l !! j = Some k →
  ∃ k' n, l !! (S j `mod` length l)%nat = Some k' ∧
          _directed_graph g !! k = Some n ∧ adj_lst n = [k'] ∧
          exterior n = Some true.
Proof.
  intros [Hnd Hring] Hj. pose proof (lookup_lt_Some _ _ _ Hj) as Hlt.
  destruct (lookup_lt_is_Some_2 l (S j `mod` length l)) as [k' Hk'].
  { apply Nat.mod_upper_bound. lia. }
  destruct (Hring j k k' Hj Hk') as (n & Hn). by exists k', n.
Qed.

Lemma ring_next_exterior g l j k :
  ring g l → l !! j = Some k →
  next_exterior_node g k
  = Return (l !! (S j `mod` length l)%nat).
Proof.
  intros Hring Hj.
  destruct (ring_lookup g l j k Hring Hj) as (k' & n & Hk' & Hn & Hadj & _).
  destruct (ring_lookup g l _ k' Hring Hk') as (_ & n' & _ & Hn' & _ & Hext).
  unfold next_exterior_node. rewrite Hn, Hadj. simpl.
  by rewrite Hn', Hext, Hk'.
Qed.

Lemma ring_walk g l k0 :
  ring g l → l !! 0%nat = Some k0 →
  ∀ d fuel j k,
    (j + d = length l)%nat → (1 ≤ j)%nat → (d < fuel)%nat →
    l !! (j `mod` length l)%nat = Some k →
    exterior_cycle_loop fuel g k0 k (take j l) = Some (Return (Some l)).
Proof.
  intros Hring H0.
  induction d as [|d IH]; intros fuel j k Hjd Hj Hfuel Hk;
    (destruct fuel as [|fuel]; [lia|]); simpl.
  - replace j with (length l) in * by lia.
    rewrite Nat.Div0.mod_same, H0 in Hk. injection Hk as <-.
    rewrite bool_decide_eq_true_2 by done. by rewrite firstn_all.
  - rewrite Nat.mod_small in Hk by lia.
    rewrite bool_decide_eq_false_2.
    2:{ intros ->. destruct Hring as [Hnd _].
        pose proof (NoDup_lookup _ _ _ _ Hnd Hk H0). lia. }
    rewrite (ring_next_exterior g l j k Hring Hk).
    destruct (lookup_lt_is_Some_2 l (S j `mod` length l)) as [k' Hk'].
    { apply Nat.mod_upper_bound. lia. }
    rewrite Hk'. rewrite <- (take_S_r l j k) by done.
    apply IH; [lia | lia | lia | done].
Qed.

Lemma ring_exterior_cycle g l k0 fuel :
  ring g l → (2 ≤ length l)%nat → l !! 0%nat = Some k0 →
  (length l ≤ fuel)%nat →
  exterior_cycle fuel g k0 = Some (Return (Some l)).
Proof.
  intros Hring Hlen H0 Hfuel. unfold exterior_cycle.
  rewrite (ring_next_exterior g l 0 k0 Hring H0).
  rewrite (Nat.mod_small 1) by lia.
  destruct (lookup_lt_is_Some_2 l 1) as [k1 Hk1]; [lia|].
  rewrite Hk1.
  replace [k0] with (take 1 l) by (destruct l; [done | by injection H0 as ->]).
  apply (ring_walk g l k0 Hring H0 (length l - 1) fuel 1 k1);
    [lia | lia | lia |].
  by rewrite Nat.mod_small by lia.
Qed.

Lemma polygon_ring pts g :
  (2 ≤ length pts)%nat →
  NoDup ((λ p, _vector2hash p default_tol) <$> pts) →
  from_polygon pts = Return g →
  ring g ((λ p, _vector2hash p default_tol) <$> pts) ∧
  ordered_nodes g = (λ p, _vector2hash p default_tol) <$> pts.
Proof.
  intros Hlen Hnd. unfold from_polygon.
  rewrite from_point_array_run by done. intros [= <-]. split.
  - by apply ring_loop.
  - by apply ordered_nodes_loop.
Qed.


Lemma ring_poly_walk g l k0 :
  ring g l → l !! 0%nat = Some k0 →
  ∀ d fuel j k check,
    (j + d = length l)%nat → (1 ≤ j)%nat → (d < fuel)%nat →
    l !! (j `mod` length l)%nat = Some k →
    ∃ check',
      exterior_poly_loop fuel g k0 (Some k) (take j l) check
      = Some (Return (l, check')) ∧
      ∀ x, x ∈ check' ↔ x ∈ drop j l ∨ x ∈ check.
Proof.
  intros Hring H0.
  induction d as [|d IH]; intros fuel j k check Hjd Hj Hfuel Hk;
    (destruct fuel as [|fuel]; [lia|]); simpl.
  - replace j with (length l) in * by lia.
    rewrite Nat.Div0.mod_same, H0 in Hk. injection Hk as <-.
    rewrite bool_decide_eq_true_2 by done. rewrite firstn_all.
    exists check. split; [done|]. intros x. rewrite drop_all.
    split; [by right | by intros [?%elem_of_nil|?]].
  - rewrite Nat.mod_small in Hk by lia.
    rewrite bool_decide_eq_false_2.
    2:{ intros ->. destruct Hring as [Hnd _].
        pose proof (NoDup_lookup _ _ _ _ Hnd Hk H0). lia. }
    rewrite (ring_next_exterior g l j k Hring Hk).
    destruct (lookup_lt_is_Some_2 l (S j `mod` length l)) as [k' Hk'].
    { apply Nat.mod_upper_bound. lia. }
    rewrite Hk'. rewrite <- (take_S_r l j k) by done.
    destruct (IH fuel (S j) k' ({[k]} ∪ check)) as (check' & Hrun & Hcheck);
      [lia | lia | lia | done |].
    exists check'. split; [done|]. intros x. rewrite Hcheck.
    rewrite (drop_S l k j Hk), elem_of_cons, elem_of_union, elem_of_singleton.
    ptauto.
Qed.

Lemma ring_rest g l :
  ring g l →
  ∀ nodes fuel exterior_poly_lst check,
    (∀ x, x ∈ nodes → x ∈ l) → (∀ x, x ∈ l → x ∈ check) →
    exterior_cycles_loop fuel g nodes exterior_poly_lst check
    = Some (Return exterior_poly_lst).
Proof.
  intros Hring.
  induction nodes as [|root_node nodes IH]; intros fuel acc check Hsub Hall;
    [done|].
  assert (root_node ∈ l) as [j Hj]%list_elem_of_lookup by (apply Hsub; left).
  simpl. rewrite (ring_next_exterior g l j root_node Hring Hj).
  pose proof (lookup_lt_Some _ _ _ Hj) as Hlt.
  destruct (lookup_lt_is_Some_2 l (S j `mod` length l)) as [k' Hk'].
  { apply Nat.mod_upper_bound. lia. }
  rewrite Hk'. rewrite bool_decide_eq_true_2.
  - apply IH; [intros x Hx; apply Hsub; by right|].
    intros x Hx. apply elem_of_union. right. by apply Hall.
  - apply elem_of_union. right. apply Hall.
    by apply list_elem_of_lookup_2 in Hk'.
Qed.

Lemma ring_exterior_cycles g l fuel :
  ring g l → (2 ≤ length l)%nat → ordered_nodes g = l →
  (length l ≤ fuel)%nat →
  exterior_cycles fuel g = Some (Return [l]).
Proof.
  intros Hring Hlen Hord Hfuel. unfold exterior_cycles. rewrite Hord.
  destruct l as [|k0 rest] eqn:El; [simpl in Hlen; lia|]. rewrite <- El in *.
  assert (l !! 0%nat = Some k0) as H0 by by rewrite El.
  rewrite El at 1. simpl.
  rewrite (ring_next_exterior g l 0 k0 Hring H0).
  rewrite (Nat.mod_small 1) by lia.
  destruct (lookup_lt_is_Some_2 l 1) as [k1 Hk1]; [lia|].
  rewrite Hk1.
  assert (k1 ≠ k0) as Hne.
  { intros ->. destruct Hring as [Hnd _].
    pose proof (NoDup_lookup _ _ _ _ Hnd Hk1 H0). lia. }
  rewrite bool_decide_eq_false_2.
  2:{ rewrite elem_of_union, elem_of_singleton. intros [?|?%elem_of_empty];
        done. }
  destruct (ring_poly_walk g l k0 Hring H0 (length l - 1) fuel 1 k1
              ({[k1]} ∪ ({[k0]} ∪ ∅)))
    as (check' & Hrun & Hcheck); [lia | lia | lia | |].
  { by rewrite Nat.mod_small by lia. }
  replace [k0] with (take 1 l) by by rewrite El.
  rewrite Hrun. apply (ring_rest g l Hring).
  - intros x Hx. rewrite El. by right.
  - intros x Hx. apply Hcheck. rewrite El in Hx |- *. simpl.
    apply elem_of_cons in Hx as [->|Hx]; [|by left].
    right. rewrite !elem_of_union, !elem_of_singleton. right. by left.
Qed.


(** ** The smallest cycles of a polygon *)

Lemma index_neg2_take (l : list string) j x :
  (1 ≤ j)%nat → (j < length l)%nat → l !! (j - 1)%nat = Some x →
  index_neg2 (take (S j) l) = Return x.
Proof.
  intros Hj Hlt Hx. destruct j as [|j]; [lia|].
  replace (S j - 1)%nat with j in Hx by lia.
  destruct (lookup_lt_is_Some_2 l (S j) Hlt) as [y Hy].
  rewrite (take_S_r l (S j) y Hy), (take_S_r l j x Hx).
  unfold index_neg2. by rewrite !rev_unit.
Qed.

Lemma ring_min_ccw_body g l j k ref_node cycle :
  ring g l → (3 ≤ length l)%nat → (1 ≤ j)%nat →
  l !! j = Some k → l !! (j - 1)%nat = Some ref_node →
  match cycle with None => [ref_node] | Some c => c end = take j l →
  min_ccw_body g ref_node (Some k) cycle
  = Return (take (S j) l, k, l !! (S j `mod` length l)%nat).
Proof.
  intros Hring Hlen Hj Hk Href Hcycle.
  pose proof (lookup_lt_Some _ _ _ Hk) as Hlt.
  destruct (ring_lookup g l j k Hring Hk) as (k' & nn & Hk' & Hnn & Hadj & _).
  destruct (ring_lookup g l _ ref_node Hring Href) as (_ & rn & _ & Hrn & _).
  destruct (ring_lookup g l _ k' Hring Hk') as (_ & an & _ & Han & _).
  unfold min_ccw_body. rewrite Hcycle, Hnn, Hrn, Hadj.
  rewrite <- (take_S_r l j k) by done. simpl.
  rewrite (index_neg2_take l j ref_node) by done. simpl.
  rewrite bool_decide_eq_false_2.
  2:{ intros ->. destruct Hring as [Hnd _].
      pose proof (NoDup_lookup _ _ _ _ Hnd Hk' Href) as He.
      destruct (decide (S j = length l)) as [Heq|Hneq].
      - rewrite Heq, Nat.Div0.mod_same in He. lia.
      - rewrite Nat.mod_small in He by lia. lia. }
  by rewrite Han, Hk'.
Qed.

Lemma ring_min_ccw_walk g l k0 recurse_limit :
  ring g l → (3 ≤ length l)%nat → l !! 0%nat = Some k0 →
  (∀ count, 0 ≤ count < Z.of_nat (length l) →
     limit_hit recurse_limit count = false) →
  ∀ d fuel j ref_node k,
    (j + d = length l)%nat → (2 ≤ j)%nat → (d < fuel)%nat →
    l !! (j - 1)%nat = Some ref_node →
    l !! (j `mod` length l)%nat = Some k →
    min_ccw_cycle fuel g ref_node (Some k) (Some (take j l)) recurse_limit
      (Z.of_nat j - 1)
    = Some (Return l).
Proof.
  intros Hring Hlen H0 Hlimit.
  assert (∀ j, (1 ≤ j)%nat → ∃ tl, take j l = k0 :: tl) as Hhead.
  { intros j Hj. destruct l as [|x l']; [simpl in Hlen; lia|].
    injection H0 as ->. destruct j as [|j]; [lia|]. by eexists. }
  induction d as [|d IH]; intros fuel j ref_node k Hjd Hj Hfuel Href Hk;
    (destruct fuel as [|fuel]; [lia|]); rewrite min_ccw_cycle_S;
    rewrite Hlimit by lia; destruct (Hhead j) as [tl Htl]; try lia.
  - replace j with (length l) in * by lia.
    rewrite Nat.Div0.mod_same, H0 in Hk. injection Hk as <-.
    rewrite Htl. simpl. rewrite bool_decide_eq_true_2 by done.
    rewrite <- Htl. by rewrite firstn_all.
  - rewrite Nat.mod_small in Hk by lia.
    assert (loop_completed (Some (take j l)) (Some k) = Return false) as ->.
    { rewrite Htl. simpl. rewrite bool_decide_eq_false_2; [done|].
      intros ->. destruct Hring as [Hnd _].
      pose proof (NoDup_lookup _ _ _ _ Hnd Hk H0). lia. }
    rewrite (ring_min_ccw_body g l j k ref_node (Some (take j l)))
      by (done || lia).
    replace (Z.of_nat j - 1 + 1) with (Z.of_nat (S j) - 1) by lia.
    destruct (lookup_lt_is_Some_2 l (S j `mod` length l)) as [k' Hk'].
    { apply Nat.mod_upper_bound. lia. }
    rewrite Hk'. apply IH; [lia | lia | lia | | done].
    by replace (S j - 1)%nat with j by lia.
Qed.

Lemma ring_min_ccw g l k0 k1 fuel recurse_limit :
  ring g l → (3 ≤ length l)%nat →
  l !! 0%nat = Some k0 → l !! 1%nat = Some k1 →
  (length l ≤ fuel)%nat →
  (∀ count, 0 ≤ count < Z.of_nat (length l) →
     limit_hit recurse_limit count = false) →
  min_ccw_cycle fuel g k0 (Some k1) None recurse_limit 0 = Some (Return l).
Proof.
  intros Hring Hlen H0 H1 Hfuel Hlimit.
  destruct fuel as [|fuel]; [lia|]. rewrite min_ccw_cycle_S.
  rewrite Hlimit by lia. unfold loop_completed. cbv iota.
  rewrite (ring_min_ccw_body g l 1 k1 k0 None Hring Hlen);
    [| lia | done | done | by destruct l; [|injection H0 as ->]].
  rewrite (Nat.mod_small 2) by lia.
  destruct (lookup_lt_is_Some_2 l 2) as [k2 Hk2]; [lia|].
  rewrite Hk2.
  apply (ring_min_ccw_walk g l k0 recurse_limit Hring Hlen H0 Hlimit
           (length l - 2) fuel 2 k1 k2); [lia | lia | lia | done |].
  by rewrite Nat.mod_small by lia.
Qed.

Lemma ring_min_cycles g l k0 fuel recurse_limit :
  ring g l → (3 ≤ length l)%nat → l !! 0%nat = Some k0 →
  (length l ≤ fuel)%nat →
  (∀ count, 0 ≤ count < Z.of_nat (length l) →
     limit_hit recurse_limit count = false) →
  ∀ d i polygon_node_lst,
    (i + d = length l)%nat →
    min_cycles_loop fuel g (drop i l ++ [k0]) recurse_limit polygon_node_lst
    = Some (Return (polygon_node_lst ++ ((λ i', rotate i' l) <$> seq i d))).
Proof.
  intros Hring Hlen H0 Hfuel Hlimit.
  induction d as [|d IH]; intros i acc Hid.
  { rewrite drop_ge by lia. simpl. by rewrite app_nil_r. }
  destruct (lookup_lt_is_Some_2 l i) as [ki Hki]; [lia|].
  destruct (lookup_lt_is_Some_2 l (S i `mod` length l)) as [next Hnext].
  { apply Nat.mod_upper_bound. lia. }
  assert (∃ tl, drop (S i) l ++ [k0] = next :: tl) as [tl Hrest].
  { destruct (decide (S i = length l)) as [Heq|Hneq].
    - rewrite Heq, Nat.Div0.mod_same, H0 in Hnext. injection Hnext as <-.
      rewrite drop_ge by lia. by exists [].
    - rewrite Nat.mod_small in Hnext by lia.
      rewrite (drop_S l next (S i) Hnext). by eexists. }
  rewrite (drop_S l ki i Hki). simpl. rewrite Hrest.
  rewrite (ring_min_ccw g (rotate i l) ki next fuel recurse_limit).
  - rewrite <- Hrest. rewrite IH by lia.
    by rewrite <- app_assoc.
  - by apply ring_rotate.
  - by rewrite length_rotate.
  - rewrite lookup_rotate_r by lia. by rewrite rotate_nat_add_0 by lia.
  - replace 1%nat with (S 0 `mod` length l)%nat by (rewrite Nat.mod_small; lia).
    rewrite rotate_succ by lia. by rewrite rotate_nat_add_0 by lia.
  - by rewrite length_rotate.
  - by rewrite length_rotate.
Qed.

Lemma limit_hit_far recurse_limit (n : nat) :
  match recurse_limit with
  | Some l => l = 0 ∨ Z.of_nat n ≤ l
  | None => True
  end →
  ∀ count, 0 ≤ count < Z.of_nat n → limit_hit recurse_limit count = false.
Proof.
  intros Hl count Hc. unfold limit_hit. destruct recurse_limit as [l|]; [|done].
  destruct Hl as [->|Hl]; [done|].
  rewrite (bool_decide_eq_false_2 (l ≤ count)) by lia.
  by rewrite andb_false_r.
Qed.

Lemma ring_smallest_cycles g l fuel recurse_limit :
  ring g l → (3 ≤ length l)%nat → ordered_nodes g = l →
  (length l ≤ fuel)%nat →
  (∀ count, 0 ≤ count < Z.of_nat (length l) →
     limit_hit recurse_limit count = false) →
  smallest_closed_cycles fuel g recurse_limit
  = Some (inr ((λ i, rotate i l) <$> seq 0 (length l))).
Proof.
  intros Hring Hlen Hord Hfuel Hlimit.
  destruct l as [|k0 tl] eqn:El; [simpl in Hlen; lia|]. rewrite <- El in *.
  assert (l !! 0%nat = Some k0) as H0 by by rewrite El.
  unfold smallest_closed_cycles. rewrite Hord.
  assert (find_exterior_cycle fuel g l None = Some (Return (Some (Some l))))
    as ->.
  { rewrite El at 1. simpl.
    by rewrite (ring_exterior_cycle g l k0 fuel Hring) by (done || lia). }
  assert (head l = Some k0) as -> by by rewrite El.
  change (l ++ [k0]) with (drop 0 l ++ [k0]).
  by rewrite (ring_min_cycles g l k0 fuel recurse_limit Hring Hlen H0
                Hfuel Hlimit (length l) 0 []) by lia.
Qed.


(** ** Closed paths *)

Lemma next_exterior_scan_elem g node adj a :
  next_exterior_scan g node adj = Return (Some a) → a ∈ adj.
Proof.
  induction adj as [|b adj IH]; simpl; [done|].
  destruct (_directed_graph g !! b) as [nb|]; [|done].
  destruct (exterior nb) as [[|]|].
  - intros [= ->]. left.
  - intros H. right. by apply IH.
  - destruct (is_edge_bidirect g node b) as [[|]|]; simpl.
    + intros H. right. by apply IH.
    + intros [= ->]. left.
    + done.
Qed.

Lemma next_exterior_node_edge g node a :
  next_exterior_node g node = Return (Some a) → has_edge g node a.
Proof.
  unfold next_exterior_node.
  destruct (_directed_graph g !! node) as [n|] eqn:En; [|done].
  intros Ha%next_exterior_scan_elem. by exists n.
Qed.

Lemma path_in_snoc g l x y :
  path_in g l → last l = Some x → has_edge g x y → path_in g (l ++ [y]).
Proof.
  intros Hpath Hlast Hxy i u v Hu Hv.
  rewrite last_lookup in Hlast.
  destruct (decide (S i < length l)%nat) as [Hlt|Hge].
  - rewrite lookup_app_l in Hu, Hv by lia. by apply (Hpath i).
  - assert (i < length l)%nat as Hi.
    { apply lookup_lt_Some in Hv. rewrite length_app in Hv. simpl in Hv. lia. }
    rewrite lookup_app_l in Hu by done.
    rewrite lookup_app_r in Hv by lia.
    replace (S i - length l)%nat with 0%nat in Hv by lia.
    injection Hv as <-.
    replace (Init.Nat.pred (length l)) with i in Hlast by lia.
    rewrite Hu in Hlast. by injection Hlast as ->.
Qed.

Lemma exterior_cycle_loop_path g cycle_root :
  ∀ fuel next_node ext_cycle x c,
    exterior_cycle_loop fuel g cycle_root next_node ext_cycle
    = Some (Return (Some c)) →
    head ext_cycle = Some cycle_root → path_in g ext_cycle →
    cycle_root ∉ tail ext_cycle →
    last ext_cycle = Some x → has_edge g x next_node →
    head c = Some cycle_root ∧ path_in g c ∧ (cycle_root ∉ tail c) ∧
    ∃ y, last c = Some y ∧ has_edge g y cycle_root.
Proof.
  induction fuel as [|fuel IH]; intros next ext x c; simpl; [done|].
  destruct (decide (next = cycle_root)) as [->|Hne].
  - rewrite bool_decide_eq_true_2 by done. intros [= <-] Hhead Hpath Hout Hx He.
    split_and!; [done | done | done |]. by exists x.
  - rewrite bool_decide_eq_false_2 by done.
    destruct (next_exterior_node g next) as [[next'|]|] eqn:En; [|done|done].
    intros Hrun Hhead Hpath Hout Hx He.
    apply (IH next' (ext ++ [next]) next c Hrun).
    + destruct ext; [done|]. done.
    + by apply (path_in_snoc g ext x).
    + destruct ext as [|e0 ext]; [done|]. simpl in *.
      rewrite elem_of_app, list_elem_of_singleton. intros [?|?]; done.
    + by rewrite last_snoc.
    + by apply next_exterior_node_edge.
Qed.


(** ** Edge cases *)



Lemma scan_edges_miss segment g nodes :
  adj_closed g → all_adjacent g →
  (∀ node n next nn,
     _directed_graph g !! node = Some n → head (adj_lst n) = Some next →
     _directed_graph g !! next = Some nn →
     intersect_line2d_infinite
       (LineSegment2D.from_end_points (pt n) (pt nn)) segment = None) →
  ∀ ks,
    (∀ k, k ∈ nodes → is_Some (_directed_graph g !! k)) →
    scan_edges segment nodes ks g = (Return ks, g).
Proof.
  intros Hcl Hadj Hmiss.
  induction nodes as [|node nodes IH]; intros ks Hin; [done|].
  simpl. destruct (Hin node) as [n En]; [left|].
  rewrite (bind_Return _ _ _ _ _ (deref_Some _ _ _ En)).
  destruct (adj_lst n) as [|next ?] eqn:Ea; [by destruct (Hadj _ _ En)|].
  destruct (Hcl node n next En) as [nn Enn]; [rewrite Ea; left|].
  rewrite (bind_Return _ _ _ _ _ (deref_Some _ _ _ Enn)).
  rewrite (Hmiss node n next nn En) by (by rewrite ?Ea).
  apply IH. intros k Hk. apply Hin. by right.
Qed.


Lemma find_exterior_cycle_none g :
  ∀ nodes fuel ext_nodes,
    (∀ k, k ∈ nodes → next_exterior_node g k = Return None) →
    find_exterior_cycle fuel g nodes ext_nodes
    = Some (Return (match nodes with [] => ext_nodes | _ => Some None end)).
Proof.
  induction nodes as [|node nodes IH]; intros fuel ext_nodes Hnone; [done|].
  simpl. unfold exterior_cycle. rewrite (Hnone node) by left.
  rewrite IH by (intros k Hk; apply Hnone; by right).
  by destruct nodes.
Qed.


(** ** The cycle of [min_ccw_cycle] *)

Lemma index_neg2_two pre p r : index_neg2 (pre ++ [p; r]) = Return p.
Proof. unfold index_neg2. by rewrite rev_app_distr. Qed.

Lemma min_ccw_scan_elem g cycle edge_dir next_pt adj :
  ∀ min_theta min_node a,
    min_ccw_scan g cycle edge_dir next_pt adj min_theta min_node
    = Return (Some a) →
    min_node = Some a ∨
    (a ∈ adj ∧ ∃ prev, index_neg2 cycle = Return prev ∧ a ≠ prev).
Proof.
  induction adj as [|b adj IH]; intros mt mn a; simpl.
  { intros [= ->]. by left. }
  destruct (index_neg2 cycle) as [prev|e] eqn:Ep; simpl; [|done].
  destruct (decide (b = prev)) as [->|Hne].
  - rewrite bool_decide_eq_true_2 by done.
    intros [?|[Hin H]]%IH; [by left | right]. split; [by right | done].
  - rewrite bool_decide_eq_false_2 by done.
    destruct (_directed_graph g !! b) as [an|]; [|done].
    destruct (match mt with
              | Some m => negb (Qle_bool m _)
              | None => true
              end).
    + intros [[= <-]|[Hin H]]%IH; right.
      * split; [left | by exists prev].
      * split; [by right | done].
    + intros [?|[Hin H]]%IH; [by left | right]. split; [by right | done].
Qed.

Lemma min_ccw_body_step g ref_node nx cycle cycle' ref' min_node :
  min_ccw_body g ref_node (Some nx) cycle = Return (cycle', ref', min_node) →
  cycle' = match cycle with None => [ref_node] | Some c => c end ++ [nx] ∧
  ref' = nx ∧
  ∀ a, min_node = Some a →
       has_edge g nx a ∧ ∃ prev, index_neg2 cycle' = Return prev ∧ a ≠ prev.
Proof.
  unfold min_ccw_body.
  destruct (_directed_graph g !! nx) as [nn|] eqn:Enn; [|done].
  destruct (_directed_graph g !! ref_node) as [rn|]; [|done].
  destruct (min_ccw_scan _ _ _ _ _ _ _) as [mn|e] eqn:Escan; [|done].
  simpl. intros [= <- <- <-]. split_and!; [done | done |].
  intros a ->. apply min_ccw_scan_elem in Escan as [?|[Hin H]]; [done|].
  split; [by exists nn | done].
Qed.

Lemma no_backtrack_snoc pre p r a :
  no_backtrack (pre ++ [p; r]) → a ≠ p →
  no_backtrack ((pre ++ [p]) ++ [r; a]).
Proof.
  intros Hnb Hne i u v Hu Hv.
  rewrite <- app_assoc in Hu, Hv. simpl in Hu, Hv.
  destruct (decide (i < length pre)%nat) as [Hlt|Hge].
  - apply (Hnb i u v).
    + rewrite lookup_app_l in Hu |- * by done. done.
    + destruct (decide (S (S i) < length pre)%nat).
      * rewrite lookup_app_l in Hv |- * by done. done.
      * rewrite lookup_app_r in Hv |- * by lia.
        destruct (S (S i) - length pre)%nat as [|[|[|?]]] eqn:E;
          simpl in *; [done | done | lia | lia].
  - rewrite lookup_app_r in Hu, Hv by lia.
    replace (S (S i) - length pre)%nat with (S (S (i - length pre))) in Hv
      by lia.
    destruct (i - length pre)%nat as [|[|?]]; simpl in *; [|done|done].
    injection Hu as <-. injection Hv as <-. done.
Qed.

Lemma path_in_tail_snoc g pre p r a :
  path_in g (tail (pre ++ [p; r])) → has_edge g r a →
  path_in g (tail ((pre ++ [p]) ++ [r; a])).
Proof.
  intros Hpath He.
  replace ((pre ++ [p]) ++ [r; a]) with ((pre ++ [p; r]) ++ [a])
    by by rewrite <- !app_assoc.
  assert (tail ((pre ++ [p; r]) ++ [a]) = tail (pre ++ [p; r]) ++ [a]) as ->
    by by destruct pre.
  apply (path_in_snoc g _ r); [done | | done].
  destruct pre as [|x pre]; [done|]. simpl.
  rewrite last_app. done.
Qed.

Lemma min_ccw_cycle_walk g recurse_limit :
  ∀ fuel pre p ref_node next_node count c,
    min_ccw_cycle fuel g ref_node next_node (Some (pre ++ [p; ref_node]))
      recurse_limit count
    = Some (Return c) →
    path_in g (tail (pre ++ [p; ref_node])) →
    no_backtrack (pre ++ [p; ref_node]) →
    (∀ a, next_node = Some a → has_edge g ref_node a ∧ a ≠ p) →
    ∃ more y,
      c = pre ++ [p; ref_node] ++ more ∧ path_in g (tail c) ∧
      no_backtrack c ∧ last c = Some y ∧
      ∀ c0, head c = Some c0 → has_edge g y c0.
Proof.
  induction fuel as [|fuel IH];
    intros pre p ref_node next_node count c; [done|].
  rewrite min_ccw_cycle_S. destruct (limit_hit _ _); [done|].
  intros Hrun Hpath Hnb Hnext.
  destruct next_node as [a|].
  2:{ destruct (pre ++ [p; ref_node]) as [|c0 tl]; simpl in Hrun; done. }
  destruct (Hnext a eq_refl) as [He Hne].
  destruct (pre ++ [p; ref_node]) as [|c0 tl] eqn:Ecyc.
  { by destruct pre. }
  unfold loop_completed in Hrun.
  destruct (decide (a = c0)) as [->|Hc0].
  - rewrite bool_decide_eq_true_2 in Hrun by done. simpl in Hrun.
    injection Hrun as <-. exists [], ref_node.
    split_and!; [| done | done | |].
    + simpl. by rewrite Ecyc.
    + rewrite <- Ecyc. by rewrite last_app.
    + simpl. by intros c0' [= <-].
  - rewrite bool_decide_eq_false_2 in Hrun by done.
    destruct (min_ccw_body g ref_node (Some a) (Some (c0 :: tl)))
      as [[[cycle' ref'] mn]|e] eqn:Ebody; [|done].
    apply min_ccw_body_step in Ebody as (-> & -> & Hmn).
    rewrite <- Ecyc in Hrun, Hmn.
    replace ((pre ++ [p; ref_node]) ++ [a])
      with ((pre ++ [p]) ++ [ref_node; a]) in Hrun, Hmn
      by by rewrite <- !app_assoc.
    rewrite <- Ecyc in Hpath, Hnb.
    destruct (IH (pre ++ [p]) ref_node a mn (count + 1) c Hrun)
      as (more & y & -> & Hpath' & Hnb' & Hlast & Hclose).
    + by apply path_in_tail_snoc.
    + by apply no_backtrack_snoc.
    + intros b Hb. destruct (Hmn b Hb) as (Hab & prev & Hprev & Hbp).
      rewrite index_neg2_two in Hprev. injection Hprev as <-. done.
    + exists (a :: more), y.
      split_and!; [by rewrite <- !app_assoc | done | done | done | done].
Qed.


(** ** Short point arrays and open paths *)


Lemma add_path_fresh pts :
  (2 ≤ length pts)%nat →
  NoDup ((λ p, _vector2hash p default_tol) <$> pts) →
  ∃ g',
    add_path pts (__init__ default_tol) = (Return tt, g') ∧
    _tol g' = default_tol ∧ _root g' = None ∧
    num_nodes g' = length pts ∧
    (∀ k, k ∉ (λ p, _vector2hash p default_tol) <$> pts →
       _directed_graph g' !! k = None) ∧
    (∀ j q q', pts !! j = Some q → pts !! S j = Some q' →
       _directed_graph g' !! _vector2hash q default_tol
       = Some (mk_Node q j [_vector2hash q' default_tol] (Some true))) ∧
    (∀ q, last pts = Some q →
       _directed_graph g' !! _vector2hash q default_tol
       = Some (mk_Node q (length pts - 1) [] None)).
Proof.
  intros Hlen Hnd.
  destruct pts as [|p0 [|p1 rest]]; simpl in Hlen; [lia | lia |].
  set (pts := p0 :: p1 :: rest) in *.
  set (h := λ p, _vector2hash p default_tol) in *.
  set (g0 := exec (_check_and_make_node (h p0) p0 (Some true))
               (__init__ default_tol)).
  assert (g0 = mkGraph {[h p0 := mk_Node p0 0 [] (Some true)]} None
                 default_tol 1) as Hg0 by done.
  destruct (add_path_run (p1 :: rest) p0 0%nat (Some true) g0)
    as (g' & Hrun & Htol & Hroot & Hnum & Hout & Hin & Hlast).
  { rewrite Hg0. simpl. fold (h p0). by rewrite lookup_singleton_eq. }
  { by rewrite Hg0. }
  { by rewrite Hg0. }
  { intros q Hq. rewrite Hg0. simpl. fold (h q).
    rewrite lookup_singleton_ne; [done|].
    intros E. apply list_elem_of_lookup in Hq as [j Hj].
    by pose proof (NoDup_fmap_lookup_inj h pts 0 (S j) p0 q Hnd eq_refl Hj E). }
  assert (_tol g0 = default_tol) as Htol0 by by rewrite Hg0.
  rewrite Htol0 in *. fold h in Hout, Hin, Hlast. fold pts in Hout, Hin, Hlast.
  exists g'. split_and!.
  - rewrite <- Hrun. unfold pts.
    change (add_path (p0 :: p1 :: rest))
      with (add_node p0 [p1] (Some true) ;; add_path (p1 :: rest)).
    unfold mbind, M_bind, bind.
    by rewrite <- (add_node_after_make p0 [p1] (Some true)
                    (__init__ default_tol)).
  - done.
  - by rewrite Hroot, Hg0.
  - rewrite Hnum. simpl. lia.
  - intros k Hk. rewrite Hout by done. rewrite Hg0. simpl.
    rewrite lookup_singleton_ne; [done|].
    intros <-. apply Hk. apply (list_elem_of_fmap_2 h). by left.
  - intros j q q' Hj Hq. by rewrite (Hin j q q' Hj Hq).
  - intros q Hq. rewrite (Hlast q Hq). simpl. repeat (f_equal; try lia).
Qed.


(** ** Walks that do not end, and dead ends *)

Lemma ring_trap g l cycle_root :
  ring g l → cycle_root ∉ l →
  ∀ fuel next_node ext_cycle,
    next_node ∈ l →
    exterior_cycle_loop fuel g cycle_root next_node ext_cycle = None.
Proof.
  intros Hring Hout.
  induction fuel as [|fuel IH]; intros next ext Hin; [done|]. simpl.
  rewrite bool_decide_eq_false_2 by (intros ->; done).
  apply list_elem_of_lookup in Hin as [j Hj].
  rewrite (ring_next_exterior g l j next Hring Hj).
  pose proof (lookup_lt_Some _ _ _ Hj) as Hlt.
  destruct (lookup_lt_is_Some_2 l (S j `mod` length l)) as [k' Hk'].
  { apply Nat.mod_upper_bound. lia. }
  rewrite Hk'. apply IH. by apply list_elem_of_lookup_2 in Hk'.
Qed.


Lemma min_ccw_scan_back g cycle edge_dir next_pt adj prev :
  index_neg2 cycle = Return prev → (∀ a, a ∈ adj → a = prev) →
  ∀ min_theta min_node,
    min_ccw_scan g cycle edge_dir next_pt adj min_theta min_node
    = Return min_node.
Proof.
  intros Hprev. induction adj as [|a adj IH]; intros Hall mt mn; [done|].
  simpl. rewrite Hprev. simpl.
  rewrite bool_decide_eq_true_2 by (apply Hall; left).
  apply IH. intros b Hb. apply Hall. by right.
Qed.


(** ** [insert_node] with a missing node *)


End Graph.

(** * Examples

    The claims at concrete graphs, with the exact instance of the builtins
    and of the geometry. *)

Abbreviation P a b := (Vector2D.mk (a # 1) (b # 1)).
Abbreviation xrtol := (rtol_of Exact.log10).
Abbreviation xhash := (_vector2hash Exact.log10 Exact.round Exact.str).
Abbreviation xadd_node := (add_node Exact.log10 Exact.round Exact.str).
Abbreviation xinsert_node := (insert_node Exact.log10 Exact.round Exact.str).
Abbreviation xremove_adj := (remove_adj).
Abbreviation xrun_calls :=
  (run_calls Exact.log10 Exact.round Exact.str Exact.point_bool
     Exact.intersect_line2d_infinite Exact.segment_length).
Abbreviation xrun_call :=
  (run_call Exact.log10 Exact.round Exact.str Exact.point_bool
     Exact.intersect_line2d_infinite Exact.segment_length).
Abbreviation xintersect :=
  (intersect_graph_with_segment Exact.log10 Exact.round Exact.str Exact.point_bool
     Exact.intersect_line2d_infinite Exact.segment_length).
Abbreviation xscan :=
  (scan_edges Exact.log10 Exact.round Exact.str Exact.point_bool
     Exact.intersect_line2d_infinite).
Abbreviation xsound := (sound Exact.log10 Exact.round Exact.str).

(** One edge, from (1, 1) to (3, 1). *)
Abbreviation edge :=
  (xrun_calls [Call_add_node (P 1 1) [P 3 1] None] (__init__ default_tol)).

(** The edge and its reverse, and a third node (2, 1) with no adjacency. *)
Abbreviation bar :=
  (xrun_calls [Call_add_node (P 1 1) [P 3 1] None;
               Call_add_node (P 3 1) [P 1 1] None;
               Call_add_node (P 2 1) [] None] (__init__ default_tol)).

(** The square with corners (1, 1) and (5, 5). *)
Abbreviation square :=
  (xrun_calls [Call_add_node (P 1 1) [P 5 1] (Some true);
               Call_add_node (P 5 1) [P 5 5] (Some true);
               Call_add_node (P 5 5) [P 1 5] (Some true);
               Call_add_node (P 1 5) [P 1 1] (Some true)]
     (__init__ default_tol)).

(** The vertical lines [x = 2] and [x = 3]. *)
Abbreviation cut2 := (LineSegment2D.from_end_points (P 2 0) (P 2 2)).
Abbreviation cut3 := (LineSegment2D.from_end_points (P 3 0) (P 3 6)).

Lemma run_calls_are_sound cs : xsound (xrun_calls cs (__init__ default_tol)).
Proof. apply run_calls_sound, init_sound. Qed.

Lemma hash_precision_witness :
  xrtol 0 = 0 ∧ xrtol (10 # 1) ≤ -1 ∧ 0 ≤ xrtol (1 # 100000).
Proof.
  destruct (hash_precision Exact.log10 Exact.round Exact.str (P 1 1) 0)
    as (_ & H0 & _ & _).
  destruct (hash_precision Exact.log10 Exact.round Exact.str (P 1 1) (10 # 1))
    as (_ & _ & H1 & _).
  destruct (hash_precision Exact.log10 Exact.round Exact.str (P 1 1)
              (1 # 100000)) as (_ & _ & _ & H2).
  split_and!.
  - apply H0. reflexivity.
  - destruct (H1 1%Q) as (_ & _ & _ & Hle).
    + vm_compute. reflexivity.
    + unfold Qle. simpl. lia.
    + apply Hle. unfold Qle. simpl. lia.
  - destruct (H2 (-5 # 1)%Q) as (Hge & _).
    + vm_compute. reflexivity.
    + unfold Qle. simpl. lia.
    + exact Hge.
Defined.

(** C1 fails as stated: at the tolerance 100, which is at least 1 and
    whose [log10] is 2, the precision is -2 and not 0 (coordinates are
    rounded to hundreds); and at the tolerance 0.00002, where
    [floor(log10(tol))] is -5, the precision is 4 and not 5. *)
Lemma precision_is_not_clamped :
  ((1 <= 100 # 1)%Q ∧ Exact.log10 (100 # 1) = Some (2 # 1)%Q ∧
   xrtol (100 # 1) = -2 ∧
   xhash (Vector2D.mk (11611116 # 100000) (11611116 # 100000)) (100 # 1)
   = "(100/1, 100/1)") ∧
  ((inject_Z 10 ^ (-5) <= 2 # 100000)%Q ∧
   (2 # 100000 < inject_Z 10 ^ (-4))%Q ∧
   xrtol (2 # 100000) = 4).
Proof.
  split; split_and!; try (vm_compute; reflexivity).
  - unfold Qle. simpl. lia.
  - vm_compute. discriminate.
Qed.

Lemma insert_node_subdivides_witness :
  ∃ g',
    xinsert_node "(1/1, 1/1)" (P 2 1) "(3/1, 1/1)" None edge
    = (Return "(2/1, 1/1)", g') ∧
    has_edge g' "(2/1, 1/1)" "(3/1, 1/1)" ∧
    has_edge g' "(1/1, 1/1)" "(2/1, 1/1)" ∧
    ¬ has_edge g' "(1/1, 1/1)" "(3/1, 1/1)".
Proof.
  assert (xhash (P 2 1) (_tol edge) = "(2/1, 1/1)") as E
    by (vm_compute; reflexivity).
  destruct (insert_node_subdivides Exact.log10 Exact.round Exact.str
              "(1/1, 1/1)" (mk_Node (P 1 1) 0 ["(3/1, 1/1)"] None)
              "(3/1, 1/1)" (mk_Node (P 3 1) 1 [] None)
              (P 2 1) None edge)
    as (g' & nk & nl' & Hrun & Hk & Hkr & Hl & _ & Hin & Hout).
  - apply run_calls_are_sound.
  - vm_compute. reflexivity.
  - vm_compute. reflexivity.
  - apply list_elem_of_here.
  - rewrite E. discriminate.
  - rewrite E. discriminate.
  - rewrite E in Hrun, Hk, Hin. exists g'. split_and!.
    + exact Hrun.
    + exists nk. split; [exact Hk | exact Hkr].
    + exists nl'. split; [exact Hl | exact Hin].
    + intros (n & Hn & Hr). rewrite Hl in Hn. injection Hn as <-.
      exact (Hout Hr).
Defined.

Lemma insert_node_coincident_witness :
  ∃ g',
    xinsert_node "(1/1, 1/1)" (P 3 1) "(3/1, 1/1)" (Some false) edge
    = (Return "(3/1, 1/1)", g') ∧
    num_nodes g' = num_nodes edge ∧
    dom (_directed_graph g') = dom (_directed_graph edge).
Proof.
  destruct (insert_node_coincident Exact.log10 Exact.round Exact.str
              "(1/1, 1/1)" (mk_Node (P 1 1) 0 ["(3/1, 1/1)"] None)
              "(3/1, 1/1)" (mk_Node (P 3 1) 1 [] None)
              (P 3 1) (Some false) edge)
    as (g' & n & Hrun & _ & _ & Hnum & Hdom & _).
  - apply run_calls_are_sound.
  - vm_compute. reflexivity.
  - vm_compute. reflexivity.
  - apply list_elem_of_here.
  - right. vm_compute. reflexivity.
  - exists g'. split_and!; [exact Hrun | exact Hnum | exact Hdom].
Defined.

Lemma intersections_are_chained_witness :
  ∃ g2,
    xintersect cut3 square = (Return tt, g2) ∧
    joined g2 "(3/1, 1/1)" "(3/1, 5/1)".
Proof.
  destruct (intersections_are_chained Exact.log10 Exact.round Exact.str Exact.point_bool
              Exact.intersect_line2d_infinite Exact.segment_length
              cut3 square ["(3/1, 1/1)"; "(3/1, 5/1)"]
              (exec (xscan cut3 (ordered_nodes square) []) square))
    as (g2 & Hrun & _ & Hjoin & _).
  - apply run_calls_are_sound.
  - rewrite run_eq. apply (f_equal2 pair); [|reflexivity].
    vm_compute. reflexivity.
  - exists g2. split; [exact Hrun|]. apply Hjoin; [reflexivity | discriminate].
Defined.

Lemma closed_loop_is_a_cycle_witness :
  ∃ g,
    from_point_array Exact.log10 Exact.round Exact.str [P 1 1; P 5 1; P 5 5; P 1 5] true
    = Return g ∧
    num_nodes g = 4%nat ∧
    adj_matrix g
    = Return [[0; 1; 0; 0]; [0; 0; 1; 0]; [0; 0; 0; 1]; [1; 0; 0; 0]].
Proof.
  destruct (closed_loop_is_a_cycle Exact.log10 Exact.round Exact.str
              [P 1 1; P 5 1; P 5 5; P 1 5])
    as (g & Hrun & Hnum & _ & _ & _ & _ & Hmat).
  - simpl. lia.
  - apply (bool_decide_unpack _). vm_compute. exact I.
  - exists g. split_and!; [exact Hrun | exact Hnum | exact Hmat].
Defined.

Lemma step_bound_is_fatal_witness :
  min_ccw_cycle Exact.angle_clockwise 5 square "(1/1, 1/1)"
    (Some "(5/1, 1/1)") None (Some 3) 0
  = Some (Raise RecursionError).
Proof.
  destruct (step_bound_is_fatal Exact.angle_clockwise square "(1/1, 1/1)"
              (Some "(5/1, 1/1)") None 3 0) as (_ & _ & H).
  - lia.
  - apply H.
    + vm_compute. reflexivity.
    + simpl. lia.
Defined.

Lemma nodes_are_never_removed_witness :
  dom (_directed_graph edge)
  ⊆ dom (_directed_graph
           (xrun_calls [Call_remove_adj "(1/1, 1/1)" ["(3/1, 1/1)"];
                        Call_insert_node "(1/1, 1/1)" (P 2 1) "(3/1, 1/1)" None;
                        Call_intersect_graph_with_segment cut2] edge)) ∧
  eval (remove_adj "(1/1, 1/1)" ["(3/1, 1/1)"; "(7/1, 7/1)"]) edge = Return tt ∧
  num_nodes (exec (remove_adj "(1/1, 1/1)" ["(3/1, 1/1)"; "(7/1, 7/1)"]) edge)
  = num_nodes edge.
Proof.
  destruct (nodes_are_never_removed Exact.log10 Exact.round Exact.str Exact.point_bool
              Exact.intersect_line2d_infinite Exact.segment_length)
    as [Hcalls Hremove].
  split.
  - apply Hcalls.
  - destruct (Hremove "(1/1, 1/1)" (mk_Node (P 1 1) 0 ["(3/1, 1/1)"] None)
                ["(3/1, 1/1)"; "(7/1, 7/1)"] edge) as (Hev & _ & _ & Hnum & _).
    + vm_compute. reflexivity.
    + split; [exact Hev | exact Hnum].
Defined.

Lemma no_self_loop_no_repeated_adjacency_witness :
  no_loops_no_repeats
    (exec (xrun_call (Call_add_node (P 1 1) [P 1 1; P 3 1; P 3 1] None))
       (xrun_calls [Call_add_node (P 1 1) [P 1 1] None]
          (__init__ default_tol))).
Proof.
  destruct (no_self_loop_no_repeated_adjacency Exact.log10 Exact.round Exact.str
              Exact.point_bool Exact.intersect_line2d_infinite
              Exact.segment_length) as [Hnew Hcall].
  apply Hcall. apply Hnew.
Defined.

(** The edge and its reverse, and a third node (2, 7) with no adjacency. *)
Abbreviation lone :=
  (xrun_calls [Call_add_node (P 1 1) [P 3 1] None;
               Call_add_node (P 3 1) [P 1 1] None;
               Call_add_node (P 2 7) [] None] (__init__ default_tol)).

Lemma intersect_needs_adjacency_witness :
  eval (xintersect cut3) square = Return tt ∧
  eval (xscan cut2 ["(1/1, 1/1)"; "(3/1, 1/1)"] []) lone
  = Return ["(2/1, 1/1)"; "(2/1, 1/1)"] ∧
  eval (xintersect cut2) lone = Raise IndexError.
Proof.
  assert (eval (xscan cut2 ["(1/1, 1/1)"; "(3/1, 1/1)"] []) lone
          = Return ["(2/1, 1/1)"; "(2/1, 1/1)"]) as Escan
    by (vm_compute; reflexivity).
  split_and!.
  - destruct (intersect_needs_adjacency Exact.log10 Exact.round Exact.str
                Exact.point_bool Exact.intersect_line2d_infinite
                Exact.segment_length cut3 square) as [Hok _];
      [apply run_calls_are_sound|].
    apply Hok. intros k n Hk.
    assert (map_Forall (λ _ n, adj_lst n ≠ []) (_directed_graph square))
      as Hall.
    { apply (bool_decide_unpack _). vm_compute. exact I. }
    exact (Hall k n Hk).
  - exact Escan.
  - destruct (intersect_needs_adjacency Exact.log10 Exact.round Exact.str
                Exact.point_bool Exact.intersect_line2d_infinite
                Exact.segment_length cut2 lone) as [_ Hraise];
      [apply run_calls_are_sound|].
    apply (Hraise "(2/1, 7/1)" (mk_Node (P 2 7) 2 [] None)
             ["(1/1, 1/1)"; "(3/1, 1/1)"] []).
    + vm_compute. reflexivity.
    + vm_compute. reflexivity.
    + reflexivity.
    + intros ks g1 Hrun. apply (f_equal fst) in Hrun.
      change (eval (xscan cut2 ["(1/1, 1/1)"; "(3/1, 1/1)"] []) lone
              = Return ks) in Hrun.
      rewrite Escan in Hrun. injection Hrun as <-.
      intros Hin.
      apply elem_of_cons in Hin as [Hin|Hin]; [discriminate Hin|].
      apply elem_of_cons in Hin as [Hin|Hin]; [discriminate Hin|].
      by apply elem_of_nil in Hin.
Defined.

(** C10 fails as stated: the graph [bar] has the node (2, 1) with an empty
    adjacency list, and [intersect_graph_with_segment] with the line
    [x = 2] returns on it: the edge from (1, 1) to (3, 1), scanned first,
    meets the line in (2, 1), and splicing that point gives the node its
    adjacency before the scan reaches it. *)
Lemma empty_adjacency_can_pass :
  _directed_graph bar !! "(2/1, 1/1)" = Some (mk_Node (P 2 1) 2 [] None) ∧
  eval (xintersect cut2) bar = Return tt.
Proof. split; vm_compute; reflexivity. Qed.

(** ** Further examples *)

Abbreviation xfrom_polygon := (from_polygon Exact.log10 Exact.round Exact.str).
Abbreviation xfrom_point_array :=
  (from_point_array Exact.log10 Exact.round Exact.str).

(** The corners of the square, as a polygon. *)
Abbreviation corners := [P 1 1; P 5 1; P 5 5; P 1 5].

(** The edge from (1, 1) to (3, 1) and its reverse. *)
Abbreviation pair :=
  (xrun_calls [Call_add_node (P 1 1) [P 3 1] None;
               Call_add_node (P 3 1) [P 1 1] None] (__init__ default_tol)).

(** The vertical line [x = 7]. *)
Abbreviation cut7 := (LineSegment2D.from_end_points (P 7 0) (P 7 2)).

Lemma run_calls_are_numbered cs :
  numbered (xrun_calls cs (__init__ default_tol)).
Proof. apply run_calls_numbered, init_numbered. Qed.

Lemma corners_have_different_keys :
  NoDup ((λ p, xhash p default_tol) <$> corners).
Proof. apply (bool_decide_unpack _). vm_compute. exact I. Qed.

Lemma corners_polygon :
  ∃ g, xfrom_polygon corners = Return g.
Proof.
  assert (2 ≤ length corners)%nat as Hlen by (simpl; lia).
  pose proof (from_point_array_run Exact.log10 Exact.round Exact.str corners
                Hlen corners_have_different_keys) as Hrun.
  eexists. exact Hrun.
Qed.





















(** An edge from (0, 0) into the cycle between (1, 0) and (2, 0). *)
Abbreviation tadpole :=
  (xrun_calls [Call_add_node (P 0 0) [P 1 0] (Some true);
               Call_add_node (P 1 0) [P 2 0] (Some true);
               Call_add_node (P 2 0) [P 1 0] (Some true)]
     (__init__ default_tol)).

Lemma tadpole_ring : ring tadpole ["(1/1, 0/1)"; "(2/1, 0/1)"].
Proof.
  assert (_directed_graph tadpole !! "(1/1, 0/1)"
          = Some (mk_Node (P 1 0) 1 ["(2/1, 0/1)"] (Some true))) as T1
    by (vm_compute; reflexivity).
  assert (_directed_graph tadpole !! "(2/1, 0/1)"
          = Some (mk_Node (P 2 0) 2 ["(1/1, 0/1)"] (Some true))) as T2
    by (vm_compute; reflexivity).
  split.
  - apply (bool_decide_unpack _). vm_compute. exact I.
  - intros j k k' Hk Hk'. destruct j as [|[|j]]; simpl in Hk, Hk'.
    + injection Hk as <-. injection Hk' as <-.
      eexists. split; [exact T1|]. split; reflexivity.
    + injection Hk as <-. injection Hk' as <-.
      eexists. split; [exact T2|]. split; reflexivity.
    + discriminate Hk.
Qed.



